(** * Movie Matchmaker: the hybrid recommendation engine

    A shallow embedding of [src/utils/recommendationEngine.ts],
    [src/utils/tmdb.ts], [src/utils/gemini.ts] and of the submit handler of
    [src/App.tsx], with the properties of the orchestration that the
    specification states.

    Conventions of the embedding.
    - A JavaScript [number] is a value of [num]: NaN, the two infinities, or
      a finite number carried as an exact rational.  The arithmetic of the
      heuristic score rounds every result to binary64 ([Binary64]); the
      comparator of the sort subtracts two scores, and the sign of their
      rounded difference is the sign of the exact one.  The sign of zero is
      not modelled.
    - A JavaScript string is a [string] of ASCII characters.
    - Every remote service is an oracle of the [World]: its answer may depend
      on the request and on the moment of the call (the number of events
      logged so far).  [Throw] stands for a call that throws (a transport
      failure or a payload that makes the wrapper throw).
    - A decoded payload has the type that the source declares for it; the
      members that a JavaScript object inherits from [Object.prototype] are
      modelled where the source indexes an object by a key of the caller
      ([genreMapAt], [regionDataOf]).
    - Asynchronous functions are computations in the state monad [M]; the
      state holds the module-level variables of the source and the log of
      the observable events (gateway entries, remote requests, alerts).
    - A function that may throw returns a [Result]. *)

From Stdlib Require Import List String Ascii Bool Arith ZArith QArith Qround Qpower Lia Lqa.
From Stdlib Require Import Permutation Sorted.
Import ListNotations.

Set Implicit Arguments.

Close Scope Q_scope.

(** ** JavaScript numbers *)

Module JsNum.

#[local] Open Scope Q_scope.

Inductive num : Type :=
| NaN
| NegInf
| Fin (q : Q)
| PosInf.

Definition ofZ (z : Z) : num := Fin (inject_Z z).

Definition Qsgn (q : Q) : Z := Z.sgn (Qnum q).

(** [a + b] *)
Definition add (a b : num) : num :=
  match a, b with
  | NaN, _ | _, NaN => NaN
  | PosInf, NegInf | NegInf, PosInf => NaN
  | PosInf, _ | _, PosInf => PosInf
  | NegInf, _ | _, NegInf => NegInf
  | Fin x, Fin y => Fin (x + y)
  end.

(** [-a] *)
Definition neg (a : num) : num :=
  match a with
  | NaN => NaN
  | NegInf => PosInf
  | PosInf => NegInf
  | Fin x => Fin (- x)
  end.

(** [a - b] *)
Definition sub (a b : num) : num := add a (neg b).

Definition signed_inf (s : Z) : num :=
  match s with
  | Z0 => NaN
  | Zpos _ => PosInf
  | Zneg _ => NegInf
  end.

Definition sgn (a : num) : option Z :=
  match a with
  | NaN => None
  | NegInf => Some (-1)%Z
  | PosInf => Some 1%Z
  | Fin x => Some (Qsgn x)
  end.

(** [a * b] *)
Definition mul (a b : num) : num :=
  match a, b with
  | Fin x, Fin y => Fin (x * y)
  | _, _ =>
      match sgn a, sgn b with
      | Some s, Some t => signed_inf (s * t)
      | _, _ => NaN
      end
  end.

(** [a / b] *)
Definition div (a b : num) : num :=
  match a, b with
  | NaN, _ | _, NaN => NaN
  | Fin x, Fin y =>
      if Qeq_bool y 0 then signed_inf (Qsgn x) else Fin (x / y)
  | Fin _, _ => Fin 0
  | _, Fin y =>
      match sgn a with
      | Some s => signed_inf (s * (if Qeq_bool y 0 then 1 else Qsgn y))
      | None => NaN
      end
  | _, _ => NaN
  end.

(** [a < b]; false as soon as one side is NaN *)
Definition ltb (a b : num) : bool :=
  match a, b with
  | NaN, _ | _, NaN => false
  | _, NegInf => false
  | NegInf, _ => true
  | PosInf, _ => false
  | _, PosInf => true
  | Fin x, Fin y => negb (Qle_bool y x)
  end.

(** [a > b] *)
Definition gtb (a b : num) : bool := ltb b a.

(** [a === b] on numbers *)
Definition eqb (a b : num) : bool :=
  match a, b with
  | NegInf, NegInf | PosInf, PosInf => true
  | Fin x, Fin y => Qeq_bool x y
  | _, _ => false
  end.

(** [Math.min(a, b)] *)
Definition min (a b : num) : num :=
  match a, b with
  | NaN, _ | _, NaN => NaN
  | _, _ => if ltb b a then b else a
  end.

(** [Math.round(a)]: the nearest integer, halves towards plus infinity *)
Definition round (a : num) : num :=
  match a with
  | Fin x => Fin (inject_Z (Qfloor (x + (1 # 2))))
  | _ => a
  end.

(** Truthiness of a number: [0] and [NaN] are falsy. *)
Definition truthy (a : num) : bool :=
  match a with
  | NaN => false
  | Fin x => negb (Qeq_bool x 0)
  | _ => true
  end.

(** The order of the extended line, as a proposition; nothing is related to
    NaN. *)
Definition le (a b : num) : Prop :=
  match a, b with
  | NaN, _ | _, NaN => False
  | NegInf, _ => True
  | _, PosInf => True
  | Fin x, Fin y => (x <= y)%Q
  | _, _ => False
  end.

Definition lt (a b : num) : Prop := ltb a b = true.

End JsNum.

Import JsNum.

Declare Scope num_scope.
Delimit Scope num_scope with num.
Infix "<=" := JsNum.le : num_scope.
Infix "<" := JsNum.lt : num_scope.
Notation "x < y <= z" := (JsNum.lt x y /\ JsNum.le y z) : num_scope.
Notation "x <= y <= z" := (JsNum.le x y /\ JsNum.le y z) : num_scope.

(** ** Binary64 arithmetic

    A finite binary64 number is [m * 2 ^ e] with [|m| < 2 ^ 53] and
    [-1074 <= e <= 971].  An operation yields the number of this form that
    is nearest to the exact result, a tie going to the even [m], and an
    infinity from [2 ^ 1024] on. *)

Module Binary64.

#[local] Open Scope Q_scope.

Definition pow2 (z : Z) : Q := (2 # 1) ^ z.

(** The nearest integer, a half going to the even neighbour. *)
Definition roundHalfEven (x : Q) : Z :=
  let f := Qfloor x in
  match Qcompare (x - inject_Z f) (1 # 2) with
  | Lt => f
  | Gt => (f + 1)%Z
  | Eq => if Z.even f then f else (f + 1)%Z
  end.

(** The exponent of the last place of a positive [q]: the least [e] from
    [-1074] on, up to [971], with [q < 2 ^ (e + 53)]; none when [q] is
    [2 ^ 1024] or more. *)
Fixpoint exponentFrom (fuel : nat) (e : Z) (q : Q) : option Z :=
  match fuel with
  | O => None
  | S fuel' =>
      if Qle_bool (pow2 (e + 53)) q then exponentFrom fuel' (e + 1)%Z q else Some e
  end.

Definition exponent (q : Q) : option Z := exponentFrom 2046 (-1074) q.

(** A positive [q], rounded in units of its last place. *)
Definition roundPositive (q : Q) : num :=
  match exponent q with
  | None => PosInf
  | Some e =>
      let v := inject_Z (roundHalfEven (q / pow2 e)) * pow2 e in
      if Qle_bool (pow2 1024) v then PosInf else Fin (Qred v)
  end.

(** The binary64 number nearest to [q], ties to even, overflowing to an
    infinity. *)
Definition round64 (q : Q) : num :=
  match Qcompare q 0 with
  | Eq => Fin 0
  | Gt => roundPositive q
  | Lt => neg (roundPositive (- q))
  end.

(** An exact result, as the machine delivers it. *)
Definition rounded (a : num) : num :=
  match a with
  | Fin q => round64 q
  | _ => a
  end.

(** [a + b], [a * b] and [a / b] as the machine computes them *)
Definition add (a b : num) : num := rounded (JsNum.add a b).
Definition mul (a b : num) : num := rounded (JsNum.mul a b).
Definition div (a b : num) : num := rounded (JsNum.div a b).

End Binary64.

Open Scope string_scope.

(** ** JavaScript strings *)

Module JsString.

(** The ASCII members of the class [\s], which are also what [trim] removes. *)
Definition isWhitespace (c : ascii) : bool :=
  let n := nat_of_ascii c in
  ((9 <=? n)%nat && (n <=? 13)%nat) || (n =? 32)%nat.

Definition lowerChar (c : ascii) : ascii :=
  let n := nat_of_ascii c in
  if (65 <=? n)%nat && (n <=? 90)%nat then ascii_of_nat (n + 32) else c.

(** [s.toLowerCase()] *)
Fixpoint toLowerCase (s : string) : string :=
  match s with
  | EmptyString => EmptyString
  | String c r => String (lowerChar c) (toLowerCase r)
  end.

(** [s.startsWith(p)] *)
Fixpoint startsWith (s p : string) : bool :=
  match p, s with
  | EmptyString, _ => true
  | String _ _, EmptyString => false
  | String a p', String b s' => Ascii.eqb a b && startsWith s' p'
  end.

(** [s.includes(sub)] *)
Fixpoint includes (s sub : string) : bool :=
  startsWith s sub ||
  match s with
  | EmptyString => false
  | String _ r => includes r sub
  end.

(** [sub] occurs in [s]. *)
Definition Substring (sub s : string) : Prop :=
  exists pre post, s = pre ++ sub ++ post.

Fixpoint split_regex_ws (gap : bool) (cur s : string) : list string :=
  match s with
  | EmptyString => [cur]
  | String c r =>
      if isWhitespace c then
        if gap then split_regex_ws true cur r
        else cur :: split_regex_ws true EmptyString r
      else split_regex_ws false (cur ++ String c EmptyString) r
  end.

(** [s.split(/\s+/)]: the pieces between the maximal runs of whitespace; a
    run at either end leaves an empty piece there. *)
Definition splitWhitespace (s : string) : list string :=
  split_regex_ws false EmptyString s.

Fixpoint split_on (sep : ascii) (cur s : string) : list string :=
  match s with
  | EmptyString => [cur]
  | String c r =>
      if Ascii.eqb c sep then cur :: split_on sep EmptyString r
      else split_on sep (cur ++ String c EmptyString) r
  end.

(** [s.split(' ')] *)
Definition splitSpace (s : string) : list string :=
  split_on " "%char EmptyString s.

Fixpoint trimStart (s : string) : string :=
  match s with
  | EmptyString => EmptyString
  | String c r => if isWhitespace c then trimStart r else s
  end.

Fixpoint trimEnd (s : string) : string :=
  match s with
  | EmptyString => EmptyString
  | String c r =>
      match trimEnd r with
      | EmptyString => if isWhitespace c then EmptyString else String c EmptyString
      | r' => String c r'
      end
  end.

(** [s.trim()] *)
Definition trim (s : string) : string := trimEnd (trimStart s).

(** Truthiness of a string: only the empty string is falsy. *)
Definition truthy (s : string) : bool :=
  match s with
  | EmptyString => false
  | _ => true
  end.

(** The tokens of a text: its maximal runs of characters that are not
    whitespace. *)
Definition tokens (s : string) : list string :=
  filter truthy (splitWhitespace s).

End JsString.

Import JsString.

(** Truthiness of an optional string ([undefined] is falsy). *)
Definition truthyOpt (o : option string) : bool :=
  match o with
  | Some s => JsString.truthy s
  | None => false
  end.

(** [a || b] on optional strings *)
Definition orElse (a b : option string) : option string :=
  if truthyOpt a then a else b.

(** ** The input analyzer ([recommendationEngine.ts]) *)

Definition genreKeywords : list (string * list string) :=
  [ ("action", ["action"; "fight"; "explosion"; "adventure"; "exciting"; "battle"]);
    ("thriller", ["thriller"; "suspense"; "tension"; "mystery"; "nail-biting"]);
    ("drama", ["drama"; "emotional"; "life"; "relationship"; "touching"; "powerful"]);
    ("sci-fi", ["sci-fi"; "science fiction"; "future"; "space"; "technology"; "dystopia"]);
    ("horror", ["horror"; "scary"; "frightening"; "terrifying"; "spooky"; "creepy"]);
    ("comedy", ["comedy"; "funny"; "hilarious"; "laugh"; "humorous"; "witty"]);
    ("romance", ["romance"; "love"; "romantic"; "relationship"; "dating"; "heart"]);
    ("fantasy", ["fantasy"; "magical"; "mythical"; "supernatural"; "enchanted"; "wizard"]);
    ("animation", ["animation"; "animated"; "cartoon"; "pixar"; "disney"; "anime"]);
    ("documentary", ["documentary"; "real"; "true story"; "historical"; "educational"]);
    ("crime", ["crime"; "detective"; "murder"; "investigation"; "police"; "heist"]);
    ("family", ["family"; "kids"; "children"; "wholesome"; "all ages"]) ].

Definition emotionKeywords : list (string * list string) :=
  [ ("suspense", ["suspense"; "tension"; "nail-biting"; "thrilling"; "edge"]);
    ("hope", ["hope"; "uplifting"; "inspiring"; "positive"; "optimistic"]);
    ("fear", ["scary"; "frightening"; "horror"; "terrifying"; "creepy"]);
    ("joy", ["happy"; "joyful"; "fun"; "upbeat"; "cheerful"; "laugh"]);
    ("sadness", ["sad"; "emotional"; "touching"; "moving"; "tearjerker"; "cry"]);
    ("anger", ["angry"; "revenge"; "vengeance"; "fury"; "rage"]);
    ("wonder", ["amazing"; "wonderful"; "magical"; "spectacular"; "mindblowing"]) ].

Definition languageKeywords : list (string * string) :=
  [ ("hindi", "hi"); ("bengali", "bn"); ("bangla", "bn"); ("telugu", "te");
    ("tollywood", "te"); ("tamil", "ta"); ("kollywood", "ta");
    ("malayalam", "ml"); ("kannada", "kn"); ("marathi", "mr");
    ("punjabi", "pa"); ("korean", "ko"); ("japanese", "ja");
    ("bollywood", "hi"); ("indian", "hi") ].

Module AnalyzedInput.
Record t : Type := {
  genres : list string;
  emotions : list string;
  intensity : Z;
  language : option string;
  wantsRecent : bool
}.
End AnalyzedInput.

Definition findKeywordMatches (text : string)
    (dictionary : list (string * list string)) : list string :=
  let words := splitWhitespace (toLowerCase text) in
  map fst
    (filter
       (fun entry =>
          existsb
            (fun keyword =>
               existsb (fun word => includes word (toLowerCase keyword)) words)
            (snd entry))
       dictionary).

Definition detectLanguage (text : string) : option string :=
  let lowerText := toLowerCase text in
  option_map snd
    (find (fun entry => includes lowerText (fst entry)) languageKeywords).

Definition recencyWords : list string :=
  ["new"; "latest"; "recent"; "2024"; "2025"; "current"; "this year"; "now playing"].

Definition detectRecency (text : string) : bool :=
  let lowerText := toLowerCase text in
  existsb (fun word => includes lowerText word) recencyWords.

Definition intensityWords_high : list string :=
  ["intense"; "brutal"; "extreme"; "violent"; "action-packed"; "gory"; "dark"].

Definition intensityWords_low : list string :=
  ["mild"; "gentle"; "calm"; "peaceful"; "slow-paced"; "cozy"; "light"].

(** [analysis.intensity = i] *)
Definition set_intensity (a : AnalyzedInput.t) (i : Z) : AnalyzedInput.t :=
  {| AnalyzedInput.genres := AnalyzedInput.genres a;
     AnalyzedInput.emotions := AnalyzedInput.emotions a;
     AnalyzedInput.intensity := i;
     AnalyzedInput.language := AnalyzedInput.language a;
     AnalyzedInput.wantsRecent := AnalyzedInput.wantsRecent a |}.

Definition analyzeUserInput (input : string) : AnalyzedInput.t :=
  let analysis :=
    {| AnalyzedInput.genres := findKeywordMatches input genreKeywords;
       AnalyzedInput.emotions := findKeywordMatches input emotionKeywords;
       AnalyzedInput.intensity := 5;
       AnalyzedInput.language := detectLanguage input;
       AnalyzedInput.wantsRecent := detectRecency input |} in
  let analysis :=
    if existsb (fun word => includes (toLowerCase input) word) intensityWords_high
    then set_intensity analysis 8 else analysis in
  let analysis :=
    if existsb (fun word => includes (toLowerCase input) word) intensityWords_low
    then set_intensity analysis 3 else analysis in
  analysis.


(** ** Data model ([types.ts], [tmdb.ts], [gemini.ts]) *)

Inductive MediaType : Type := movie | tv | anime.

(** The two catalogs of the remote service. *)
Inductive TmdbType : Type := tmdb_movie | tmdb_tv.

(** [mediaType === 'anime' ? 'tv' : mediaType] *)
Definition tmdbTypeOf (mediaType : MediaType) : TmdbType :=
  match mediaType with
  | movie => tmdb_movie
  | tv | anime => tmdb_tv
  end.

Definition ANIMATION_GENRE_ID : Z := 16.

Module TMDBMedia.
Record t : Type := {
  id : Z;
  title : option string;
  name : option string;
  overview : string;
  release_date : option string;
  first_air_date : option string;
  poster_path : option string;
  backdrop_path : option string;
  vote_average : num;
  popularity : num;
  genre_ids : list Z;
  media_type : option TmdbType;
  original_language : option string;
  number_of_seasons : option num;
  number_of_episodes : option num
}.
End TMDBMedia.

Module Genre.
Record t : Type := { id : Z; name : string }.
End Genre.

Module WatchProviderOption.
Record t : Type := { provider_name : string; logo_path : string }.
End WatchProviderOption.

Module WatchProviderRegionData.
Record t : Type := {
  flatrate : option (list WatchProviderOption.t);
  rent : option (list WatchProviderOption.t);
  buy : option (list WatchProviderOption.t);
  free : option (list WatchProviderOption.t)
}.
End WatchProviderRegionData.

Module MediaVideo.
Record t : Type := { key : string; name : string; type : string; site : string }.
End MediaVideo.

Module Review.
Record t : Type := {
  author : string;
  content : string;
  created_at : string;
  rating : option num
}.
End Review.

Inductive ProviderType : Type := flatrate | rent | buy | free.

Module StreamingProvider.
Record t : Type := { name : string; logo : string; type : ProviderType }.
End StreamingProvider.

Module MediaRecommendation.
Record t : Type := {
  id : Z;
  title : string;
  year : num;
  plot : string;
  genres : list string;
  rating : num;
  streamingPlatforms : list string;
  streamingLogos : list string;
  streamingProviders : list StreamingProvider.t;
  posterUrl : string;
  backdropUrl : string;
  intensity : Z;
  emotions : list string;
  themes : list string;
  matchPercentage : num;
  reviews : list Review.t;
  trailerKey : option string;
  mediaType : MediaType;
  aiExplanation : option string;
  numberOfSeasons : option num;
  numberOfEpisodes : option num
}.

(** [r.matchPercentage = p] *)
Definition set_matchPercentage (r : t) (p : num) : t :=
  {| id := id r; title := title r; year := year r; plot := plot r;
     genres := genres r; rating := rating r;
     streamingPlatforms := streamingPlatforms r;
     streamingLogos := streamingLogos r;
     streamingProviders := streamingProviders r;
     posterUrl := posterUrl r; backdropUrl := backdropUrl r;
     intensity := intensity r; emotions := emotions r; themes := themes r;
     matchPercentage := p;
     reviews := reviews r; trailerKey := trailerKey r;
     mediaType := mediaType r; aiExplanation := aiExplanation r;
     numberOfSeasons := numberOfSeasons r;
     numberOfEpisodes := numberOfEpisodes r |}.
End MediaRecommendation.

Module AIRecommendation.
Record t : Type := {
  title : string;
  year : option num;
  explanation : string
}.
End AIRecommendation.

Module GeminiRecommendationResult.
Record t : Type := {
  recommendations : list AIRecommendation.t;
  success : bool;
  error : option string
}.
End GeminiRecommendationResult.

Module SearchOptions.
Record t : Type := {
  mediaType : MediaType;
  genres : option (list string);
  language : option string;
  region : option string;
  hiddenGems : option bool;
  year : option num
}.
End SearchOptions.

Module RecommendationOptions.
Record t : Type := {
  mediaType : MediaType;
  hiddenGems : bool;
  region : string
}.
End RecommendationOptions.

(** The property names that every object inherits from
    [Object.prototype]. *)
Definition objectPrototypeKeys : list string :=
  [ "constructor"; "hasOwnProperty"; "isPrototypeOf"; "propertyIsEnumerable";
    "toLocaleString"; "toString"; "valueOf"; "__defineGetter__";
    "__defineSetter__"; "__lookupGetter__"; "__lookupSetter__"; "__proto__" ].

Definition isInherited (key : string) : bool :=
  existsb (String.eqb key) objectPrototypeKeys.

(** What [genreMap[key]] may be: the id stored under the key, or, for a key
    that the object does not own, the member that it inherits under that
    name. *)
Inductive GenreEntry : Type :=
| GenreId (id : Z)
| InheritedMember (key : string).

(** The query string of the catalog's discover endpoint.  [with_genres]
    holds the entries that the source joins with commas. *)
Module DiscoverParams.
Record t : Type := {
  api_key : option string;
  sort_by : string;
  vote_count_gte : Z;
  page : Z;
  include_adult : bool;
  with_genres : option (list GenreEntry);
  with_original_language : option string;
  region : option string;
  primary_release_year : option num;
  first_air_date_year : option num
}.
End DiscoverParams.

(** ** Remote services, events and the state of the modules *)

(** The arguments from which [getAIRecommendations] builds its prompt. *)
Module Prompt.
Record t : Type := {
  userPrompt : string;
  mediaType : MediaType;
  hiddenGems : bool;
  freshContext : option (list string)
}.
End Prompt.

Inductive Request : Type :=
| GenreList (ty : TmdbType)
| Discover (ty : TmdbType) (params : DiscoverParams.t)
| SearchText (ty : TmdbType) (query : string)
| SearchTitle (ty : TmdbType) (title : string) (year : option num)
| TVDetails (tvId : Z)
| WatchProviders (ty : TmdbType) (mediaId : Z)
| Reviews (ty : TmdbType) (mediaId : Z)
| Videos (ty : TmdbType) (mediaId : Z)
| RecentList (ty : TmdbType)
| GenerateContent (apiKey : string) (prompt : Prompt.t).

(** What a remote call answers, once decoded.  [Candidates] is the array
    that [JSON.parse] yields from the text of the generative service, each
    element an object of the declared type [AIRecommendation]; [Providers]
    gives the own properties of [results]. *)
Inductive Payload : Type :=
| Genres (genres : list Genre.t)
| Results (results : list TMDBMedia.t)
| Series (number_of_seasons number_of_episodes : option num)
| Providers (results : string -> option WatchProviderRegionData.t)
| ReviewList (results : list Review.t)
| VideoList (results : list MediaVideo.t)
| Candidates (parsed : list AIRecommendation.t).

Inductive Result (A : Type) : Type :=
| Ok (value : A)
| Throw (message : string).

Arguments Ok {A} value.
Arguments Throw {A} message.

Inductive Fn : Type :=
| fn_getAIRecommendations
| fn_getRecentReleases
| fn_searchByTitle
| fn_searchMedia.

Inductive Event : Type :=
| Called (f : Fn)
| Requested (r : Request)
| Alerted (message : string).

Record World : Type := {
  VITE_TMDB_API_KEY : option string;
  VITE_GEMINI_API_KEY : option string;
  (** the answer to a request issued when [now] events had been logged *)
  respond : forall (now : nat), Request -> Result Payload;
  (** [new Date(s).getFullYear()] *)
  fullYear : string -> num
}.

(** The own properties of a genre table. *)
Definition GenreMap : Type := list (string * Z).

(** The id that the table owns under a key. *)
Fixpoint lookup (m : GenreMap) (k : string) : option Z :=
  match m with
  | [] => None
  | (k', v) :: m' => if String.eqb k' k then Some v else lookup m' k
  end.

(** [genreMap[key]]; [None] is [undefined]. *)
Definition genreMapAt (m : GenreMap) (key : string) : option GenreEntry :=
  match lookup m key with
  | Some i => Some (GenreId i)
  | None => if isInherited key then Some (InheritedMember key) else None
  end.

(** The module-level variables of [gemini.ts] and [tmdb.ts], and the log. *)
Record State : Type := {
  log : list Event;
  genAI : option string;
  movieGenreMap : option GenreMap;
  tvGenreMap : option GenreMap;
  genreIdToNameCache : list (Z * string)
}.

Definition initial : State :=
  {| log := []; genAI := None; movieGenreMap := None; tvGenreMap := None;
     genreIdToNameCache := [] |}.

Definition M (A : Type) : Type := State -> A * State.

Definition ret {A} (a : A) : M A := fun s => (a, s).

Definition bind {A B} (m : M A) (k : A -> M B) : M B :=
  fun s => let (a, s') := m s in k a s'.

Notation "x <- m ;; k" := (bind m (fun x => k))
  (at level 61, m at next level, right associativity).
Notation "m ;;; k" := (bind m (fun _ => k))
  (at level 61, right associativity).

Definition emit (e : Event) : M unit :=
  fun s =>
    (tt, {| log := log s ++ [e]; genAI := genAI s;
            movieGenreMap := movieGenreMap s; tvGenreMap := tvGenreMap s;
            genreIdToNameCache := genreIdToNameCache s |}).

(** A remote call: it is logged, and the world answers. *)
Definition request (w : World) (r : Request) : M (Result Payload) :=
  fun s => bind (emit (Requested r)) (fun _ => ret (respond w (List.length (log s)) r)) s.

(** ** The catalog gateway ([tmdb.ts]) *)

Definition store_genres (ty : TmdbType) (genreMap : GenreMap)
    (idToName : list (Z * string)) : M unit :=
  fun s =>
    (tt, {| log := log s; genAI := genAI s;
            movieGenreMap :=
              match ty with tmdb_movie => Some genreMap | tmdb_tv => movieGenreMap s end;
            tvGenreMap :=
              match ty with tmdb_tv => Some genreMap | tmdb_movie => tvGenreMap s end;
            genreIdToNameCache := idToName ++ genreIdToNameCache s |}).

Definition cachedGenreMap (ty : TmdbType) (s : State) : option GenreMap :=
  match ty with
  | tmdb_movie => movieGenreMap s
  | tmdb_tv => tvGenreMap s
  end.

(** [acc[name] = id]: the assignment to the name [__proto__] goes to the
    setter of [Object.prototype], which ignores a number. *)
Definition assignGenre (acc : GenreMap) (name : string) (id : Z) : GenreMap :=
  if String.eqb name "__proto__" then acc else (name, id) :: acc.

(** Maps are association lists read from the front: an assignment to a key
    puts the binding before the older ones. *)
Definition getGenreMaps (w : World) (mediaType : TmdbType) : M (Result GenreMap) :=
  fun s =>
    match cachedGenreMap mediaType s with
    | Some genreMap => (Ok genreMap, s)
    | None =>
        (response <- request w (GenreList mediaType) ;;
         match response with
         | Ok (Genres gs) =>
             let genreMap :=
               fold_left
                 (fun acc genre =>
                    assignGenre acc (toLowerCase (Genre.name genre)) (Genre.id genre))
                 gs [] in
             let idToName :=
               fold_left
                 (fun acc genre => (Genre.id genre, Genre.name genre) :: acc)
                 gs [] in
             store_genres mediaType genreMap idToName ;;;
             ret (Ok genreMap)
         | Ok _ => ret (Throw "TypeError")
         | Throw e => ret (Throw e)
         end) s
    end.

Definition isAnime (mediaType : MediaType) : bool :=
  match mediaType with
  | anime => true
  | _ => false
  end.

Definition includesId (ids : list Z) (i : Z) : bool := existsb (Z.eqb i) ids.

Definition sortByOf (hiddenGems : option bool) : string :=
  match hiddenGems with
  | Some true => "vote_average.desc"
  | _ => "popularity.desc"
  end.

Definition voteCountMinOf (hiddenGems : option bool) : Z :=
  match hiddenGems with
  | Some true => 50
  | _ => 100
  end.

Definition truthyNum (o : option num) : bool :=
  match o with
  | Some n => JsNum.truthy n
  | None => false
  end.

Definition discoverParamsOf (w : World) (options : SearchOptions.t)
    (genreIds : list GenreEntry) : DiscoverParams.t :=
  let mediaType := SearchOptions.mediaType options in
  let language := SearchOptions.language options in
  let region := SearchOptions.region options in
  let year := SearchOptions.year options in
  let hiddenGems := SearchOptions.hiddenGems options in
  let sortBy := sortByOf hiddenGems in
  let voteCountMin := voteCountMinOf hiddenGems in
  {| DiscoverParams.api_key := VITE_TMDB_API_KEY w;
     DiscoverParams.sort_by := sortBy;
     DiscoverParams.vote_count_gte := voteCountMin;
     DiscoverParams.page := 1;
     DiscoverParams.include_adult := false;
     DiscoverParams.with_genres :=
       match genreIds with [] => None | _ => Some genreIds end;
     DiscoverParams.with_original_language :=
       if isAnime mediaType then Some "ja"
       else if truthyOpt language then language else None;
     DiscoverParams.region := if truthyOpt region then region else None;
     DiscoverParams.primary_release_year :=
       if truthyNum year then
         match tmdbTypeOf mediaType with tmdb_movie => year | tmdb_tv => None end
       else None;
     DiscoverParams.first_air_date_year :=
       if truthyNum year then
         match tmdbTypeOf mediaType with tmdb_movie => None | tmdb_tv => year end
       else None |}.

(** The loop that combines the two result lists of [searchMedia]; [seen] is
    [mediaSet]. *)
Fixpoint combine_results (mediaType : MediaType) (seen : list Z)
    (items : list TMDBMedia.t) : list TMDBMedia.t :=
  match items with
  | [] => []
  | item :: rest =>
      if includesId seen (TMDBMedia.id item) then
        combine_results mediaType seen rest
      else if isAnime mediaType
              && negb (includesId (TMDBMedia.genre_ids item) ANIMATION_GENRE_ID)
      then combine_results mediaType seen rest
      else
        {| TMDBMedia.id := TMDBMedia.id item;
           TMDBMedia.title := TMDBMedia.title item;
           TMDBMedia.name := TMDBMedia.name item;
           TMDBMedia.overview := TMDBMedia.overview item;
           TMDBMedia.release_date := TMDBMedia.release_date item;
           TMDBMedia.first_air_date := TMDBMedia.first_air_date item;
           TMDBMedia.poster_path := TMDBMedia.poster_path item;
           TMDBMedia.backdrop_path := TMDBMedia.backdrop_path item;
           TMDBMedia.vote_average := TMDBMedia.vote_average item;
           TMDBMedia.popularity := TMDBMedia.popularity item;
           TMDBMedia.genre_ids := TMDBMedia.genre_ids item;
           TMDBMedia.media_type := Some (tmdbTypeOf mediaType);
           TMDBMedia.original_language := TMDBMedia.original_language item;
           TMDBMedia.number_of_seasons := None;
           TMDBMedia.number_of_episodes := None |}
        :: combine_results mediaType (TMDBMedia.id item :: seen) rest
  end.

(** [genreIds.includes(id)] *)
Definition includesGenre (genreIds : list GenreEntry) (id : Z) : bool :=
  existsb
    (fun entry =>
       match entry with
       | GenreId i => Z.eqb id i
       | InheritedMember _ => false
       end)
    genreIds.

Definition genreIdsOf (mediaType : MediaType) (genreMap : GenreMap)
    (genres : list string) : list GenreEntry :=
  let genreIds :=
    flat_map
      (fun genre =>
         match genreMapAt genreMap (toLowerCase genre) with
         | Some entry => [entry]
         | None => []
         end)
      genres in
  if isAnime mediaType && negb (includesGenre genreIds ANIMATION_GENRE_ID)
  then (genreIds ++ [GenreId ANIMATION_GENRE_ID])%list
  else genreIds.

Definition searchMedia (w : World) (query : string) (options : SearchOptions.t)
    : M (list TMDBMedia.t) :=
  emit (Called fn_searchMedia) ;;;
  let mediaType := SearchOptions.mediaType options in
  let genres :=
    match SearchOptions.genres options with Some g => g | None => [] end in
  let tmdbMediaType := tmdbTypeOf mediaType in
  maps <- getGenreMaps w tmdbMediaType ;;
  match maps with
  | Throw _ => ret []
  | Ok genreMap =>
      let genreIds := genreIdsOf mediaType genreMap genres in
      let discoverParams := discoverParamsOf w options genreIds in
      discoverResponse <- request w (Discover tmdbMediaType discoverParams) ;;
      searchResponse <- request w (SearchText tmdbMediaType query) ;;
      match discoverResponse, searchResponse with
      | Ok (Results discovered), Ok (Results searched) =>
          ret (combine_results mediaType [] (discovered ++ searched))
      | _, _ => ret []
      end
  end.

Definition with_media_type (ty : TmdbType) (m : TMDBMedia.t) : TMDBMedia.t :=
  {| TMDBMedia.id := TMDBMedia.id m;
     TMDBMedia.title := TMDBMedia.title m;
     TMDBMedia.name := TMDBMedia.name m;
     TMDBMedia.overview := TMDBMedia.overview m;
     TMDBMedia.release_date := TMDBMedia.release_date m;
     TMDBMedia.first_air_date := TMDBMedia.first_air_date m;
     TMDBMedia.poster_path := TMDBMedia.poster_path m;
     TMDBMedia.backdrop_path := TMDBMedia.backdrop_path m;
     TMDBMedia.vote_average := TMDBMedia.vote_average m;
     TMDBMedia.popularity := TMDBMedia.popularity m;
     TMDBMedia.genre_ids := TMDBMedia.genre_ids m;
     TMDBMedia.media_type := Some ty;
     TMDBMedia.original_language := TMDBMedia.original_language m;
     TMDBMedia.number_of_seasons := TMDBMedia.number_of_seasons m;
     TMDBMedia.number_of_episodes := TMDBMedia.number_of_episodes m |}.

Definition searchByTitle (w : World) (title : string) (year : option num)
    (mediaType : MediaType) : M (option TMDBMedia.t) :=
  emit (Called fn_searchByTitle) ;;;
  let tmdbMediaType := tmdbTypeOf mediaType in
  response <- request w (SearchTitle tmdbMediaType title year) ;;
  match response with
  | Ok (Results (result :: _)) => ret (Some (with_media_type tmdbMediaType result))
  | _ => ret None
  end.

(** [n || 0] *)
Definition orZero (o : option num) : num :=
  match o with
  | Some n => if JsNum.truthy n then n else ofZ 0
  | None => ofZ 0
  end.

Definition getTVDetails (w : World) (tvId : Z) : M (option (num * num)) :=
  response <- request w (TVDetails tvId) ;;
  match response with
  | Ok (Series seasons episodes) => ret (Some (orZero seasons, orZero episodes))
  | _ => ret None
  end.

(** The inner function of [getWatchProviders]; the accumulator is the pair
    of [providers] and [seen]. *)
Fixpoint processProviders (options : list WatchProviderOption.t)
    (type : ProviderType) (acc : list StreamingProvider.t * list string)
    : list StreamingProvider.t * list string :=
  match options with
  | [] => acc
  | provider :: rest =>
      let name := WatchProviderOption.provider_name provider in
      if existsb (String.eqb name) (snd acc) then processProviders rest type acc
      else
        processProviders rest type
          ((fst acc ++
              [ {| StreamingProvider.name := name;
                   StreamingProvider.logo :=
                     "https://image.tmdb.org/t/p/original"
                       ++ WatchProviderOption.logo_path provider;
                   StreamingProvider.type := type |} ])%list,
           name :: snd acc)
  end.

Definition processProvidersOpt (options : option (list WatchProviderOption.t))
    (type : ProviderType) (acc : list StreamingProvider.t * list string) :=
  match options with
  | Some l => processProviders l type acc
  | None => acc
  end.

(** A member that every object inherits (a function, or [Object.prototype]
    itself), read as region data: it is truthy and has none of the four
    lists. *)
Definition inheritedMember : WatchProviderRegionData.t :=
  {| WatchProviderRegionData.flatrate := None;
     WatchProviderRegionData.rent := None;
     WatchProviderRegionData.buy := None;
     WatchProviderRegionData.free := None |}.

(** [results[region] || results['US']] *)
Definition regionDataOf (results : string -> option WatchProviderRegionData.t)
    (region : string) : option WatchProviderRegionData.t :=
  match results region with
  | Some d => Some d
  | None => if isInherited region then Some inheritedMember else results "US"
  end.

Definition getWatchProviders (w : World) (mediaId : Z) (mediaType : TmdbType)
    (region : string) : M (list StreamingProvider.t) :=
  response <- request w (WatchProviders mediaType mediaId) ;;
  match response with
  | Ok (Providers results) =>
      let regionData := regionDataOf results region in
      match regionData with
      | None => ret []
      | Some d =>
          let acc := processProvidersOpt (WatchProviderRegionData.free d) free ([], []) in
          let acc := processProvidersOpt (WatchProviderRegionData.flatrate d) flatrate acc in
          let acc := processProvidersOpt (WatchProviderRegionData.rent d) rent acc in
          let acc := processProvidersOpt (WatchProviderRegionData.buy d) buy acc in
          ret (fst acc)
      end
  | _ => ret []
  end.

Definition getMediaReviews (w : World) (mediaId : Z) (mediaType : TmdbType)
    : M (list Review.t) :=
  response <- request w (Reviews mediaType mediaId) ;;
  match response with
  | Ok (ReviewList results) => ret (firstn 3 results)
  | _ => ret []
  end.

Definition getMediaVideos (w : World) (mediaId : Z) (mediaType : TmdbType)
    : M (list MediaVideo.t) :=
  response <- request w (Videos mediaType mediaId) ;;
  match response with
  | Ok (VideoList results) =>
      ret (firstn 1
             (filter
                (fun video =>
                   String.eqb (MediaVideo.site video) "YouTube"
                   && String.eqb (MediaVideo.type video) "Trailer")
                results))
  | _ => ret []
  end.

Inductive ImageSize : Type := poster | backdrop.

Definition getImageUrl (path : option string) (size : ImageSize) : string :=
  match path with
  | Some p =>
      if JsString.truthy p then
        "https://image.tmdb.org/t/p" ++ "/"
          ++ match size with poster => "w500" | backdrop => "w1280" end ++ p
      else ""
  | None => ""
  end.

(** [a || b || d] on optional strings with a default *)
Definition firstTruthy (a b : option string) (d : string) : string :=
  match orElse a b with
  | Some s => if JsString.truthy s then s else d
  | None => d
  end.

Definition getRecentReleases (w : World) (mediaType : MediaType) (limit : nat)
    : M (list string) :=
  emit (Called fn_getRecentReleases) ;;;
  let tmdbMediaType := tmdbTypeOf mediaType in
  response <- request w (RecentList tmdbMediaType) ;;
  match response with
  | Ok (Results results) =>
      ret (map
             (fun item =>
                let title :=
                  firstTruthy (TMDBMedia.title item) (TMDBMedia.name item) "Unknown" in
                let year :=
                  substring 0 4
                    (firstTruthy (TMDBMedia.release_date item)
                       (TMDBMedia.first_air_date item) "") in
                title ++ " (" ++ year ++ ")")
             (firstn limit results))
  | _ => ret []
  end.

(** ** The generative recommender ([gemini.ts]) *)

Definition missingKeyMessage : string :=
  "VITE_GEMINI_API_KEY is not set in environment variables".

Definition invalidFormatMessage : string := "Invalid response format from AI".

Definition store_genAI (client : string) : M unit :=
  fun s =>
    (tt, {| log := log s; genAI := Some client;
            movieGenreMap := movieGenreMap s; tvGenreMap := tvGenreMap s;
            genreIdToNameCache := genreIdToNameCache s |}).

(** The client is identified by the key it was made with. *)
Definition getGenAI (w : World) : M (Result string) :=
  fun s =>
    match genAI s with
    | Some client => (Ok client, s)
    | None =>
        match VITE_GEMINI_API_KEY w with
        | Some key =>
            if JsString.truthy key
            then (store_genAI key ;;; ret (Ok key)) s
            else (Throw missingKeyMessage, s)
        | None => (Throw missingKeyMessage, s)
        end
    end.

Definition aiFailure (message : string) : GeminiRecommendationResult.t :=
  {| GeminiRecommendationResult.recommendations := [];
     GeminiRecommendationResult.success := false;
     GeminiRecommendationResult.error := Some message |}.

Definition getAIRecommendations (w : World) (userPrompt : string)
    (mediaType : MediaType) (hiddenGems : bool)
    (freshContext : option (list string)) : M GeminiRecommendationResult.t :=
  emit (Called fn_getAIRecommendations) ;;;
  ai <- getGenAI w ;;
  match ai with
  | Throw e => ret (aiFailure e)
  | Ok client =>
      response <-
        request w
          (GenerateContent client
             {| Prompt.userPrompt := userPrompt;
                Prompt.mediaType := mediaType;
                Prompt.hiddenGems := hiddenGems;
                Prompt.freshContext := freshContext |}) ;;
      match response with
      | Throw e => ret (aiFailure e)
      | Ok (Candidates ((_ :: _) as parsed)) =>
          ret {| GeminiRecommendationResult.recommendations := firstn 5 parsed;
                 GeminiRecommendationResult.success := true;
                 GeminiRecommendationResult.error := None |}
      | Ok _ => ret (aiFailure invalidFormatMessage)
      end
  end.

(** ** The recommendation engine ([recommendationEngine.ts]) *)

Definition buildRecommendation (w : World) (media : TMDBMedia.t)
    (mediaType : MediaType) (region : string) (aiExplanation : option string)
    : M (option MediaRecommendation.t) :=
  let tmdbType := tmdbTypeOf mediaType in
  let title := firstTruthy (TMDBMedia.title media) (TMDBMedia.name media) "Unknown" in
  let releaseDate :=
    firstTruthy (TMDBMedia.release_date media) (TMDBMedia.first_air_date media) "" in
  let year := if JsString.truthy releaseDate then fullYear w releaseDate else ofZ 0 in
  providers <- getWatchProviders w (TMDBMedia.id media) tmdbType region ;;
  reviews <- getMediaReviews w (TMDBMedia.id media) tmdbType ;;
  videos <- getMediaVideos w (TMDBMedia.id media) tmdbType ;;
  tvDetails <-
    match tmdbType with
    | tmdb_tv => getTVDetails w (TMDBMedia.id media)
    | tmdb_movie => ret None
    end ;;
  ret (Some
         {| MediaRecommendation.id := TMDBMedia.id media;
            MediaRecommendation.title := title;
            MediaRecommendation.year := year;
            MediaRecommendation.plot :=
              if JsString.truthy (TMDBMedia.overview media)
              then TMDBMedia.overview media else "No description available.";
            MediaRecommendation.genres := [];
            MediaRecommendation.rating :=
              if JsNum.truthy (TMDBMedia.vote_average media)
              then TMDBMedia.vote_average media else ofZ 0;
            MediaRecommendation.streamingPlatforms :=
              map StreamingProvider.name providers;
            MediaRecommendation.streamingLogos :=
              map StreamingProvider.logo providers;
            MediaRecommendation.streamingProviders := providers;
            MediaRecommendation.posterUrl :=
              getImageUrl (TMDBMedia.poster_path media) poster;
            MediaRecommendation.backdropUrl :=
              getImageUrl (TMDBMedia.backdrop_path media) backdrop;
            MediaRecommendation.reviews := reviews;
            MediaRecommendation.trailerKey :=
              option_map MediaVideo.key (hd_error videos);
            MediaRecommendation.intensity := 5;
            MediaRecommendation.emotions := [];
            MediaRecommendation.themes := [];
            MediaRecommendation.matchPercentage :=
              if truthyOpt aiExplanation then ofZ 85 else ofZ 70;
            MediaRecommendation.mediaType := mediaType;
            MediaRecommendation.aiExplanation := aiExplanation;
            MediaRecommendation.numberOfSeasons := option_map fst tvDetails;
            MediaRecommendation.numberOfEpisodes := option_map snd tvDetails |}).

Fixpoint processAIRecommendations (w : World)
    (aiRecs : list AIRecommendation.t) (mediaType : MediaType)
    (region : string) : M (list MediaRecommendation.t) :=
  match aiRecs with
  | [] => ret []
  | rec :: rest =>
      media <-
        searchByTitle w (AIRecommendation.title rec) (AIRecommendation.year rec)
          mediaType ;;
      match media with
      | None => processAIRecommendations w rest mediaType region
      | Some media =>
          fullRec <-
            buildRecommendation w media mediaType region
              (Some (AIRecommendation.explanation rec)) ;;
          results <- processAIRecommendations w rest mediaType region ;;
          ret match fullRec with
              | Some r => r :: results
              | None => results
              end
      end
  end.

(** The score that the heuristic path gives to a catalog entry. *)
Definition heuristicScore (media : TMDBMedia.t) : num :=
  let score := ofZ 60 in
  let score :=
    Binary64.add score
      (JsNum.min (ofZ 20) (Binary64.mul (TMDBMedia.vote_average media) (ofZ 2))) in
  let score :=
    Binary64.add score
      (JsNum.min (ofZ 20) (Binary64.div (TMDBMedia.popularity media) (ofZ 100))) in
  round (JsNum.min (ofZ 100) score).

(** The loop of [getHeuristicRecommendations]. *)
Fixpoint buildHeuristic (w : World) (mediaItems : list TMDBMedia.t)
    (mediaType : MediaType) (region : string) : M (list MediaRecommendation.t) :=
  match mediaItems with
  | [] => ret []
  | media :: rest =>
      fullRec <- buildRecommendation w media mediaType region None ;;
      results <- buildHeuristic w rest mediaType region ;;
      ret match fullRec with
          | Some r =>
              MediaRecommendation.set_matchPercentage r (heuristicScore media)
                :: results
          | None => results
          end
  end.

(** The constant [searchOptions] of [getHeuristicRecommendations]. *)
Definition searchOptionsOf (analysis : AnalyzedInput.t)
    (options : RecommendationOptions.t) : SearchOptions.t :=
  {| SearchOptions.mediaType := RecommendationOptions.mediaType options;
     SearchOptions.genres := Some (AnalyzedInput.genres analysis);
     SearchOptions.language := AnalyzedInput.language analysis;
     SearchOptions.region := Some (RecommendationOptions.region options);
     SearchOptions.hiddenGems := Some (RecommendationOptions.hiddenGems options);
     SearchOptions.year := None |}.

Definition getHeuristicRecommendations (w : World) (query : string)
    (analysis : AnalyzedInput.t) (options : RecommendationOptions.t)
    : M (list MediaRecommendation.t) :=
  let mediaType := RecommendationOptions.mediaType options in
  let region := RecommendationOptions.region options in
  let searchOptions := searchOptionsOf analysis options in
  mediaItems <- searchMedia w query searchOptions ;;
  buildHeuristic w (firstn 10 mediaItems) mediaType region.

(** The comparator [(a, b) => b.matchPercentage - a.matchPercentage]. *)
Definition byMatchDescending (a b : MediaRecommendation.t) : num :=
  sub (MediaRecommendation.matchPercentage b) (MediaRecommendation.matchPercentage a).

Section Sort.
Variable A : Type.
Variable compareFn : A -> A -> num.

(** [x] goes after [y] when the comparator is positive on [(x, y)]. *)
Fixpoint insert_sorted (x : A) (l : list A) : list A :=
  match l with
  | [] => [x]
  | y :: l' =>
      if gtb (compareFn x y) (ofZ 0) then y :: insert_sorted x l'
      else x :: l
  end.

(** [l.sort(compareFn)], a stable sort: an element moves behind those that
    the comparator puts strictly before it, and never past an equal one. *)
Fixpoint sort (l : list A) : list A :=
  match l with
  | [] => []
  | x :: l' => insert_sorted x (sort l')
  end.
End Sort.

(** The records of the generative path: lines 131 to 152 of
    [getRecommendations]. *)
Definition aiDerived (w : World) (userInput : string)
    (options : RecommendationOptions.t) : M (list MediaRecommendation.t) :=
  let mediaType := RecommendationOptions.mediaType options in
  let hiddenGems := RecommendationOptions.hiddenGems options in
  let region := RecommendationOptions.region options in
  let analysis := analyzeUserInput userInput in
  freshContext <-
    (if AnalyzedInput.wantsRecent analysis
     then (titles <- getRecentReleases w mediaType 15 ;; ret (Some titles))
     else ret None) ;;
  aiResult <- getAIRecommendations w userInput mediaType hiddenGems freshContext ;;
  if GeminiRecommendationResult.success aiResult
     && (0 <? List.length (GeminiRecommendationResult.recommendations aiResult))%nat
  then
    processAIRecommendations w
      (GeminiRecommendationResult.recommendations aiResult) mediaType region
  else ret [].

Definition existingIds (recommendations : list MediaRecommendation.t) : list Z :=
  map MediaRecommendation.id recommendations.

(** The merge loop: [existingIds] is computed once, before the loop. *)
Definition mergeHeuristic (recommendations heuristicResults : list MediaRecommendation.t)
    : list MediaRecommendation.t :=
  (recommendations ++
     filter
       (fun result =>
          negb (includesId (existingIds recommendations) (MediaRecommendation.id result)))
       heuristicResults)%list.

(** The candidates before the final filter: lines 131 to 170. *)
Definition mergedCandidates (w : World) (userInput : string)
    (options : RecommendationOptions.t) : M (list MediaRecommendation.t) :=
  let analysis := analyzeUserInput userInput in
  recommendations <- aiDerived w userInput options ;;
  if (List.length recommendations <? 3)%nat then
    heuristicResults <- getHeuristicRecommendations w userInput analysis options ;;
    ret (mergeHeuristic recommendations heuristicResults)
  else ret recommendations.

Definition aboveThreshold (r : MediaRecommendation.t) : bool :=
  gtb (MediaRecommendation.matchPercentage r) (ofZ 30).

Definition rank (recommendations : list MediaRecommendation.t)
    : list MediaRecommendation.t :=
  firstn 7 (sort byMatchDescending (filter aboveThreshold recommendations)).

(** The promise of [getRecommendations] is fulfilled ([Ok]) or rejected
    ([Throw]). *)
Definition getRecommendations (w : World) (userInput : string)
    (options : RecommendationOptions.t)
    : M (Result (list MediaRecommendation.t)) :=
  recommendations <- mergedCandidates w userInput options ;;
  ret (Ok (rank recommendations)).

Definition defaultOptions : RecommendationOptions.t :=
  {| RecommendationOptions.mediaType := movie;
     RecommendationOptions.hiddenGems := false;
     RecommendationOptions.region := "IN" |}.

(** ** The submit handler ([App.tsx]) *)

Definition tooShortMessage : string :=
  "Please provide a more detailed description (at least 3 words)".

Definition fetchFailedMessage : string :=
  "Failed to fetch recommendations. Please try again.".

(** The value is what [setRecommendations] receives, if it is called. *)
Definition fetchRecommendations (w : World) (options : RecommendationOptions.t)
    (query : string) : M (option (list MediaRecommendation.t)) :=
  outcome <- getRecommendations w query options ;;
  match outcome with
  | Ok results => ret (Some results)
  | Throw _ => emit (Alerted fetchFailedMessage) ;;; ret None
  end.

Definition handleSubmit (w : World) (options : RecommendationOptions.t)
    (input : string) : M (option (list MediaRecommendation.t)) :=
  if (List.length (splitSpace (trim input)) <? 3)%nat
  then emit (Alerted tooShortMessage) ;;; ret None
  else fetchRecommendations w options input.

(** ** Vocabulary of the properties *)

(** The events that a computation adds to the log when run from [s]. *)
Definition events_of {A} (m : M A) (s : State) : list Event :=
  skipn (List.length (log s)) (log (snd (m s))).

(** [Emits P m]: running [m] only appends events, and all of them satisfy
    [P]. *)
Definition Emits {A} (P : Event -> Prop) (m : M A) : Prop :=
  forall s, exists evs, log (snd (m s)) = (log s ++ evs)%list /\ Forall P evs.

(** Events of the remote kind, and those that are not the entry of the
    free-text search. *)
Definition notSearchMedia (e : Event) : Prop := e <> Called fn_searchMedia.

Definition isSearchMediaCall (e : Event) : bool :=
  match e with
  | Called fn_searchMedia => true
  | _ => false
  end.

(** How many times the log records an entry into [searchMedia]. *)
Definition searchMediaCalls (l : list Event) : nat :=
  List.length (filter isSearchMediaCall l).

(** One of [words] occurs in the lower-cased [input]. *)
Definition occursIn (words : list string) (input : string) : Prop :=
  exists word, In word words /\ Substring word (toLowerCase input).

Definition offlineWorld : World :=
  {| VITE_TMDB_API_KEY := Some "tmdb-key";
     VITE_GEMINI_API_KEY := Some "gemini-key";
     respond := fun _ _ => Throw "Network Error";
     fullYear := fun _ => NaN |}.

Definition alien : TMDBMedia.t :=
  {| TMDBMedia.id := 348;
     TMDBMedia.title := Some "Alien";
     TMDBMedia.name := None;
     TMDBMedia.overview := "The crew of a commercial spacecraft meets a deadly lifeform.";
     TMDBMedia.release_date := Some "1979-05-25";
     TMDBMedia.first_air_date := None;
     TMDBMedia.poster_path := Some "/alien.jpg";
     TMDBMedia.backdrop_path := None;
     TMDBMedia.vote_average := Fin (15 # 2);
     TMDBMedia.popularity := Fin (250 # 1);
     TMDBMedia.genre_ids := [27%Z; 878%Z];
     TMDBMedia.media_type := None;
     TMDBMedia.original_language := Some "en";
     TMDBMedia.number_of_seasons := None;
     TMDBMedia.number_of_episodes := None |}.

(** A catalog entry with a rating and a popularity that the catalog writes
    as decimal numerals: [JSON.parse] reads a numeral as the nearest
    binary64 number. *)
Definition rated (vote_average popularity : Q) : TMDBMedia.t :=
  {| TMDBMedia.id := TMDBMedia.id alien;
     TMDBMedia.title := TMDBMedia.title alien;
     TMDBMedia.name := TMDBMedia.name alien;
     TMDBMedia.overview := TMDBMedia.overview alien;
     TMDBMedia.release_date := TMDBMedia.release_date alien;
     TMDBMedia.first_air_date := TMDBMedia.first_air_date alien;
     TMDBMedia.poster_path := TMDBMedia.poster_path alien;
     TMDBMedia.backdrop_path := TMDBMedia.backdrop_path alien;
     TMDBMedia.vote_average := Binary64.round64 vote_average;
     TMDBMedia.popularity := Binary64.round64 popularity;
     TMDBMedia.genre_ids := TMDBMedia.genre_ids alien;
     TMDBMedia.media_type := TMDBMedia.media_type alien;
     TMDBMedia.original_language := TMDBMedia.original_language alien;
     TMDBMedia.number_of_seasons := TMDBMedia.number_of_seasons alien;
     TMDBMedia.number_of_episodes := TMDBMedia.number_of_episodes alien |}.

(** The score formula evaluated without any rounding error. *)
Definition exactScore (media : TMDBMedia.t) : num :=
  round
    (JsNum.min (ofZ 100)
       (add
          (add (ofZ 60)
             (JsNum.min (ofZ 20) (mul (TMDBMedia.vote_average media) (ofZ 2))))
          (JsNum.min (ofZ 20) (div (TMDBMedia.popularity media) (ofZ 100))))).

(** The gateway results that [getHeuristicRecommendations] receives. *)
Definition heuristicItems (w : World) (query : string)
    (analysis : AnalyzedInput.t) (options : RecommendationOptions.t)
    (s : State) : list TMDBMedia.t :=
  fst (searchMedia w query (searchOptionsOf analysis options) s).

(** A record was built from a catalog entry with a given score. *)
Definition builtFrom (score : TMDBMedia.t -> num)
    (media : TMDBMedia.t) (r : MediaRecommendation.t) : Prop :=
  MediaRecommendation.id r = TMDBMedia.id media /\
  MediaRecommendation.matchPercentage r = score media /\
  MediaRecommendation.aiExplanation r = None.

(** A catalog that knows two titles; the generative service is unreachable. *)
Definition aliens : TMDBMedia.t :=
  {| TMDBMedia.id := 679;
     TMDBMedia.title := Some "Aliens";
     TMDBMedia.name := None;
     TMDBMedia.overview := "";
     TMDBMedia.release_date := Some "1986-07-18";
     TMDBMedia.first_air_date := None;
     TMDBMedia.poster_path := None;
     TMDBMedia.backdrop_path := None;
     TMDBMedia.vote_average := Fin (79 # 10);
     TMDBMedia.popularity := Fin (4000 # 1);
     TMDBMedia.genre_ids := [28%Z; 878%Z];
     TMDBMedia.media_type := None;
     TMDBMedia.original_language := Some "en";
     TMDBMedia.number_of_seasons := None;
     TMDBMedia.number_of_episodes := None |}.

Definition catalogAnswers (r : Request) : Result Payload :=
  match r with
  | GenreList _ =>
      Ok (Genres [ {| Genre.id := 27; Genre.name := "Horror" |};
                   {| Genre.id := 878; Genre.name := "Science Fiction" |} ])
  | Discover _ _ => Ok (Results [alien])
  | SearchText _ _ => Ok (Results [alien; aliens])
  | _ => Throw "Network Error"
  end.

Definition catalogWorld : World :=
  {| VITE_TMDB_API_KEY := Some "tmdb-key";
     VITE_GEMINI_API_KEY := Some "gemini-key";
     respond := fun _ r => catalogAnswers r;
     fullYear := fun _ => NaN |}.

(** A score is never above 100: it is NaN, minus infinity, or a finite
    number that is at most 100. *)
Definition atMost100 (p : num) : Prop :=
  p = NaN \/ p = NegInf \/ exists q, p = Fin q /\ (q <= 100)%Q.

(** The discover queries among some events. *)
Definition discoverRequests (evs : list Event) : list (TmdbType * DiscoverParams.t) :=
  flat_map
    (fun e =>
       match e with
       | Requested (Discover ty params) => [(ty, params)]
       | _ => []
       end)
    evs.

(** The hidden-gems flag of a search is set. *)
Definition flagSet (options : SearchOptions.t) : bool :=
  match SearchOptions.hiddenGems options with
  | Some b => b
  | None => false
  end.

(** The records of the heuristic path for a sample query. *)
Definition heuristicSample : list MediaRecommendation.t :=
  fst (getHeuristicRecommendations catalogWorld "scary space movie"
         (analyzeUserInput "scary space movie") defaultOptions initial).

(** An event that, if it is a discover query, has the sort key and the
    vote-count floor that go with the flag. *)
Definition discoverAsFlagged (flag : bool) (e : Event) : Prop :=
  forall ty params,
    e = Requested (Discover ty params) ->
    DiscoverParams.sort_by params
      = (if flag then "vote_average.desc" else "popularity.desc") /\
    DiscoverParams.vote_count_gte params = (if flag then 50%Z else 100%Z).

(** No condition on an event. *)
Definition anyEvent (e : Event) : Prop := True.

(** Two records tie when their match percentages are equal numbers. *)
Definition tiedAt (k : num) (r : MediaRecommendation.t) : bool :=
  JsNum.eqb (MediaRecommendation.matchPercentage r) k.

(** [a] may stand before [b] in a list sorted by descending match
    percentage. *)
Definition descending (a b : MediaRecommendation.t) : Prop :=
  (MediaRecommendation.matchPercentage b <= MediaRecommendation.matchPercentage a)%num.

Definition finiteScore (r : MediaRecommendation.t) : Prop :=
  exists q, MediaRecommendation.matchPercentage r = Fin q.

Definition scoreAtMost100 (r : MediaRecommendation.t) : Prop :=
  atMost100 (MediaRecommendation.matchPercentage r).

(** The generative service proposes three titles, two of which the catalog
    resolves to the same entry. *)
Definition candidate (title explanation : string) : AIRecommendation.t :=
  {| AIRecommendation.title := title;
     AIRecommendation.year := None;
     AIRecommendation.explanation := explanation |}.

Definition twinAnswers (r : Request) : Result Payload :=
  match r with
  | GenerateContent _ _ =>
      Ok (Candidates
            [ candidate "Alien" "A crew is hunted in deep space.";
              candidate "Alien: The Director's Cut" "The same dread, recut.";
              candidate "Aliens" "The sequel turns to action." ])
  | SearchTitle _ title _ =>
      if String.eqb title "Aliens" then Ok (Results [aliens]) else Ok (Results [alien])
  | _ => Throw "Network Error"
  end.

Definition twinWorld : World :=
  {| VITE_TMDB_API_KEY := Some "tmdb-key";
     VITE_GEMINI_API_KEY := Some "gemini-key";
     respond := fun _ r => twinAnswers r;
     fullYear := fun _ => NaN |}.

(** The catalog ids of a list of records. *)
Definition idsOf (l : list MediaRecommendation.t) : list Z :=
  map MediaRecommendation.id l.

(** The credential of the generative service is missing or empty. *)
Definition keyAbsent (w : World) : Prop :=
  truthyOpt (VITE_GEMINI_API_KEY w) = false.

(** The reading of C4 as it is stated: without the credential, and before
    any client was made, [getRecommendations] rejects. *)
Definition missing_key_raises_as_stated : Prop :=
  forall w userInput options s,
    genAI s = None -> keyAbsent w ->
    exists message, fst (getRecommendations w userInput options s) = Throw message.

Definition keylessWorld : World :=
  {| VITE_TMDB_API_KEY := Some "tmdb-key";
     VITE_GEMINI_API_KEY := None;
     respond := fun _ r => catalogAnswers r;
     fullYear := fun _ => NaN |}.

(** The text is written with single spaces: each of its whitespace
    characters is a space that stands between two characters that are not
    whitespace.  [solid] tells whether the character before is one of
    these. *)
Fixpoint spacedFrom (solid : bool) (s : string) : bool :=
  match s with
  | EmptyString => solid
  | String c r =>
      if isWhitespace c
      then Ascii.eqb c " "%char && solid && spacedFrom false r
      else spacedFrom true r
  end.

Definition singleSpaced (s : string) : bool :=
  match s with
  | EmptyString => true
  | _ => spacedFrom false s
  end.

(** The reading of C5 as it is stated: a text of fewer than 3 tokens makes
    [getRecommendations] reject, with nothing called. *)
Definition short_input_rejected_as_stated : Prop :=
  forall w userInput options s,
    (List.length (tokens userInput) < 3)%nat ->
    exists message,
      fst (getRecommendations w userInput options s) = Throw message /\
      events_of (getRecommendations w userInput options) s = [].

(** ** Further vocabulary: texts *)

(** The text has a whitespace character. *)
Fixpoint hasWhitespace (s : string) : bool :=
  match s with
  | EmptyString => false
  | String c r => isWhitespace c || hasWhitespace r
  end.

(** The text has whitespace characters only (it may be empty). *)
Fixpoint onlyWhitespace (s : string) : bool :=
  match s with
  | EmptyString => true
  | String c r => isWhitespace c && onlyWhitespace r
  end.

(** The text begins with a character that is not whitespace. *)
Definition startsSolid (s : string) : bool :=
  match s with
  | EmptyString => false
  | String c _ => negb (isWhitespace c)
  end.

(** How many space characters the text has. *)
Fixpoint countSpaces (s : string) : nat :=
  match s with
  | EmptyString => 0
  | String c r => (if Ascii.eqb c " "%char then 1 else 0) + countSpaces r
  end.

(** What the analyzer yields when nothing matches. *)
Definition blankAnalysis : AnalyzedInput.t :=
  {| AnalyzedInput.genres := [];
     AnalyzedInput.emotions := [];
     AnalyzedInput.intensity := 5;
     AnalyzedInput.language := None;
     AnalyzedInput.wantsRecent := false |}.

(** Every keyword of the dictionary begins, once lower-cased, with a
    character that is not whitespace. *)
Definition solidDictionary (dictionary : list (string * list string)) : bool :=
  forallb (fun entry => forallb (fun k => startsSolid (toLowerCase k)) (snd entry))
    dictionary.

(** ** Further vocabulary: the gateway *)

Definition optionNames (options : option (list WatchProviderOption.t)) : list string :=
  match options with
  | Some l => map WatchProviderOption.provider_name l
  | None => []
  end.

(** The provider names that the region data offers with an access type. *)
Definition offeredAs (d : WatchProviderRegionData.t) (type : ProviderType)
    : list string :=
  match type with
  | free => optionNames (WatchProviderRegionData.free d)
  | flatrate => optionNames (WatchProviderRegionData.flatrate d)
  | rent => optionNames (WatchProviderRegionData.rent d)
  | buy => optionNames (WatchProviderRegionData.buy d)
  end.

(** The access types that come before a type in the order of priority. *)
Definition typesBefore (type : ProviderType) : list ProviderType :=
  match type with
  | free => []
  | flatrate => [free]
  | rent => [free; flatrate]
  | buy => [free; flatrate; rent]
  end.

(** The genre of the list that the assignments
    [acc[name.toLowerCase()] = id] leave under the key: the last one whose
    lower-cased name is the key; nothing is left under [__proto__]. *)
Definition lastGenreNamed (gs : list Genre.t) (key : string) : option Genre.t :=
  if String.eqb key "__proto__" then None
  else find (fun g => String.eqb (toLowerCase (Genre.name g)) key) (rev gs).

(** A catalog whose providers are known for one title, in the region US
    only. *)
Definition usProviders : WatchProviderRegionData.t :=
  {| WatchProviderRegionData.flatrate :=
       Some [ {| WatchProviderOption.provider_name := "Netflix";
                 WatchProviderOption.logo_path := "/n.png" |};
              {| WatchProviderOption.provider_name := "Hotstar";
                 WatchProviderOption.logo_path := "/h.png" |} ];
     WatchProviderRegionData.rent :=
       Some [ {| WatchProviderOption.provider_name := "Netflix";
                 WatchProviderOption.logo_path := "/n.png" |} ];
     WatchProviderRegionData.buy := None;
     WatchProviderRegionData.free :=
       Some [ {| WatchProviderOption.provider_name := "Hotstar";
                 WatchProviderOption.logo_path := "/h.png" |} ] |}.

Definition providerTable (region : string) : option WatchProviderRegionData.t :=
  if String.eqb region "US" then Some usProviders else None.

Definition providerAnswers (r : Request) : Result Payload :=
  match r with
  | WatchProviders _ _ => Ok (Providers providerTable)
  | GenreList _ =>
      Ok (Genres [ {| Genre.id := 27; Genre.name := "Horror" |};
                   {| Genre.id := 16; Genre.name := "Animation" |};
                   {| Genre.id := 99; Genre.name := "HORROR" |} ])
  | SearchText _ _ => Ok (Results [alien; aliens])
  | Videos _ _ =>
      Ok (VideoList
            [ {| MediaVideo.key := "t0"; MediaVideo.name := "Teaser";
                 MediaVideo.type := "Teaser"; MediaVideo.site := "YouTube" |};
              {| MediaVideo.key := "v1"; MediaVideo.name := "Trailer";
                 MediaVideo.type := "Trailer"; MediaVideo.site := "Vimeo" |};
              {| MediaVideo.key := "y2"; MediaVideo.name := "Official Trailer";
                 MediaVideo.type := "Trailer"; MediaVideo.site := "YouTube" |};
              {| MediaVideo.key := "y3"; MediaVideo.name := "Trailer 2";
                 MediaVideo.type := "Trailer"; MediaVideo.site := "YouTube" |} ])
  | _ => Throw "Network Error"
  end.

Definition providerWorld : World :=
  {| VITE_TMDB_API_KEY := Some "tmdb-key";
     VITE_GEMINI_API_KEY := Some "gemini-key";
     respond := fun _ r => providerAnswers r;
     fullYear := fun _ => NaN |}.

(** An event that, if it is a discover query, is the one of an anime
    search. *)
Definition discoverForAnime (e : Event) : Prop :=
  forall ty params,
    e = Requested (Discover ty params) ->
    ty = tmdb_tv /\
    DiscoverParams.with_original_language params = Some "ja" /\
    exists ids,
      DiscoverParams.with_genres params = Some ids /\
      In (GenreId ANIMATION_GENRE_ID) ids.

Definition animeOptions : SearchOptions.t :=
  {| SearchOptions.mediaType := anime;
     SearchOptions.genres := Some ["horror"];
     SearchOptions.language := Some "ko";
     SearchOptions.region := None;
     SearchOptions.hiddenGems := None;
     SearchOptions.year := None |}.

(** The invariant of the four passes of [getWatchProviders]: [types] are
    the access types already processed. *)
Definition providersSettled (d : WatchProviderRegionData.t)
    (types : list ProviderType)
    (acc : list StreamingProvider.t * list string) : Prop :=
  (forall n, In n (snd acc) <-> In n (map StreamingProvider.name (fst acc))) /\
  NoDup (map StreamingProvider.name (fst acc)) /\
  (forall p, In p (fst acc) ->
     In (StreamingProvider.type p) types /\
     In (StreamingProvider.name p) (offeredAs d (StreamingProvider.type p)) /\
     forall t, In t (typesBefore (StreamingProvider.type p)) ->
               ~ In (StreamingProvider.name p) (offeredAs d t)) /\
  (forall t n, In t types -> In n (offeredAs d t) ->
               In n (map StreamingProvider.name (fst acc))).

(** ** Further vocabulary: the generative path and the engine *)

(** A client exists already, or the credential allows to make one. *)
Definition clientAvailable (w : World) (s : State) : bool :=
  match genAI s with
  | Some _ => true
  | None => truthyOpt (VITE_GEMINI_API_KEY w)
  end.

Definition Fn_eqb (f g : Fn) : bool :=
  match f, g with
  | fn_getAIRecommendations, fn_getAIRecommendations
  | fn_getRecentReleases, fn_getRecentReleases
  | fn_searchByTitle, fn_searchByTitle
  | fn_searchMedia, fn_searchMedia => true
  | _, _ => false
  end.

Definition isCallOf (f : Fn) (e : Event) : bool :=
  match e with
  | Called g => Fn_eqb f g
  | _ => false
  end.

(** How many times the events record an entry into [f]. *)
Definition callsOf (f : Fn) (evs : list Event) : nat :=
  List.length (filter (isCallOf f) evs).

(** The event is not a request to the generative service. *)
Definition notGenerate (e : Event) : Prop :=
  forall key prompt, e <> Requested (GenerateContent key prompt).

(** The prompts sent to the generative service among some events. *)
Definition promptsOf (evs : list Event) : list Prompt.t :=
  flat_map
    (fun e =>
       match e with
       | Requested (GenerateContent _ prompt) => [prompt]
       | _ => []
       end)
    evs.

(** The generative service proposes one title, which the catalog also
    returns for the free-text search. *)
Definition mixedAnswers (r : Request) : Result Payload :=
  match r with
  | GenerateContent _ _ =>
      Ok (Candidates [ candidate "Alien" "A crew is hunted in deep space." ])
  | SearchTitle _ _ _ => Ok (Results [alien])
  | GenreList _ => Ok (Genres [])
  | Discover _ _ => Ok (Results [alien])
  | SearchText _ _ => Ok (Results [alien; aliens])
  | RecentList _ => Ok (Results [aliens; alien])
  | _ => Throw "Network Error"
  end.

Definition mixedWorld : World :=
  {| VITE_TMDB_API_KEY := Some "tmdb-key";
     VITE_GEMINI_API_KEY := Some "gemini-key";
     respond := fun _ r => mixedAnswers r;
     fullYear := fun _ => NaN |}.

Definition isGenerate (r : Request) : bool :=
  match r with
  | GenerateContent _ _ => true
  | _ => false
  end.

(** The event is not an entry into [f]. *)
Definition notCallOf (f : Fn) (e : Event) : Prop := e <> Called f.

(** The recent titles that [getRecommendations] passes to the generative
    service. *)
Definition freshContextOf (w : World) (userInput : string)
    (options : RecommendationOptions.t) (s : State) : option (list string) :=
  if AnalyzedInput.wantsRecent (analyzeUserInput userInput)
  then Some (fst (getRecentReleases w (RecommendationOptions.mediaType options) 15 s))
  else None.

(** The generative service never answers with a list of candidates that
    is not empty: it fails, or its answer does not decode to such a
    list. *)
Definition generativeFails (w : World) : Prop :=
  forall now key prompt,
    match respond w now (GenerateContent key prompt) with
    | Ok (Candidates (_ :: _)) => False
    | _ => True
    end.

(** No remote call succeeds. *)
Definition offline (w : World) : Prop :=
  forall now r, exists e, respond w now r = Throw e.

(** The AI-derived record of a sample call, and the list returned. *)
Definition mixedRecords : list MediaRecommendation.t :=
  fst (aiDerived mixedWorld "scary space movie" defaultOptions initial).

Definition mixedResult : list MediaRecommendation.t :=
  match fst (getRecommendations mixedWorld "scary space movie" defaultOptions initial) with
  | Ok l => l
  | Throw _ => []
  end.

(** The candidates of a sample call that falls back to the heuristics. *)
Definition sampleCandidates : list MediaRecommendation.t :=
  fst (mergedCandidates catalogWorld "scary space movie" defaultOptions initial).

(** ** Further code: the legacy exports and the handlers of [App.tsx] *)

(** [searchMovies] of [tmdb.ts] *)
Definition searchMovies (w : World) (query : string) (genres : list string)
    : M (list TMDBMedia.t) :=
  searchMedia w query
    {| SearchOptions.mediaType := movie;
       SearchOptions.genres := Some genres;
       SearchOptions.language := None;
       SearchOptions.region := None;
       SearchOptions.hiddenGems := None;
       SearchOptions.year := None |}.

(** [getMovieReviews] of [tmdb.ts] *)
Definition getMovieReviews (w : World) (movieId : Z) : M (list Review.t) :=
  getMediaReviews w movieId tmdb_movie.

(** [getMovieVideos] of [tmdb.ts] *)
Definition getMovieVideos (w : World) (movieId : Z) : M (list MediaVideo.t) :=
  getMediaVideos w movieId tmdb_movie.

(** [getMovieRecommendations] of [recommendationEngine.ts] *)
Definition getMovieRecommendations (w : World) (input : string)
    : M (Result (list MediaRecommendation.t)) :=
  getRecommendations w input defaultOptions.

(** [handleMoodClick] of [App.tsx]: no check of the prompt. *)
Definition handleMoodClick (w : World) (options : RecommendationOptions.t)
    (prompt : string) : M (option (list MediaRecommendation.t)) :=
  fetchRecommendations w options prompt.

(** [toggleCard] of [App.tsx].  The set of expanded cards is the list of
    its members in the order of insertion, without repetition; the value is
    what [setExpandedCards] receives. *)
Definition toggleCard (expandedCards : list Z) (id : Z) : list Z :=
  let newExpanded := expandedCards in
  if includesId newExpanded id
  then filter (fun member => negb (Z.eqb member id)) newExpanded
  else (newExpanded ++ [id])%list.

(** [getProviderTypeLabel] of [App.tsx] *)
Definition getProviderTypeLabel (type : ProviderType) : string :=
  match type with
  | free => "Free"
  | flatrate => "Stream"
  | rent => "Rent"
  | buy => "Buy"
  end.

(** A computation keeps a property of the state. *)
Definition Keeps {A} (I : State -> Prop) (m : M A) : Prop :=
  forall s, I s -> I (snd (m s)).

(** The video is a trailer hosted on YouTube. *)
Definition isYouTubeTrailer (video : MediaVideo.t) : bool :=
  String.eqb (MediaVideo.site video) "YouTube"
  && String.eqb (MediaVideo.type video) "Trailer".

(** * Properties *)

Unset Implicit Arguments.

(** ** Computations and their events *)

Lemma run_bind {A B} (m : M A) (k : A -> M B) (s : State) :
  bind m k s = k (fst (m s)) (snd (m s)).
Proof. unfold bind. destruct (m s); reflexivity. Qed.

Lemma run_ret {A} (a : A) (s : State) : ret a s = (a, s).
Proof. reflexivity. Qed.

Lemma skipn_exact {A} (l evs : list A) : skipn (List.length l) (l ++ evs) = evs.
Proof. induction l; simpl; auto. Qed.

Lemma events_of_eq {A} (m : M A) (s : State) (evs : list Event) :
  log (snd (m s)) = (log s ++ evs)%list -> events_of m s = evs.
Proof. unfold events_of. intros ->. apply skipn_exact. Qed.

Lemma Emits_events {A} (P : Event -> Prop) (m : M A) :
  Emits P m ->
  forall s, log (snd (m s)) = (log s ++ events_of m s)%list /\ Forall P (events_of m s).
Proof.
  intros H s. destruct (H s) as (evs & E & F).
  rewrite (events_of_eq m s evs E). auto.
Qed.

Lemma Emits_ret {A} (P : Event -> Prop) (a : A) : Emits P (ret a).
Proof. intros s. exists []. simpl. rewrite app_nil_r. auto. Qed.

Lemma Emits_bind {A B} (P : Event -> Prop) (m : M A) (k : A -> M B) :
  Emits P m -> (forall a, Emits P (k a)) -> Emits P (bind m k).
Proof.
  intros Hm Hk s. rewrite run_bind.
  destruct (Hm s) as (e1 & E1 & F1).
  destruct (Hk (fst (m s)) (snd (m s))) as (e2 & E2 & F2).
  exists (e1 ++ e2)%list. split.
  - rewrite E2, E1, app_assoc. reflexivity.
  - apply Forall_app; auto.
Qed.

Lemma Emits_emit (P : Event -> Prop) (e : Event) : P e -> Emits P (emit e).
Proof. intros H s. exists [e]. simpl. auto. Qed.

Lemma Emits_request (P : Event -> Prop) (w : World) (r : Request) :
  P (Requested r) -> Emits P (request w r).
Proof. intros H s. exists [Requested r]. simpl. auto. Qed.

Lemma Emits_state {A} (P : Event -> Prop) (m : M A) :
  (forall s, exists m', m s = m' s /\ Emits P m') -> Emits P m.
Proof.
  intros H s. destruct (H s) as (m' & E & H'). rewrite E. apply H'.
Qed.

Lemma Emits_store_genres (P : Event -> Prop) ty gm names :
  Emits P (store_genres ty gm names).
Proof. intros s. exists []. simpl. rewrite app_nil_r. auto. Qed.

Lemma Emits_store_genAI (P : Event -> Prop) client : Emits P (store_genAI client).
Proof. intros s. exists []. simpl. rewrite app_nil_r. auto. Qed.

Create HintDb emits.

#[export] Hint Resolve Emits_ret Emits_emit Emits_request Emits_store_genres
  Emits_store_genAI : emits.

Ltac emits_step :=
  match goal with
  | |- Emits _ (bind _ _) => apply Emits_bind; [ | intros ? ]
  | |- Emits _ (ret _) => apply Emits_ret
  | |- Emits _ (emit _) => apply Emits_emit
  | |- Emits _ (request _ _) => apply Emits_request
  | |- Emits _ (match ?x with _ => _ end) => destruct x
  | |- Emits _ (if ?x then _ else _) => destruct x
  end.

Ltac emits := repeat emits_step; auto with emits.

Section Frames.
Variable P : Event -> Prop.
Hypothesis P_requests : forall r, P (Requested r).

Lemma Emits_getGenreMaps w ty : Emits P (getGenreMaps w ty).
Proof.
  apply Emits_state. intros s. unfold getGenreMaps.
  destruct (cachedGenreMap ty s).
  - exists (ret (Ok g)). split; [reflexivity | emits].
  - eexists. split; [reflexivity | emits].
Qed.

Lemma Emits_getTVDetails w i : Emits P (getTVDetails w i).
Proof. unfold getTVDetails. emits. Qed.

Lemma Emits_getWatchProviders w i ty region :
  Emits P (getWatchProviders w i ty region).
Proof. unfold getWatchProviders. emits. Qed.

Lemma Emits_getMediaReviews w i ty : Emits P (getMediaReviews w i ty).
Proof. unfold getMediaReviews. emits. Qed.

Lemma Emits_getMediaVideos w i ty : Emits P (getMediaVideos w i ty).
Proof. unfold getMediaVideos. emits. Qed.

Lemma Emits_buildRecommendation w media mediaType region e :
  Emits P (buildRecommendation w media mediaType region e).
Proof.
  unfold buildRecommendation.
  apply Emits_bind; [apply Emits_getWatchProviders | intros ?].
  apply Emits_bind; [apply Emits_getMediaReviews | intros ?].
  apply Emits_bind; [apply Emits_getMediaVideos | intros ?].
  apply Emits_bind; [ | intros ?; apply Emits_ret].
  destruct (tmdbTypeOf mediaType); [apply Emits_ret | apply Emits_getTVDetails].
Qed.

Lemma Emits_getGenAI w : Emits P (getGenAI w).
Proof.
  apply Emits_state. intros s. unfold getGenAI.
  destruct (genAI s).
  - exists (ret (Ok s0)). split; [reflexivity | emits].
  - destruct (VITE_GEMINI_API_KEY w) as [key|].
    + destruct (JsString.truthy key).
      * eexists. split; [reflexivity | emits].
      * exists (ret (Throw missingKeyMessage)). split; [reflexivity | emits].
    + exists (ret (Throw missingKeyMessage)). split; [reflexivity | emits].
Qed.

Hypothesis P_calls : forall f, f <> fn_searchMedia -> P (Called f).

Lemma Emits_searchByTitle w title year mediaType :
  Emits P (searchByTitle w title year mediaType).
Proof.
  unfold searchByTitle.
  apply Emits_bind; [apply Emits_emit, P_calls; discriminate | intros _].
  emits.
Qed.

Lemma Emits_getRecentReleases w mediaType limit :
  Emits P (getRecentReleases w mediaType limit).
Proof.
  unfold getRecentReleases.
  apply Emits_bind; [apply Emits_emit, P_calls; discriminate | intros _].
  emits.
Qed.

Lemma Emits_getAIRecommendations w userPrompt mediaType hiddenGems fresh :
  Emits P (getAIRecommendations w userPrompt mediaType hiddenGems fresh).
Proof.
  unfold getAIRecommendations.
  apply Emits_bind; [apply Emits_emit, P_calls; discriminate | intros _].
  apply Emits_bind; [apply Emits_getGenAI | intros ai].
  destruct ai; emits.
Qed.

Lemma Emits_processAIRecommendations w aiRecs mediaType region :
  Emits P (processAIRecommendations w aiRecs mediaType region).
Proof.
  induction aiRecs as [|rec rest IH]; simpl.
  - apply Emits_ret.
  - apply Emits_bind; [apply Emits_searchByTitle | intros media].
    destruct media; [ | exact IH].
    apply Emits_bind; [apply Emits_buildRecommendation | intros ?].
    apply Emits_bind; [exact IH | intros ?; apply Emits_ret].
Qed.

Lemma Emits_buildHeuristic w items mediaType region :
  Emits P (buildHeuristic w items mediaType region).
Proof.
  induction items as [|media rest IH]; simpl.
  - apply Emits_ret.
  - apply Emits_bind; [apply Emits_buildRecommendation | intros ?].
    apply Emits_bind; [exact IH | intros ?; apply Emits_ret].
Qed.

Lemma Emits_aiDerived w userInput options :
  Emits P (aiDerived w userInput options).
Proof.
  unfold aiDerived.
  apply Emits_bind.
  - destruct (AnalyzedInput.wantsRecent _); [ | apply Emits_ret].
    apply Emits_bind; [apply Emits_getRecentReleases | intros ?; apply Emits_ret].
  - intros fresh.
    apply Emits_bind; [apply Emits_getAIRecommendations | intros ai].
    destruct (_ && _); [apply Emits_processAIRecommendations | apply Emits_ret].
Qed.
End Frames.

(** ** The analyzer *)

Example analyze_laugh :
  let a := analyzeUserInput "funny comedy that will make me laugh out loud" in
  AnalyzedInput.genres a = ["comedy"] /\
  AnalyzedInput.emotions a = ["joy"] /\
  AnalyzedInput.intensity a = 5%Z /\
  AnalyzedInput.language a = None /\
  AnalyzedInput.wantsRecent a = false.
Proof. vm_compute. repeat split. Qed.

Lemma startsWith_spec (s p : string) :
  startsWith s p = true <-> exists post, s = p ++ post.
Proof.
  revert s. induction p as [|a p IH]; intros s; simpl.
  - split; [intros _; exists s; reflexivity | intros _; destruct s; reflexivity].
  - destruct s as [|b s].
    + split; [discriminate | intros (post & H); discriminate].
    + simpl. rewrite andb_true_iff, Ascii.eqb_eq, IH. split.
      * intros (-> & post & ->). exists post. reflexivity.
      * intros (post & H). injection H as -> ->. split; [reflexivity | eauto].
Qed.

Lemma includes_spec (s sub : string) :
  includes s sub = true <-> Substring sub s.
Proof.
  unfold Substring. induction s as [|c s IH].
  - cbn [includes]. rewrite orb_false_r, startsWith_spec. split.
    + intros (post & H). exists "", post. exact H.
    + intros (pre & post & H). destruct pre; [eauto | discriminate].
  - cbn [includes]. rewrite orb_true_iff, IH, startsWith_spec. split.
    + intros [(post & H) | (pre & post & H)].
      * exists "", post. exact H.
      * exists (String c pre), post. simpl. rewrite H. reflexivity.
    + intros (pre & post & H). destruct pre as [|d pre].
      * left. exists post. exact H.
      * right. simpl in H. injection H as _ H. eauto.
Qed.

Lemma existsb_occursIn (words : list string) (input : string) :
  existsb (fun word => includes (toLowerCase input) word) words = true
  <-> occursIn words input.
Proof.
  unfold occursIn. rewrite existsb_exists.
  split; intros (word & H & I); exists word; split; auto;
    apply includes_spec; exact I.
Qed.

(** C9: the intensity is 3 as soon as a low-intensity keyword occurs in the
    lower-cased text, also when a high-intensity keyword occurs too; it is 8
    when only a high-intensity keyword occurs, and 5 when none occurs. *)
Theorem analyzeUserInput_intensity (input : string) :
  (occursIn intensityWords_low input ->
   AnalyzedInput.intensity (analyzeUserInput input) = 3%Z) /\
  (~ occursIn intensityWords_low input ->
   occursIn intensityWords_high input ->
   AnalyzedInput.intensity (analyzeUserInput input) = 8%Z) /\
  (~ occursIn intensityWords_low input ->
   ~ occursIn intensityWords_high input ->
   AnalyzedInput.intensity (analyzeUserInput input) = 5%Z).
Proof.
  unfold analyzeUserInput.
  rewrite <- !existsb_occursIn.
  destruct (existsb _ intensityWords_high);
    destruct (existsb _ intensityWords_low); simpl;
    repeat split; intros; try reflexivity; congruence.
Qed.

Lemma analyzeUserInput_intensity_witness :
  occursIn intensityWords_low "a dark but cozy film" /\
  occursIn intensityWords_high "a dark but cozy film" /\
  AnalyzedInput.intensity (analyzeUserInput "a dark but cozy film") = 3%Z.
Proof.
  assert (L : occursIn intensityWords_low "a dark but cozy film").
  { apply existsb_occursIn. vm_compute. reflexivity. }
  assert (H : occursIn intensityWords_high "a dark but cozy film").
  { apply existsb_occursIn. vm_compute. reflexivity. }
  split; [exact L | split; [exact H | ]].
  exact (proj1 (analyzeUserInput_intensity "a dark but cozy film") L).
Defined.

(** ** The builder *)

Lemma buildRecommendation_spec w media mediaType region aiExplanation s :
  exists r,
    fst (buildRecommendation w media mediaType region aiExplanation s) = Some r /\
    MediaRecommendation.id r = TMDBMedia.id media /\
    MediaRecommendation.matchPercentage r
      = (if truthyOpt aiExplanation then ofZ 85 else ofZ 70) /\
    MediaRecommendation.aiExplanation r = aiExplanation.
Proof.
  unfold buildRecommendation. repeat rewrite run_bind. unfold ret. cbn [fst].
  eexists. split; [reflexivity | ]. cbn. auto.
Qed.

(** C7, at the failing input: a rationale is supplied, and it is the empty
    string.  [buildRecommendation] gives the record the base score 70, not
    85, and so does the generative path for a candidate that the service
    proposes with an empty explanation: the record of this AI match,
    catalog entry 348, carries the rationale and the score 70. *)
Theorem empty_rationale_scores_70 :
  (exists r,
     fst (buildRecommendation offlineWorld alien movie "IN" (Some "") initial) = Some r /\
     MediaRecommendation.matchPercentage r = ofZ 70 /\
     MediaRecommendation.aiExplanation r = Some "") /\
  map (fun r =>
         (MediaRecommendation.id r,
          MediaRecommendation.matchPercentage r,
          MediaRecommendation.aiExplanation r))
    (fst (processAIRecommendations twinWorld [candidate "Alien" ""] movie "IN" initial))
  = [(348%Z, ofZ 70, Some "")].
Proof.
  split.
  - eexists. split; [vm_compute; reflexivity | ]. split; reflexivity.
  - vm_compute. reflexivity.
Qed.

(** ** The heuristic path *)

Lemma buildHeuristic_spec w mediaType region items :
  forall s,
    Forall2 (builtFrom heuristicScore) items
      (fst (buildHeuristic w items mediaType region s)).
Proof.
  induction items as [|media rest IH]; intros s; simpl.
  - constructor.
  - repeat rewrite run_bind. unfold ret. cbn [fst].
    destruct (buildRecommendation_spec w media mediaType region None s)
      as (r & E & I & _ & X).
    rewrite E. constructor; [ | apply IH].
    unfold builtFrom. simpl. auto.
Qed.

Lemma getHeuristicRecommendations_spec w query analysis options s :
  Forall2 (builtFrom heuristicScore)
    (firstn 10 (heuristicItems w query analysis options s))
    (fst (getHeuristicRecommendations w query analysis options s)).
Proof.
  unfold getHeuristicRecommendations, heuristicItems. rewrite run_bind.
  apply buildHeuristic_spec.
Qed.

(** C6: the heuristic records correspond, one for one and in order, to the
    first 10 results of the gateway at most, and the match percentage of
    each is round(min(100, 60 + min(20, rating * 2) + min(20, popularity /
    100))) of its catalog entry, the product, the quotient and the two sums
    being the binary64 numbers that the machine computes. *)
Theorem heuristic_records_scored w query analysis options s :
  let results := fst (getHeuristicRecommendations w query analysis options s) in
  (List.length results <= 10)%nat /\
  Forall2
    (fun media r =>
       MediaRecommendation.id r = TMDBMedia.id media /\
       MediaRecommendation.matchPercentage r
       = round
           (JsNum.min (ofZ 100)
              (Binary64.add
                 (Binary64.add (ofZ 60)
                    (JsNum.min (ofZ 20)
                       (Binary64.mul (TMDBMedia.vote_average media) (ofZ 2))))
                 (JsNum.min (ofZ 20)
                    (Binary64.div (TMDBMedia.popularity media) (ofZ 100))))))
    (firstn 10 (heuristicItems w query analysis options s))
    results.
Proof.
  cbv zeta.
  pose proof (getHeuristicRecommendations_spec w query analysis options s) as H.
  split.
  - rewrite <- (Forall2_length H). apply firstn_le_length.
  - eapply Forall2_impl; [ | exact H].
    intros media r (I & P & _). split; [exact I | exact P].
Qed.

(** The rounding of the machine shows in the score: for the rating 7.002
    and the popularity 149.6 the sum is 75.5 on the machine, which rounds
    to 76, and a little less than 75.5 in exact arithmetic. *)
Example heuristicScore_rounds_as_the_machine :
  heuristicScore (rated (7002 # 1000) (1496 # 10)) = ofZ 76 /\
  exactScore (rated (7002 # 1000) (1496 # 10)) = ofZ 75 /\
  heuristicScore (rated (702 # 100) (46 # 1)) = ofZ 74.
Proof. vm_compute. repeat split. Qed.

(** ** Rounding to binary64 *)

Section Rounding.

#[local] Open Scope Q_scope.

Lemma pow2_pos (z : Z) : 0 < Binary64.pow2 z.
Proof. apply Qpower_0_lt. reflexivity. Qed.

Lemma pow2_plus (a b : Z) :
  Binary64.pow2 (a + b) == Binary64.pow2 a * Binary64.pow2 b.
Proof. apply Qpower_plus. discriminate. Qed.

Lemma pow2_le (a b : Z) : (a <= b)%Z -> Binary64.pow2 a <= Binary64.pow2 b.
Proof. intros H. apply Qpower_le_compat_l; [exact H | discriminate]. Qed.

Lemma roundHalfEven_floor (x : Q) :
  (Qfloor x <= Binary64.roundHalfEven x <= Qfloor x + 1)%Z.
Proof.
  unfold Binary64.roundHalfEven. cbv zeta.
  destruct (Qcompare _ _); [destruct (Z.even _) | | ]; lia.
Qed.

Lemma roundHalfEven_Z (n : Z) : Binary64.roundHalfEven (inject_Z n) = n.
Proof.
  unfold Binary64.roundHalfEven. cbv zeta. rewrite Qfloor_Z.
  destruct (Qcompare_spec (inject_Z n - inject_Z n) (1 # 2)) as [E | L | G].
  - lra.
  - reflexivity.
  - lra.
Qed.

Lemma roundHalfEven_mono (x y : Q) :
  x <= y -> (Binary64.roundHalfEven x <= Binary64.roundHalfEven y)%Z.
Proof.
  intros L. pose proof (Qfloor_resp_le _ _ L) as F.
  destruct (Z.eq_dec (Qfloor x) (Qfloor y)) as [E | N].
  - unfold Binary64.roundHalfEven. cbv zeta. rewrite <- E.
    destruct (Qcompare_spec (x - inject_Z (Qfloor x)) (1 # 2)),
             (Qcompare_spec (y - inject_Z (Qfloor x)) (1 # 2));
      try destruct (Z.even (Qfloor x)); try lia; lra.
  - pose proof (roundHalfEven_floor x). pose proof (roundHalfEven_floor y). lia.
Qed.

Lemma exponentFrom_spec (q : Q) (fuel : nat) :
  forall e e',
    Binary64.exponentFrom fuel e q = Some e' ->
    (e <= e' < e + Z.of_nat fuel)%Z /\
    q < Binary64.pow2 (e' + 53) /\
    ((e < e')%Z -> Binary64.pow2 (e' + 52) <= q).
Proof.
  induction fuel as [|fuel IH]; intros e e' H.
  - discriminate.
  - cbn [Binary64.exponentFrom] in H.
    destruct (Qle_bool (Binary64.pow2 (e + 53)) q) eqn:T.
    + destruct (IH _ _ H) as (R & U & L).
      split; [lia | ]. split; [exact U | ].
      intros _. destruct (Z.eq_dec e' (e + 1)) as [-> | N].
      * replace (e + 1 + 52)%Z with (e + 53)%Z by lia.
        apply Qle_bool_iff. exact T.
      * apply L. lia.
    + injection H as <-. split; [lia | ]. split; [ | lia].
      apply Qnot_le_lt. intros C. apply Qle_bool_iff in C. congruence.
Qed.

Lemma exponentFrom_none (q : Q) (fuel : nat) :
  forall e,
    Binary64.exponentFrom fuel e q = None ->
    (0 < fuel)%nat ->
    Binary64.pow2 (e + Z.of_nat fuel + 52) <= q.
Proof.
  induction fuel as [|fuel IH]; intros e H P.
  - lia.
  - cbn [Binary64.exponentFrom] in H.
    destruct (Qle_bool (Binary64.pow2 (e + 53)) q) eqn:T; [ | discriminate].
    destruct fuel as [|fuel'].
    + replace (e + Z.of_nat 1 + 52)%Z with (e + 53)%Z by lia.
      apply Qle_bool_iff. exact T.
    + replace (e + Z.of_nat (S (S fuel')) + 52)%Z
        with (e + 1 + Z.of_nat (S fuel') + 52)%Z by lia.
      apply IH; [exact H | lia].
Qed.

Lemma exponent_spec (q : Q) (e : Z) :
  Binary64.exponent q = Some e ->
  (-1074 <= e <= 971)%Z /\
  q < Binary64.pow2 (e + 53) /\
  ((-1074 < e)%Z -> Binary64.pow2 (e + 52) <= q).
Proof.
  unfold Binary64.exponent. intros H.
  apply exponentFrom_spec in H. destruct H as (R & U & L).
  split; [ | split; assumption].
  assert (F : Z.of_nat 2046 = 2046%Z) by (vm_compute; reflexivity).
  rewrite F in R. lia.
Qed.

Lemma exponent_none (q : Q) :
  Binary64.exponent q = None -> Binary64.pow2 1024 <= q.
Proof.
  unfold Binary64.exponent. intros H.
  apply exponentFrom_none in H; [ | apply Nat.lt_0_succ].
  assert (F : (-1074 + Z.of_nat 2046 + 52 = 1024)%Z) by (vm_compute; reflexivity).
  rewrite F in H. exact H.
Qed.

(** The value that a positive rational rounds to, before the overflow
    test. *)
Lemma rounded_value_mono (x y : Q) (ex ey : Z) :
  0 < x -> x <= y ->
  Binary64.exponent x = Some ex ->
  Binary64.exponent y = Some ey ->
  inject_Z (Binary64.roundHalfEven (x / Binary64.pow2 ex)) * Binary64.pow2 ex
  <= inject_Z (Binary64.roundHalfEven (y / Binary64.pow2 ey)) * Binary64.pow2 ey.
Proof.
  intros Px L Ex Ey.
  destruct (exponent_spec _ _ Ex) as (Rx & Ux & Lx).
  destruct (exponent_spec _ _ Ey) as (Ry & Uy & Ly).
  pose proof (pow2_pos ex) as Pex. pose proof (pow2_pos ey) as Pey.
  destruct (Z_lt_le_dec ey ex) as [C | C].
  { exfalso.
    assert (H : Binary64.pow2 (ey + 53) <= Binary64.pow2 (ex + 52)) by (apply pow2_le; lia).
    specialize (Lx ltac:(lia)).
    apply (Qlt_irrefl y).
    eapply Qlt_le_trans; [exact Uy | ].
    eapply Qle_trans; [exact H | ]. eapply Qle_trans; [exact Lx | exact L]. }
  destruct (Z.eq_dec ex ey) as [<- | N].
  - apply Qmult_le_compat_r; [ | apply Qlt_le_weak; exact Pex].
    rewrite <- Zle_Qle. apply roundHalfEven_mono.
    apply Qmult_le_compat_r; [exact L | ].
    apply Qlt_le_weak. apply Qinv_lt_0_compat. exact Pex.
  - assert (A : (Binary64.roundHalfEven (x / Binary64.pow2 ex) <= 2 ^ 53)%Z).
    { rewrite <- (roundHalfEven_Z (2 ^ 53)). apply roundHalfEven_mono.
      apply Qle_shift_div_r; [exact Pex | ].
      change (inject_Z (2 ^ 53)) with (Binary64.pow2 53).
      rewrite <- pow2_plus. replace (53 + ex)%Z with (ex + 53)%Z by lia.
      apply Qlt_le_weak. exact Ux. }
    assert (B : (2 ^ 52 <= Binary64.roundHalfEven (y / Binary64.pow2 ey))%Z).
    { rewrite <- (roundHalfEven_Z (2 ^ 52)) at 1. apply roundHalfEven_mono.
      apply Qle_shift_div_l; [exact Pey | ].
      change (inject_Z (2 ^ 52)) with (Binary64.pow2 52).
      rewrite <- pow2_plus. replace (52 + ey)%Z with (ey + 52)%Z by lia.
      apply Ly. lia. }
    rewrite Zle_Qle in A, B.
    apply Qle_trans with (inject_Z (2 ^ 53) * Binary64.pow2 ex).
    { apply Qmult_le_compat_r; [exact A | apply Qlt_le_weak; exact Pex]. }
    apply Qle_trans with (inject_Z (2 ^ 52) * Binary64.pow2 ey).
    2:{ apply Qmult_le_compat_r; [exact B | apply Qlt_le_weak; exact Pey]. }
    change (inject_Z (2 ^ 53)) with (Binary64.pow2 53).
    change (inject_Z (2 ^ 52)) with (Binary64.pow2 52).
    rewrite <- !pow2_plus. apply pow2_le. lia.
Qed.

Lemma roundPositive_mono (x y : Q) :
  0 < x -> x <= y ->
  (Binary64.roundPositive x <= Binary64.roundPositive y)%num.
Proof.
  intros Px L. unfold Binary64.roundPositive.
  destruct (Binary64.exponent x) as [ex|] eqn:Ex;
    destruct (Binary64.exponent y) as [ey|] eqn:Ey.
  - pose proof (rounded_value_mono x y ex ey Px L Ex Ey) as V. cbv zeta.
    set (vx := inject_Z (Binary64.roundHalfEven (x / Binary64.pow2 ex)) * Binary64.pow2 ex)
      in *.
    set (vy := inject_Z (Binary64.roundHalfEven (y / Binary64.pow2 ey)) * Binary64.pow2 ey)
      in *.
    destruct (Qle_bool (Binary64.pow2 1024) vx) eqn:Ox;
      destruct (Qle_bool (Binary64.pow2 1024) vy) eqn:Oy; try exact I.
    + apply Qle_bool_iff in Ox.
      assert (C : Binary64.pow2 1024 <= vy) by (apply Qle_trans with vx; [exact Ox | exact V]).
      apply Qle_bool_iff in C. congruence.
    + cbn [JsNum.le]. rewrite !Qred_correct. exact V.
  - cbv zeta. destruct (Qle_bool _ _); exact I.
  - exfalso. apply exponent_none in Ex.
    destruct (exponent_spec _ _ Ey) as (Ry & Uy & _).
    assert (H : Binary64.pow2 (ey + 53) <= Binary64.pow2 1024) by (apply pow2_le; lia).
    apply (Qlt_irrefl y).
    eapply Qlt_le_trans; [exact Uy | ].
    eapply Qle_trans; [exact H | ]. eapply Qle_trans; [exact Ex | exact L].
  - exact I.
Qed.

Lemma roundPositive_nonneg (x : Q) :
  0 < x -> (Fin 0 <= Binary64.roundPositive x)%num.
Proof.
  intros Px. unfold Binary64.roundPositive.
  destruct (Binary64.exponent x) as [e|]; [ | exact I]. cbv zeta.
  destruct (Qle_bool _ _); [exact I | ].
  cbn [JsNum.le]. rewrite Qred_correct.
  apply Qmult_le_0_compat; [ | apply Qlt_le_weak, pow2_pos].
  change 0 with (inject_Z 0). rewrite <- Zle_Qle.
  rewrite <- (roundHalfEven_Z 0) at 1. apply roundHalfEven_mono.
  apply Qle_shift_div_l; [apply pow2_pos | ].
  rewrite Qmult_0_l. apply Qlt_le_weak. exact Px.
Qed.

Lemma round64_nonneg (x : Q) : 0 <= x -> (Fin 0 <= Binary64.round64 x)%num.
Proof.
  intros P. unfold Binary64.round64.
  destruct (Qcompare_spec x 0) as [E | L | G].
  - cbn. lra.
  - lra.
  - apply roundPositive_nonneg. exact G.
Qed.

Lemma round64_mono (x y : Q) :
  0 <= x -> x <= y -> (Binary64.round64 x <= Binary64.round64 y)%num.
Proof.
  intros P L. unfold Binary64.round64.
  destruct (Qcompare_spec x 0) as [Ex | Lx | Gx];
    destruct (Qcompare_spec y 0) as [Ey | Ly | Gy]; try lra.
  - cbn. lra.
  - apply roundPositive_nonneg. exact Gy.
  - apply roundPositive_mono; assumption.
Qed.

End Rounding.

(** ** Scores *)

Lemma nonneg_cases (x : num) :
  (ofZ 0 <= x)%num -> x = PosInf \/ exists q, x = Fin q /\ (0 <= q)%Q.
Proof.
  destruct x as [| |q|]; simpl; intros H; try contradiction; eauto.
Qed.

Lemma capped_bonus (x : num) :
  (ofZ 0 <= x)%num ->
  exists q, JsNum.min (ofZ 20) x = Fin q /\ (0 <= q <= 20)%Q.
Proof.
  intros H. destruct (nonneg_cases x H) as [-> | (q & -> & Hq)].
  - exists 20%Q. split; [reflexivity | lra].
  - unfold JsNum.min, ofZ, ltb.
    destruct (Qle_bool (inject_Z 20) q) eqn:E; simpl.
    + exists (inject_Z 20). split; [reflexivity | ]. unfold inject_Z. lra.
    + exists q. split; [reflexivity | ]. split; [exact Hq | ].
      destruct (Qlt_le_dec q (inject_Z 20)) as [L | L].
      * unfold inject_Z in L. lra.
      * apply Qle_bool_iff in L. congruence.
Qed.

Lemma double_nonneg (x : num) :
  (ofZ 0 <= x)%num -> (ofZ 0 <= Binary64.mul x (ofZ 2))%num.
Proof.
  intros H. destruct (nonneg_cases x H) as [-> | (q & -> & Hq)].
  - exact I.
  - apply round64_nonneg. unfold inject_Z. lra.
Qed.

Lemma hundredth_nonneg (x : num) :
  (ofZ 0 <= x)%num -> (ofZ 0 <= Binary64.div x (ofZ 100))%num.
Proof.
  intros H. destruct (nonneg_cases x H) as [-> | (q & -> & Hq)].
  - exact I.
  - apply round64_nonneg. unfold Qdiv, inject_Z.
    change (/ (100 # 1))%Q with (1 # 100)%Q. lra.
Qed.

Lemma round64_60 : Binary64.round64 (inject_Z 60) = Fin (inject_Z 60).
Proof. vm_compute. reflexivity. Qed.

Lemma round64_80 : Binary64.round64 (inject_Z 80) = Fin (inject_Z 80).
Proof. vm_compute. reflexivity. Qed.

Lemma round64_100 : Binary64.round64 (inject_Z 100) = Fin (inject_Z 100).
Proof. vm_compute. reflexivity. Qed.

(** A sum that lies between two binary64 numbers rounds to a number
    between them. *)
Lemma round64_between (lo hi : Z) (x : Q) :
  Binary64.round64 (inject_Z lo) = Fin (inject_Z lo) ->
  Binary64.round64 (inject_Z hi) = Fin (inject_Z hi) ->
  (0 <= inject_Z lo)%Q -> (inject_Z lo <= x <= inject_Z hi)%Q ->
  exists y, Binary64.round64 x = Fin y /\ (inject_Z lo <= y <= inject_Z hi)%Q.
Proof.
  intros Elo Ehi P (L & U).
  pose proof (round64_mono _ _ P L) as A. rewrite Elo in A.
  assert (Px : (0 <= x)%Q) by lra.
  pose proof (round64_mono _ _ Px U) as B. rewrite Ehi in B.
  destruct (Binary64.round64 x) as [| |y|]; try contradiction.
  exists y. split; [reflexivity | ]. split; assumption.
Qed.

(** The score before the last cap and the rounding to an integer. *)
Lemma heuristic_sum (a b : Q) :
  (0 <= a <= 20)%Q -> (0 <= b <= 20)%Q ->
  exists y,
    Binary64.add (Binary64.add (ofZ 60) (Fin a)) (Fin b) = Fin y /\
    (60 <= y <= 100)%Q.
Proof.
  intros Ha Hb. unfold Binary64.add, ofZ. cbn [JsNum.add Binary64.rounded].
  destruct (round64_between 60 80 (inject_Z 60 + a) round64_60 round64_80)
    as (u & -> & Lu & Uu); [unfold inject_Z; lra | unfold inject_Z; lra | ].
  cbn [JsNum.add Binary64.rounded].
  destruct (round64_between 60 100 (u + b) round64_60 round64_100)
    as (y & -> & Ly & Uy); [unfold inject_Z; lra | unfold inject_Z in *; lra | ].
  exists y. split; [reflexivity | ]. unfold inject_Z in *. lra.
Qed.

Lemma round_lower (lo : Z) (y : Q) :
  (inject_Z lo <= y)%Q -> (inject_Z lo <= inject_Z (Qfloor (y + (1 # 2))))%Q.
Proof.
  intros L. rewrite <- Zle_Qle, <- (Qfloor_Z lo). apply Qfloor_resp_le. lra.
Qed.

Lemma round_upper (hi : Z) (y : Q) :
  (y <= inject_Z hi)%Q -> (inject_Z (Qfloor (y + (1 # 2))) <= inject_Z hi)%Q.
Proof.
  intros U. rewrite <- Zle_Qle. apply Z.lt_succ_r. rewrite Zlt_Qlt.
  eapply Qle_lt_trans; [apply Qfloor_le | ].
  unfold Z.succ. rewrite inject_Z_plus. change (inject_Z 1) with 1%Q. lra.
Qed.

Lemma capped_total (x : Q) :
  exists y, JsNum.min (ofZ 100) (Fin x) = Fin y /\
            (y <= 100)%Q /\ ((60 <= x)%Q -> (60 <= y)%Q).
Proof.
  unfold JsNum.min, ofZ, ltb.
  destruct (Qle_bool (inject_Z 100) x) eqn:E; simpl.
  - exists (inject_Z 100). split; [reflexivity | ]. unfold inject_Z. split; intros; lra.
  - exists x. split; [reflexivity | ]. split; [ | auto].
    destruct (Qlt_le_dec x (inject_Z 100)) as [L | L].
    + unfold inject_Z in L. lra.
    + apply Qle_bool_iff in L. congruence.
Qed.

Lemma heuristicScore_nonneg (media : TMDBMedia.t) :
  (ofZ 0 <= TMDBMedia.vote_average media)%num ->
  (ofZ 0 <= TMDBMedia.popularity media)%num ->
  exists q, heuristicScore media = Fin q /\ (60 <= q <= 100)%Q.
Proof.
  intros Hv Hp. unfold heuristicScore.
  destruct (capped_bonus _ (double_nonneg _ Hv)) as (a & -> & Ha).
  destruct (capped_bonus _ (hundredth_nonneg _ Hp)) as (b & -> & Hb).
  cbv zeta.
  destruct (heuristic_sum a b Ha Hb) as (x & -> & Lx & Ux).
  destruct (capped_total x) as (y & E & U & L).
  rewrite E. cbn [round].
  eexists. split; [reflexivity | ].
  split.
  - apply (round_lower 60). apply L. exact Lx.
  - apply (round_upper 100). exact U.
Qed.

Lemma heuristicScore_atMost100 (media : TMDBMedia.t) : atMost100 (heuristicScore media).
Proof.
  unfold heuristicScore, atMost100. cbv zeta.
  set (x := Binary64.add _ _). clearbody x.
  destruct x as [| |x|].
  - left. reflexivity.
  - right; left. reflexivity.
  - destruct (capped_total x) as (y & E & U & _).
    rewrite E. cbn [round].
    right; right. eexists. split; [reflexivity | ].
    apply (round_upper 100). exact U.
  - right; right. exists (inject_Z 100). split; [reflexivity | ].
    unfold inject_Z. lra.
Qed.

Lemma Forall2_combine_In {A B} (R : A -> B -> Prop) (l1 : list A) (l2 : list B) :
  Forall2 R l1 l2 -> forall a b, In (a, b) (combine l1 l2) -> R a b.
Proof.
  induction 1 as [|x y l1 l2 H _ IH]; simpl; intros a b HI.
  - contradiction.
  - destruct HI as [E | HI]; [injection E as <- <-; exact H | auto].
Qed.

(** C10: a record that the heuristic path builds from a catalog entry of
    nonnegative rating and nonnegative popularity has its match percentage
    in [60,100], so that the final filter keeps it. *)
Theorem heuristic_score_in_range w query analysis options s media r :
  In (media, r)
    (combine (firstn 10 (heuristicItems w query analysis options s))
       (fst (getHeuristicRecommendations w query analysis options s))) ->
  (ofZ 0 <= TMDBMedia.vote_average media)%num ->
  (ofZ 0 <= TMDBMedia.popularity media)%num ->
  (ofZ 60 <= MediaRecommendation.matchPercentage r <= ofZ 100)%num /\
  aboveThreshold r = true.
Proof.
  intros HI Hv Hp.
  destruct (Forall2_combine_In _ _ _
              (getHeuristicRecommendations_spec w query analysis options s) _ _ HI)
    as (_ & P & _).
  destruct (heuristicScore_nonneg media Hv Hp) as (q & E & L & U).
  unfold aboveThreshold. rewrite P, E. cbn. unfold inject_Z.
  repeat split; try assumption.
  destruct (Qle_bool q (30 # 1)) eqn:B; [ | reflexivity].
  apply Qle_bool_iff in B. lra.
Qed.

Lemma heuristic_score_in_range_witness :
  exists r,
    hd_error heuristicSample = Some r /\
    MediaRecommendation.matchPercentage r = ofZ 78 /\
    aboveThreshold r = true.
Proof.
  eexists. split; [vm_compute; reflexivity | ]. split; [reflexivity | ].
  refine (proj2 (heuristic_score_in_range catalogWorld "scary space movie"
                   (analyzeUserInput "scary space movie") defaultOptions initial
                   (with_media_type tmdb_movie alien) _ _ _ _)).
  - vm_compute. left. reflexivity.
  - vm_compute. discriminate.
  - vm_compute. discriminate.
Defined.

(** ** The free-text search *)

Lemma cachedGenreMap_emit ty e s :
  cachedGenreMap ty (snd (emit e s)) = cachedGenreMap ty s.
Proof. destruct ty; reflexivity. Qed.

Lemma getGenreMaps_cached w ty s genreMap :
  cachedGenreMap ty s = Some genreMap -> getGenreMaps w ty s = (Ok genreMap, s).
Proof. intros E. unfold getGenreMaps. rewrite E. reflexivity. Qed.

Lemma discoverParamsOf_flagged w options genreIds :
  discoverAsFlagged (flagSet options)
    (Requested (Discover (tmdbTypeOf (SearchOptions.mediaType options))
                  (discoverParamsOf w options genreIds))).
Proof.
  intros ty params E. injection E as _ <-.
  unfold flagSet. cbn.
  destruct (SearchOptions.hiddenGems options) as [[|]|]; split; reflexivity.
Qed.

Lemma searchMedia_flagged w query options :
  Emits (discoverAsFlagged (flagSet options)) (searchMedia w query options).
Proof.
  unfold searchMedia.
  apply Emits_bind; [apply Emits_emit; intros ? ? E; discriminate | intros _].
  apply Emits_bind.
  - apply Emits_state. intros s. unfold getGenreMaps.
    destruct (cachedGenreMap _ s).
    + exists (ret (Ok g)). split; [reflexivity | apply Emits_ret].
    + eexists. split; [reflexivity | ].
      apply Emits_bind; [apply Emits_request; intros ? ? E; discriminate | intros r].
      emits.
  - intros [genreMap | e]; [ | apply Emits_ret].
    apply Emits_bind; [apply Emits_request, discoverParamsOf_flagged | intros d].
    apply Emits_bind; [apply Emits_request; intros ? ? E; discriminate | intros t].
    emits.
Qed.

Lemma discoverRequests_In evs ty params :
  In (ty, params) (discoverRequests evs) -> In (Requested (Discover ty params)) evs.
Proof.
  unfold discoverRequests. rewrite in_flat_map. intros (e & HI & H).
  destruct e as [f | [] | m]; simpl in H; try contradiction.
  destruct H as [E | []]. injection E as -> ->. exact HI.
Qed.

(** C8: every discover query that a free-text search issues sorts by rating
    and has the vote-count floor 50 when the hidden-gems flag is set, and
    sorts by popularity and has the floor 100 when it is not; and the query
    is issued as soon as the genre table of the catalog is at hand. *)
Theorem searchMedia_discover_query w query options s :
  let issued := discoverRequests (events_of (searchMedia w query options) s) in
  (forall ty params,
     In (ty, params) issued ->
     DiscoverParams.sort_by params
       = (if flagSet options then "vote_average.desc" else "popularity.desc") /\
     DiscoverParams.vote_count_gte params
       = (if flagSet options then 50%Z else 100%Z)) /\
  (cachedGenreMap (tmdbTypeOf (SearchOptions.mediaType options)) s <> None ->
   List.length issued = 1%nat).
Proof.
  cbv zeta. split.
  - intros ty params HI. apply discoverRequests_In in HI.
    destruct (Emits_events _ _ (searchMedia_flagged w query options) s) as (_ & F).
    rewrite Forall_forall in F. exact (F _ HI ty params eq_refl).
  - intros C.
    destruct (cachedGenreMap (tmdbTypeOf (SearchOptions.mediaType options)) s)
      as [genreMap|] eqn:E; [clear C | congruence].
    erewrite events_of_eq.
    2:{ unfold searchMedia. rewrite run_bind. rewrite run_bind.
        rewrite (getGenreMaps_cached w _ _ genreMap)
          by (rewrite cachedGenreMap_emit; exact E).
        cbn [fst snd]. rewrite run_bind. rewrite run_bind.
        repeat match goal with
               | |- context [match fst (request ?w' ?r ?s') with _ => _ end] =>
                   destruct (fst (request w' r s')) as [[]|]
               end;
          cbn; rewrite <- !app_assoc; reflexivity. }
    reflexivity.
Qed.

Example searchMedia_hidden_gems_example :
  map (fun q => (DiscoverParams.sort_by (snd q), DiscoverParams.vote_count_gte (snd q)))
    (discoverRequests
       (events_of
          (searchMedia catalogWorld "quiet masterpiece"
             {| SearchOptions.mediaType := movie;
                SearchOptions.genres := None;
                SearchOptions.language := None;
                SearchOptions.region := None;
                SearchOptions.hiddenGems := Some true;
                SearchOptions.year := None |})
          initial))
  = [("vote_average.desc", 50%Z)].
Proof. vm_compute. reflexivity. Qed.

Example searchMovies_legacy_example :
  map (fun q => (DiscoverParams.sort_by (snd q), DiscoverParams.vote_count_gte (snd q)))
    (discoverRequests
       (events_of
          (searchMedia catalogWorld "quiet masterpiece"
             {| SearchOptions.mediaType := movie;
                SearchOptions.genres := Some ["drama"];
                SearchOptions.language := None;
                SearchOptions.region := None;
                SearchOptions.hiddenGems := None;
                SearchOptions.year := None |})
          initial))
  = [("popularity.desc", 100%Z)].
Proof. vm_compute. reflexivity. Qed.

(** ** The fallback *)


Lemma Emits_after_emit {A} (P : Event -> Prop) (e : Event) (k : M A) :
  Emits P k ->
  forall s, exists evs,
    log (snd (bind (emit e) (fun _ => k) s)) = (log s ++ e :: evs)%list /\
    Forall P evs.
Proof.
  intros H s. rewrite run_bind.
  destruct (H (snd (emit e s))) as (evs & E & F).
  exists evs. split; [ | exact F].
  rewrite E. simpl. rewrite <- app_assoc. reflexivity.
Qed.

Lemma notSearchMedia_request r : notSearchMedia (Requested r).
Proof. discriminate. Qed.

Lemma notSearchMedia_call f : f <> fn_searchMedia -> notSearchMedia (Called f).
Proof. intros H E. injection E as ->. apply H. reflexivity. Qed.

Lemma searchMedia_events w query options s :
  exists evs,
    log (snd (searchMedia w query options s))
    = (log s ++ Called fn_searchMedia :: evs)%list /\
    Forall notSearchMedia evs.
Proof.
  unfold searchMedia. apply Emits_after_emit.
  apply Emits_bind; [apply Emits_getGenreMaps, notSearchMedia_request | intros maps].
  destruct maps; [ | apply Emits_ret].
  apply Emits_bind; [apply Emits_request, notSearchMedia_request | intros ?].
  apply Emits_bind; [apply Emits_request, notSearchMedia_request | intros ?].
  emits.
Qed.

Lemma searchMediaCalls_app l1 l2 :
  searchMediaCalls (l1 ++ l2) = (searchMediaCalls l1 + searchMediaCalls l2)%nat.
Proof. unfold searchMediaCalls. rewrite filter_app, length_app. reflexivity. Qed.

Lemma searchMediaCalls_none evs :
  Forall notSearchMedia evs -> searchMediaCalls evs = 0%nat.
Proof.
  unfold searchMediaCalls. induction 1 as [|e evs H _ IH]; [reflexivity | ].
  simpl. destruct e as [[]| |]; simpl; try exact IH.
  exfalso. apply H. reflexivity.
Qed.

Lemma events_of_bind {A B} (m : M A) (k : A -> M B) (s : State) :
  Emits anyEvent m -> (forall a, Emits anyEvent (k a)) ->
  events_of (bind m k) s
  = (events_of m s ++ events_of (k (fst (m s))) (snd (m s)))%list.
Proof.
  intros Hm Hk.
  destruct (Emits_events _ _ Hm s) as (E1 & _).
  destruct (Emits_events _ _ (Hk (fst (m s))) (snd (m s))) as (E2 & _).
  apply events_of_eq. rewrite run_bind, E2, E1, app_assoc. reflexivity.
Qed.

Lemma events_of_ret {A} (a : A) (s : State) : events_of (ret a) s = [].
Proof. apply events_of_eq. simpl. rewrite app_nil_r. reflexivity. Qed.

Lemma grows_aiDerived w userInput options :
  Emits anyEvent (aiDerived w userInput options).
Proof. apply Emits_aiDerived; intros; exact I. Qed.

Lemma grows_searchMedia w query options :
  Emits anyEvent (searchMedia w query options).
Proof.
  intros s. destruct (searchMedia_events w query options s) as (evs & E & _).
  exists (Called fn_searchMedia :: evs). split; [exact E | ].
  apply Forall_forall. intros; exact I.
Qed.

Lemma grows_getHeuristicRecommendations w query analysis options :
  Emits anyEvent (getHeuristicRecommendations w query analysis options).
Proof.
  unfold getHeuristicRecommendations.
  apply Emits_bind; [apply grows_searchMedia | intros items].
  apply Emits_buildHeuristic; intros; exact I.
Qed.

Lemma grows_mergedCandidates w userInput options :
  Emits anyEvent (mergedCandidates w userInput options).
Proof.
  unfold mergedCandidates.
  apply Emits_bind; [apply grows_aiDerived | intros recs].
  destruct (_ <? _)%nat; [ | apply Emits_ret].
  apply Emits_bind; [apply grows_getHeuristicRecommendations | intros ?; apply Emits_ret].
Qed.

Lemma getHeuristicRecommendations_calls w query analysis options s :
  searchMediaCalls (events_of (getHeuristicRecommendations w query analysis options) s)
  = 1%nat.
Proof.
  unfold getHeuristicRecommendations.
  rewrite events_of_bind;
    [ | apply grows_searchMedia | intros; apply Emits_buildHeuristic; intros; exact I ].
  rewrite searchMediaCalls_app.
  destruct (searchMedia_events w query (searchOptionsOf analysis options) s)
    as (evs & E & F).
  rewrite (events_of_eq _ _ _ E).
  change (Called fn_searchMedia :: evs) with ([Called fn_searchMedia] ++ evs)%list.
  rewrite searchMediaCalls_app, (searchMediaCalls_none evs F).
  match goal with
  | |- context [events_of ?m ?s'] =>
      rewrite (searchMediaCalls_none (events_of m s'))
  end; [reflexivity | ].
  apply Emits_events, Emits_buildHeuristic, notSearchMedia_request.
Qed.

Lemma aiDerived_calls w userInput options s :
  searchMediaCalls (events_of (aiDerived w userInput options) s) = 0%nat.
Proof.
  apply searchMediaCalls_none, Emits_events, Emits_aiDerived.
  - apply notSearchMedia_request.
  - apply notSearchMedia_call.
Qed.

Lemma getRecommendations_calls w userInput options s :
  searchMediaCalls (events_of (getRecommendations w userInput options) s)
  = if (List.length (fst (aiDerived w userInput options s)) <? 3)%nat
    then 1%nat else 0%nat.
Proof.
  unfold getRecommendations.
  rewrite events_of_bind;
    [ | apply grows_mergedCandidates | intros; apply Emits_ret ].
  rewrite events_of_ret, app_nil_r.
  unfold mergedCandidates.
  rewrite events_of_bind; [ | apply grows_aiDerived | ].
  2:{ intros recs. destruct (_ <? _)%nat; [ | apply Emits_ret].
      apply Emits_bind;
        [apply grows_getHeuristicRecommendations | intros ?; apply Emits_ret]. }
  rewrite searchMediaCalls_app, aiDerived_calls.
  destruct (_ <? _)%nat.
  - rewrite events_of_bind;
      [ | apply grows_getHeuristicRecommendations | intros; apply Emits_ret ].
    rewrite events_of_ret, app_nil_r.
    apply getHeuristicRecommendations_calls.
  - rewrite events_of_ret. reflexivity.
Qed.

(** C3: a call of [getRecommendations] enters the free-text search of the
    gateway exactly once when fewer than 3 records came out of the
    generative path, and never when 3 or more did. *)
Theorem fallback_iff_insufficient w userInput options s :
  let resolved := List.length (fst (aiDerived w userInput options s)) in
  let calls :=
    searchMediaCalls (events_of (getRecommendations w userInput options) s) in
  ((resolved < 3)%nat -> calls = 1%nat) /\
  ((3 <= resolved)%nat -> calls = 0%nat) /\
  ((0 < calls)%nat <-> (resolved < 3)%nat).
Proof.
  cbv zeta. rewrite getRecommendations_calls.
  destruct (Nat.ltb_spec (List.length (fst (aiDerived w userInput options s))) 3)
    as [L | L].
  - repeat split; intros; try lia.
  - repeat split; intros; try lia.
Qed.

Example fallback_skipped_example :
  List.length (fst (aiDerived twinWorld "scary space movie" defaultOptions initial))
  = 3%nat /\
  searchMediaCalls
    (events_of (getRecommendations twinWorld "scary space movie" defaultOptions)
       initial) = 0%nat.
Proof. vm_compute. split; reflexivity. Qed.

Example fallback_taken_example :
  List.length (fst (aiDerived catalogWorld "scary space movie" defaultOptions initial))
  = 0%nat /\
  searchMediaCalls
    (events_of (getRecommendations catalogWorld "scary space movie" defaultOptions)
       initial) = 1%nat.
Proof. vm_compute. split; reflexivity. Qed.

(** ** Ranking *)

Lemma insert_sorted_perm (x : MediaRecommendation.t) l :
  Permutation (insert_sorted byMatchDescending x l) (x :: l).
Proof.
  induction l as [|y l IH]; cbn [insert_sorted].
  - apply Permutation_refl.
  - destruct (gtb (byMatchDescending x y) (ofZ 0)).
    + eapply perm_trans; [apply perm_skip, IH | apply perm_swap].
    + apply Permutation_refl.
Qed.

Lemma sort_perm l : Permutation (sort byMatchDescending l) l.
Proof.
  induction l as [|x l IH]; cbn [sort].
  - apply perm_nil.
  - eapply perm_trans; [apply insert_sorted_perm | apply perm_skip, IH].
Qed.

Lemma tied_not_after k x y :
  tiedAt k x = true -> tiedAt k y = true ->
  gtb (byMatchDescending x y) (ofZ 0) = false.
Proof.
  unfold tiedAt, byMatchDescending.
  destruct (MediaRecommendation.matchPercentage x) as [| |a|];
    destruct (MediaRecommendation.matchPercentage y) as [| |b|];
    destruct k as [| |c|]; simpl; try discriminate; try reflexivity.
  intros Ha Hb. apply Qeq_bool_iff in Ha, Hb.
  apply negb_false_iff, Qle_bool_iff. unfold inject_Z. lra.
Qed.

Lemma insert_sorted_stable k x l :
  filter (tiedAt k) (insert_sorted byMatchDescending x l) = filter (tiedAt k) (x :: l).
Proof.
  induction l as [|y l IH]; [reflexivity | ].
  cbn [insert_sorted].
  destruct (gtb (byMatchDescending x y) (ofZ 0)) eqn:G; [ | reflexivity].
  cbn [filter] in *. rewrite IH.
  destruct (tiedAt k x) eqn:Tx; destruct (tiedAt k y) eqn:Ty; try reflexivity.
  rewrite (tied_not_after k x y Tx Ty) in G. discriminate.
Qed.

Lemma sort_stable k l :
  filter (tiedAt k) (sort byMatchDescending l) = filter (tiedAt k) l.
Proof.
  induction l as [|x l IH]; [reflexivity | ].
  cbn [sort]. rewrite insert_sorted_stable. cbn [filter]. rewrite IH. reflexivity.
Qed.

Lemma descending_finite_total x y :
  finiteScore x -> finiteScore y ->
  if gtb (byMatchDescending x y) (ofZ 0) then descending y x else descending x y.
Proof.
  unfold finiteScore, descending, byMatchDescending.
  intros (a & ->) (b & ->). cbn.
  destruct (Qle_bool (b + - a) (inject_Z 0)) eqn:E; cbn.
  - apply Qle_bool_iff in E. unfold inject_Z in E. lra.
  - destruct (Qlt_le_dec a b) as [L | L]; [lra | ].
    assert (H : Qle_bool (b + - a) (inject_Z 0) = true)
      by (apply Qle_bool_iff; unfold inject_Z; lra).
    congruence.
Qed.

Lemma descending_trans x y z :
  finiteScore y -> descending x y -> descending y z -> descending x z.
Proof.
  unfold finiteScore, descending. intros (b & ->).
  destruct (MediaRecommendation.matchPercentage x) as [| |a|];
    destruct (MediaRecommendation.matchPercentage z) as [| |c|];
    simpl; try tauto.
  intros; lra.
Qed.

Lemma insert_sorted_sorted x l :
  finiteScore x -> Forall finiteScore l ->
  StronglySorted descending l ->
  StronglySorted descending (insert_sorted byMatchDescending x l).
Proof.
  intros Fx Fl S. induction S as [|y l S IH Hy]; cbn [insert_sorted].
  - repeat constructor.
  - inversion Fl as [|? ? Fy Fl']; subst.
    pose proof (descending_finite_total x y Fx Fy) as T.
    destruct (gtb (byMatchDescending x y) (ofZ 0)).
    + constructor; [apply IH; assumption | ].
      eapply Permutation_Forall; [apply Permutation_sym, insert_sorted_perm | ].
      constructor; assumption.
    + constructor; [constructor; assumption | ].
      constructor; [exact T | ].
      eapply Forall_impl; [ | exact Hy].
      intros z Hz. exact (descending_trans x y z Fy T Hz).
Qed.

Lemma sort_sorted l :
  Forall finiteScore l -> StronglySorted descending (sort byMatchDescending l).
Proof.
  induction 1 as [|x l Fx Fl IH]; cbn [sort].
  - constructor.
  - apply insert_sorted_sorted; [exact Fx | | exact IH].
    eapply Permutation_Forall; [apply Permutation_sym, sort_perm | exact Fl].
Qed.

Lemma In_firstn_in {A} (x : A) n l : In x (firstn n l) -> In x l.
Proof.
  intros H. rewrite <- (firstn_skipn n l). apply in_or_app. left. exact H.
Qed.

Lemma StronglySorted_firstn {A} (R : A -> A -> Prop) n l :
  StronglySorted R l -> StronglySorted R (firstn n l).
Proof.
  intros S. revert n. induction S as [|x l S IH Hx]; intros [|n]; simpl;
    try constructor.
  - apply IH.
  - rewrite Forall_forall in *. intros y Hy. apply Hx.
    eapply In_firstn_in; eauto.
Qed.

Lemma filter_firstn_prefix {A} (P : A -> bool) n l :
  exists rest, filter P l = (filter P (firstn n l) ++ rest)%list.
Proof.
  exists (filter P (skipn n l)).
  rewrite <- filter_app, firstn_skipn. reflexivity.
Qed.

Lemma tied_above k r :
  tiedAt k r = true -> aboveThreshold r = gtb k (ofZ 30).
Proof.
  unfold tiedAt, aboveThreshold.
  destruct (MediaRecommendation.matchPercentage r) as [| |a|];
    destruct k as [| |c|]; simpl; try discriminate; try reflexivity.
  intros E. apply Qeq_bool_iff in E. f_equal.
  destruct (Qle_bool a (inject_Z 30)) eqn:Ha;
    destruct (Qle_bool c (inject_Z 30)) eqn:Hc; try reflexivity.
  - apply Qle_bool_iff in Ha.
    assert (H : Qle_bool c (inject_Z 30) = true) by (apply Qle_bool_iff; lra).
    congruence.
  - apply Qle_bool_iff in Hc.
    assert (H : Qle_bool a (inject_Z 30) = true) by (apply Qle_bool_iff; lra).
    congruence.
Qed.

Lemma filter_tied_above k l :
  filter (tiedAt k) (filter aboveThreshold l)
  = if gtb k (ofZ 30) then filter (tiedAt k) l else [].
Proof.
  induction l as [|x l IH]; cbn [filter].
  - destruct (gtb k (ofZ 30)); reflexivity.
  - destruct (tiedAt k x) eqn:T.
    + rewrite (tied_above k x T).
      destruct (gtb k (ofZ 30)); [ | exact IH].
      cbn [filter]. rewrite T, IH. reflexivity.
    + destruct (aboveThreshold x); [ | exact IH].
      cbn [filter]. rewrite T. exact IH.
Qed.

Lemma rank_stable k l :
  exists rest, filter (tiedAt k) l = (filter (tiedAt k) (rank l) ++ rest)%list.
Proof.
  unfold rank.
  destruct (filter_firstn_prefix (tiedAt k) 7
              (sort byMatchDescending (filter aboveThreshold l))) as (rest & E).
  rewrite sort_stable, filter_tied_above in E.
  destruct (gtb k (ofZ 30)).
  - exists rest. exact E.
  - symmetry in E. apply app_eq_nil in E. destruct E as (-> & _).
    exists (filter (tiedAt k) l). reflexivity.
Qed.

Lemma above_and_atMost100 r :
  aboveThreshold r = true -> scoreAtMost100 r ->
  exists q, MediaRecommendation.matchPercentage r = Fin q /\ (30 < q <= 100)%Q.
Proof.
  unfold aboveThreshold, scoreAtMost100, atMost100.
  intros G [E | [E | (q & E & U)]]; rewrite E in G; try discriminate.
  exists q. split; [exact E | split; [ | exact U]].
  cbn in G. apply negb_true_iff in G.
  destruct (Qlt_le_dec (inject_Z 30) q) as [L | L].
  - unfold inject_Z in L. exact L.
  - apply Qle_bool_iff in L. congruence.
Qed.

Lemma rank_spec l :
  Forall scoreAtMost100 l ->
  Forall (fun r => (ofZ 30 < MediaRecommendation.matchPercentage r <= ofZ 100)%num)
    (rank l) /\
  StronglySorted descending (rank l) /\
  (List.length (rank l) <= 7)%nat.
Proof.
  intros H.
  assert (F : Forall (fun r => exists q, MediaRecommendation.matchPercentage r = Fin q
                                          /\ (30 < q <= 100)%Q)
                (filter aboveThreshold l)).
  { apply Forall_forall. intros r Hr. apply filter_In in Hr. destruct Hr as (Hr & G).
    rewrite Forall_forall in H. apply above_and_atMost100; auto. }
  unfold rank. repeat split.
  - apply Forall_forall. intros r Hr. apply In_firstn_in in Hr.
    apply (Permutation_in _ (sort_perm _)) in Hr.
    rewrite Forall_forall in F. destruct (F r Hr) as (q & E & L & U).
    rewrite E. split.
    + unfold lt. cbn. apply negb_true_iff.
      destruct (Qle_bool q (inject_Z 30)) eqn:B; [ | reflexivity].
      apply Qle_bool_iff in B. unfold inject_Z in B. lra.
    + cbn. unfold inject_Z. exact U.
  - apply StronglySorted_firstn, sort_sorted.
    eapply Forall_impl; [ | exact F]. intros r (q & E & _). exists q. exact E.
  - apply firstn_le_length.
Qed.

(** ** The candidates *)

Lemma atMost100_base (b : bool) : atMost100 (if b then ofZ 85 else ofZ 70).
Proof.
  right; right. destruct b; eexists; (split; [reflexivity | ]); unfold inject_Z; lra.
Qed.

Lemma processAIRecommendations_scores w mediaType region aiRecs :
  forall s,
    Forall scoreAtMost100 (fst (processAIRecommendations w aiRecs mediaType region s)).
Proof.
  induction aiRecs as [|rec rest IH]; intros s; cbn [processAIRecommendations].
  - constructor.
  - rewrite run_bind.
    destruct (fst (searchByTitle w _ _ mediaType s)) as [media|]; [ | apply IH].
    repeat rewrite run_bind.
    match goal with
    | |- context [buildRecommendation w media mediaType region ?e ?s'] =>
        destruct (buildRecommendation_spec w media mediaType region e s')
          as (r & E & _ & P & _)
    end.
    rewrite E. unfold ret. cbn [fst]. constructor; [ | apply IH].
    unfold scoreAtMost100. rewrite P. apply atMost100_base.
Qed.

Lemma aiDerived_scores w userInput options s :
  Forall scoreAtMost100 (fst (aiDerived w userInput options s)).
Proof.
  unfold aiDerived. repeat rewrite run_bind.
  destruct (_ && _); [apply processAIRecommendations_scores | constructor].
Qed.

Lemma getHeuristicRecommendations_scores w query analysis options s :
  Forall scoreAtMost100 (fst (getHeuristicRecommendations w query analysis options s)).
Proof.
  pose proof (getHeuristicRecommendations_spec w query analysis options s) as H.
  induction H as [|media r items results (_ & P & _) _ IH]; constructor; [ | exact IH].
  unfold scoreAtMost100. rewrite P. apply heuristicScore_atMost100.
Qed.

Lemma mergedCandidates_scores w userInput options s :
  Forall scoreAtMost100 (fst (mergedCandidates w userInput options s)).
Proof.
  unfold mergedCandidates. rewrite run_bind.
  pose proof (aiDerived_scores w userInput options s) as Hai.
  destruct (_ <? _)%nat; [ | exact Hai].
  rewrite run_bind. unfold ret, mergeHeuristic. cbn [fst].
  apply Forall_app. split; [exact Hai | ].
  apply Forall_forall. intros r Hr. apply filter_In in Hr. destruct Hr as (Hr & _).
  pose proof (getHeuristicRecommendations_scores w userInput
                (analyzeUserInput userInput) options
                (snd (aiDerived w userInput options s))) as Hh.
  rewrite Forall_forall in Hh. apply Hh. exact Hr.
Qed.

Lemma getRecommendations_value w userInput options s :
  fst (getRecommendations w userInput options s)
  = Ok (rank (fst (mergedCandidates w userInput options s))).
Proof. unfold getRecommendations. rewrite run_bind. reflexivity. Qed.

(** C1: [getRecommendations] returns a list; each of its records has a
    match percentage in (30,100]; the list is sorted by descending match
    percentage; records that tie keep the order in which they were
    inserted among the candidates; and the list has at most 7 records. *)
Theorem getRecommendations_ranked w userInput options s :
  exists result,
    fst (getRecommendations w userInput options s) = Ok result /\
    Forall
      (fun r => (ofZ 30 < MediaRecommendation.matchPercentage r <= ofZ 100)%num)
      result /\
    StronglySorted descending result /\
    (forall k, exists rest,
        filter (tiedAt k) (fst (mergedCandidates w userInput options s))
        = (filter (tiedAt k) result ++ rest)%list) /\
    (List.length result <= 7)%nat.
Proof.
  exists (rank (fst (mergedCandidates w userInput options s))).
  destruct (rank_spec _ (mergedCandidates_scores w userInput options s))
    as (R & S & L).
  split; [apply getRecommendations_value | ].
  split; [exact R | ]. split; [exact S | ]. split; [ | exact L].
  intros k. apply rank_stable.
Qed.

(** ** Catalog ids *)

(** C2, at the failing input: the generative service proposes "Alien",
    "Alien: The Director's Cut" and "Aliens", and the catalog resolves the
    first two to the entry 348.  Three records come out of the generative
    path, so that nothing is merged, and the returned list has the id 348
    twice. *)
Theorem duplicate_ids_from_ai_candidates :
  exists result,
    fst (getRecommendations twinWorld "scary space movie" defaultOptions initial)
    = Ok result /\
    idsOf result = [348%Z; 348%Z; 679%Z] /\
    ~ NoDup (idsOf result).
Proof.
  eexists. split; [vm_compute; reflexivity | ].
  split; [reflexivity | ].
  intros H. inversion H as [|? ? N _]. apply N. left. reflexivity.
Qed.

Lemma includesId_In ids i : includesId ids i = true <-> In i ids.
Proof.
  unfold includesId. rewrite existsb_exists. split.
  - intros (j & H & E). apply Z.eqb_eq in E. subst. exact H.
  - intros H. exists i. split; [exact H | apply Z.eqb_refl].
Qed.

Lemma combine_results_ids mediaType items :
  forall seen,
    NoDup (map TMDBMedia.id (combine_results mediaType seen items)) /\
    forall i, In i (map TMDBMedia.id (combine_results mediaType seen items)) ->
              ~ In i seen.
Proof.
  induction items as [|item rest IH]; intros seen; cbn [combine_results].
  - split; [constructor | intros i []].
  - destruct (includesId seen (TMDBMedia.id item)) eqn:S; [apply IH | ].
    destruct (isAnime mediaType && _); [apply IH | ].
    destruct (IH (TMDBMedia.id item :: seen)) as (N & D).
    cbn [map TMDBMedia.id]. split.
    + constructor; [ | exact N].
      intros HI. apply (D _ HI). left. reflexivity.
    + intros i [<- | HI].
      * intros HS. apply includesId_In in HS. congruence.
      * intros HS. apply (D i HI). right. exact HS.
Qed.

Lemma searchMedia_ids w query options s :
  NoDup (map TMDBMedia.id (fst (searchMedia w query options s))).
Proof.
  unfold searchMedia. repeat rewrite run_bind.
  destruct (fst (getGenreMaps _ _ _)); [ | constructor].
  repeat rewrite run_bind.
  repeat match goal with
         | |- context [match fst (request ?w' ?r ?s') with _ => _ end] =>
             destruct (fst (request w' r s')) as [[]|]
         end; try constructor.
  apply combine_results_ids.
Qed.

Lemma NoDup_firstn {A} n (l : list A) : NoDup l -> NoDup (firstn n l).
Proof.
  intros H. rewrite <- (firstn_skipn n l) in H.
  apply NoDup_app_remove_r in H. exact H.
Qed.

Lemma NoDup_map_filter {A B} (f : A -> B) (P : A -> bool) l :
  NoDup (map f l) -> NoDup (map f (filter P l)).
Proof.
  induction l as [|x l IH]; cbn [map filter]; intros H; [exact H | ].
  inversion H as [|? ? N H']; subst.
  destruct (P x); [ | auto].
  cbn [map]. constructor; [ | auto].
  intros HI. apply N. apply in_map_iff in HI. destruct HI as (y & E & Hy).
  apply filter_In in Hy. apply in_map_iff. exists y. tauto.
Qed.

Lemma builtFrom_ids score items results :
  Forall2 (builtFrom score) items results ->
  idsOf results = map TMDBMedia.id items.
Proof.
  induction 1 as [|m r items results (I & _) _ IH]; [reflexivity | ].
  unfold idsOf in *. cbn [map]. rewrite I, IH. reflexivity.
Qed.

Lemma getHeuristicRecommendations_ids w query analysis options s :
  NoDup (idsOf (fst (getHeuristicRecommendations w query analysis options s))).
Proof.
  rewrite (builtFrom_ids _ _ _
             (getHeuristicRecommendations_spec w query analysis options s)).
  rewrite <- firstn_map. apply NoDup_firstn, searchMedia_ids.
Qed.

Lemma mergeHeuristic_ids recommendations heuristicResults :
  NoDup (idsOf recommendations) -> NoDup (idsOf heuristicResults) ->
  NoDup (idsOf (mergeHeuristic recommendations heuristicResults)).
Proof.
  intros Hr Hh. unfold mergeHeuristic, idsOf. rewrite map_app.
  apply NoDup_app; [exact Hr | apply NoDup_map_filter; exact Hh | ].
  intros i Hi Hj. apply in_map_iff in Hj. destruct Hj as (r & <- & Hj).
  apply filter_In in Hj. destruct Hj as (_ & Hj).
  apply negb_true_iff in Hj.
  apply includesId_In in Hi. unfold existingIds in Hj. congruence.
Qed.

Lemma rank_ids l : NoDup (idsOf l) -> NoDup (idsOf (rank l)).
Proof.
  intros H. unfold rank, idsOf. rewrite <- firstn_map. apply NoDup_firstn.
  eapply Permutation_NoDup;
    [apply Permutation_map, Permutation_sym, sort_perm | ].
  apply NoDup_map_filter. exact H.
Qed.

(** What the merge and the gateway do ensure: if the records of the
    generative path have pairwise distinct ids, so has the returned list. *)
Lemma ids_unique_when_ai_ids_distinct w userInput options s :
  NoDup (idsOf (fst (aiDerived w userInput options s))) ->
  exists result,
    fst (getRecommendations w userInput options s) = Ok result /\
    NoDup (idsOf result).
Proof.
  intros H. eexists. split; [apply getRecommendations_value | ].
  apply rank_ids. unfold mergedCandidates. rewrite run_bind.
  destruct (_ <? _)%nat; [ | exact H].
  rewrite run_bind. unfold ret. cbn [fst].
  apply mergeHeuristic_ids; [exact H | apply getHeuristicRecommendations_ids].
Qed.

(** ** The missing credential *)

Lemma getGenAI_absent w s :
  genAI s = None -> keyAbsent w -> getGenAI w s = (Throw missingKeyMessage, s).
Proof.
  intros Hg Hk. unfold getGenAI. rewrite Hg.
  unfold keyAbsent, truthyOpt in Hk.
  destruct (VITE_GEMINI_API_KEY w); [rewrite Hk | ]; reflexivity.
Qed.

Lemma getAIRecommendations_absent w userPrompt mediaType hiddenGems fresh s :
  genAI s = None -> keyAbsent w ->
  fst (getAIRecommendations w userPrompt mediaType hiddenGems fresh s)
  = aiFailure missingKeyMessage.
Proof.
  intros Hg Hk. unfold getAIRecommendations. repeat rewrite run_bind.
  rewrite getGenAI_absent; [reflexivity | exact Hg | exact Hk].
Qed.

Lemma genAI_getRecentReleases w mediaType limit s :
  genAI (snd (getRecentReleases w mediaType limit s)) = genAI s.
Proof.
  unfold getRecentReleases. repeat rewrite run_bind.
  destruct (fst (request _ _ _)) as [[]|]; reflexivity.
Qed.

Lemma aiDerived_absent w userInput options s :
  genAI s = None -> keyAbsent w -> fst (aiDerived w userInput options s) = [].
Proof.
  intros Hg Hk. unfold aiDerived. rewrite run_bind. rewrite run_bind.
  rewrite getAIRecommendations_absent; [reflexivity | | exact Hk].
  destruct (AnalyzedInput.wantsRecent _); [ | exact Hg].
  rewrite run_bind. cbn [ret snd]. rewrite genAI_getRecentReleases. exact Hg.
Qed.

Lemma rank_incl r l : In r (rank l) -> In r l.
Proof.
  unfold rank. intros H. apply In_firstn_in in H.
  apply (Permutation_in _ (sort_perm _)) in H.
  apply filter_In in H. tauto.
Qed.

Lemma getHeuristicRecommendations_unexplained w query analysis options s :
  Forall (fun r => MediaRecommendation.aiExplanation r = None)
    (fst (getHeuristicRecommendations w query analysis options s)).
Proof.
  pose proof (getHeuristicRecommendations_spec w query analysis options s) as H.
  induction H as [|media r items results (_ & _ & X) _ IH]; constructor; auto.
Qed.

(** C4, counterexample: without the credential the call is fulfilled. *)
Lemma missing_key_raises_as_stated_fails : ~ missing_key_raises_as_stated.
Proof.
  intros H.
  destruct (H keylessWorld "scary space movie" defaultOptions initial
              eq_refl eq_refl) as (message & E).
  rewrite getRecommendations_value in E. discriminate.
Qed.

(** C4, amended: when the credential of the generative service is absent
    and no client exists yet, [getGenAI] throws the explicit configuration
    error; [getAIRecommendations] catches it and reports a failure that
    carries its message; and [getRecommendations] does not raise: it enters
    the free-text search once and returns records of the heuristic path
    only. *)
Theorem missing_key_falls_back w userInput options s :
  genAI s = None -> keyAbsent w ->
  fst (getGenAI w s) = Throw missingKeyMessage /\
  (forall userPrompt mediaType hiddenGems fresh,
     fst (getAIRecommendations w userPrompt mediaType hiddenGems fresh s)
     = {| GeminiRecommendationResult.recommendations := [];
          GeminiRecommendationResult.success := false;
          GeminiRecommendationResult.error :=
            Some "VITE_GEMINI_API_KEY is not set in environment variables" |}) /\
  exists result,
    fst (getRecommendations w userInput options s) = Ok result /\
    Forall (fun r => MediaRecommendation.aiExplanation r = None) result /\
    searchMediaCalls (events_of (getRecommendations w userInput options) s) = 1%nat.
Proof.
  intros Hg Hk. split; [rewrite getGenAI_absent; auto | ].
  split; [intros; apply getAIRecommendations_absent; assumption | ].
  eexists. split; [apply getRecommendations_value | ]. split.
  - apply Forall_forall. intros r Hr. apply rank_incl in Hr.
    unfold mergedCandidates in Hr. rewrite run_bind in Hr.
    rewrite (aiDerived_absent w userInput options s Hg Hk) in Hr.
    cbn [List.length Nat.ltb Nat.leb] in Hr. rewrite run_bind in Hr.
    unfold ret, mergeHeuristic in Hr. cbn [fst app] in Hr.
    apply filter_In in Hr. destruct Hr as (Hr & _).
    pose proof (getHeuristicRecommendations_unexplained w userInput
                  (analyzeUserInput userInput) options
                  (snd (aiDerived w userInput options s))) as U.
    rewrite Forall_forall in U. exact (U r Hr).
  - rewrite getRecommendations_calls, (aiDerived_absent w userInput options s Hg Hk).
    reflexivity.
Qed.

Lemma missing_key_falls_back_witness :
  exists result,
    fst (getRecommendations keylessWorld "scary space movie" defaultOptions initial)
    = Ok result /\
    Forall (fun r => MediaRecommendation.aiExplanation r = None) result.
Proof.
  destruct (missing_key_falls_back keylessWorld "scary space movie" defaultOptions
              initial eq_refl eq_refl) as (_ & _ & result & E & U & _).
  exists result. split; [exact E | exact U].
Defined.

(** ** The length of the text *)

Lemma In_events_bind_l {A B} (m : M A) (k : A -> M B) s e :
  Emits anyEvent m -> (forall a, Emits anyEvent (k a)) ->
  In e (events_of m s) -> In e (events_of (bind m k) s).
Proof.
  intros Hm Hk H. rewrite events_of_bind by assumption.
  apply in_or_app. left. exact H.
Qed.

Lemma In_events_bind_r {A B} (m : M A) (k : A -> M B) s e :
  Emits anyEvent m -> (forall a, Emits anyEvent (k a)) ->
  In e (events_of (k (fst (m s))) (snd (m s))) -> In e (events_of (bind m k) s).
Proof.
  intros Hm Hk H. rewrite events_of_bind by assumption.
  apply in_or_app. right. exact H.
Qed.

Lemma In_events_after_emit {A} (e : Event) (k : M A) s :
  Emits anyEvent k -> In e (events_of (bind (emit e) (fun _ => k)) s).
Proof.
  intros H. destruct (Emits_after_emit anyEvent e k H s) as (evs & E & _).
  rewrite (events_of_eq _ _ _ E). left. reflexivity.
Qed.

Lemma getAIRecommendations_enters w userPrompt mediaType hiddenGems fresh s :
  In (Called fn_getAIRecommendations)
    (events_of (getAIRecommendations w userPrompt mediaType hiddenGems fresh) s).
Proof.
  unfold getAIRecommendations. apply In_events_after_emit.
  apply Emits_bind; [apply Emits_getGenAI; intros; exact I | intros ai].
  destruct ai; [ | apply Emits_ret].
  apply Emits_bind; [apply Emits_request; exact I | intros r].
  emits.
Qed.

Lemma grows_getAIRecommendations w userPrompt mediaType hiddenGems fresh :
  Emits anyEvent (getAIRecommendations w userPrompt mediaType hiddenGems fresh).
Proof. apply Emits_getAIRecommendations; intros; exact I. Qed.

Lemma aiDerived_enters w userInput options s :
  In (Called fn_getAIRecommendations) (events_of (aiDerived w userInput options) s).
Proof.
  unfold aiDerived. apply In_events_bind_r.
  - destruct (AnalyzedInput.wantsRecent _); [ | apply Emits_ret].
    apply Emits_bind; [ | intros; apply Emits_ret].
    apply Emits_getRecentReleases; intros; exact I.
  - intros fresh.
    apply Emits_bind; [apply grows_getAIRecommendations | intros ai].
    destruct (_ && _); [ | apply Emits_ret].
    apply Emits_processAIRecommendations; intros; exact I.
  - apply In_events_bind_l.
    + apply grows_getAIRecommendations.
    + intros ai. destruct (_ && _); [ | apply Emits_ret].
      apply Emits_processAIRecommendations; intros; exact I.
    + apply getAIRecommendations_enters.
Qed.

Lemma getRecommendations_enters w userInput options s :
  In (Called fn_getAIRecommendations)
    (events_of (getRecommendations w userInput options) s).
Proof.
  unfold getRecommendations.
  apply In_events_bind_l;
    [apply grows_mergedCandidates | intros; apply Emits_ret | ].
  unfold mergedCandidates. apply In_events_bind_l.
  - apply grows_aiDerived.
  - intros recs. destruct (_ <? _)%nat; [ | apply Emits_ret].
    apply Emits_bind;
      [apply grows_getHeuristicRecommendations | intros; apply Emits_ret].
  - apply aiDerived_enters.
Qed.

(** *** Tokens and the pieces between single spaces *)

Lemma split_gap_irrelevant (r : string) :
  filter JsString.truthy (split_regex_ws true "" r)
  = filter JsString.truthy (split_regex_ws false "" r).
Proof.
  destruct r as [|c r]; [reflexivity | ].
  cbn [split_regex_ws]. destruct (isWhitespace c); reflexivity.
Qed.

Lemma tokens_trimStart (s : string) : tokens (trimStart s) = tokens s.
Proof.
  unfold tokens, splitWhitespace.
  induction s as [|c r IH]; [reflexivity | ].
  cbn [trimStart split_regex_ws]. destruct (isWhitespace c) eqn:W.
  - rewrite IH. cbn [filter JsString.truthy]. symmetry. apply split_gap_irrelevant.
  - cbn [split_regex_ws]. rewrite W. reflexivity.
Qed.

Lemma split_regex_ws_cons (gap : bool) (cur : string) (c : ascii) (r : string) :
  split_regex_ws gap cur (String c r)
  = if isWhitespace c then
      if gap then split_regex_ws true cur r
      else cur :: split_regex_ws true "" r
    else split_regex_ws false (cur ++ String c "") r.
Proof. reflexivity. Qed.

Lemma split_trimEnd (s : string) :
  forall gap cur,
    filter JsString.truthy (split_regex_ws gap cur (trimEnd s))
    = filter JsString.truthy (split_regex_ws gap cur s).
Proof.
  induction s as [|c r IH]; intros gap cur; [reflexivity | ].
  cbn [trimEnd]. destruct (trimEnd r) as [|d r'] eqn:T.
  - destruct (isWhitespace c) eqn:W.
    + cbn [split_regex_ws]. rewrite W. destruct gap.
      * rewrite <- IH. reflexivity.
      * cbn [filter]. rewrite <- IH. cbn [split_regex_ws filter JsString.truthy].
        destruct cur; reflexivity.
    + cbn [split_regex_ws]. rewrite W. rewrite <- IH. reflexivity.
  - rewrite (split_regex_ws_cons gap cur c (String d r')),
      (split_regex_ws_cons gap cur c r).
    destruct (isWhitespace c).
    + destruct gap; [apply IH | ]. cbn [filter]. rewrite IH. reflexivity.
    + apply IH.
Qed.

Lemma tokens_trim (s : string) : tokens (trim s) = tokens s.
Proof.
  unfold trim. rewrite <- (tokens_trimStart s).
  unfold tokens, splitWhitespace. apply split_trimEnd.
Qed.

Lemma truthy_append (cur : string) (c : ascii) :
  JsString.truthy (cur ++ String c "") = true.
Proof. destruct cur; reflexivity. Qed.

Lemma spaced_split (t : string) :
  forall cur solid,
    spacedFrom solid t = true -> solid = JsString.truthy cur ->
    split_on " " cur t = split_regex_ws false cur t /\
    forallb JsString.truthy (split_on " " cur t) = true.
Proof.
  induction t as [|c r IH]; intros cur solid H S.
  - cbn in *. rewrite <- S, H. split; reflexivity.
  - cbn [spacedFrom] in H. cbn [split_on split_regex_ws].
    destruct (isWhitespace c) eqn:W.
    + apply andb_true_iff in H. destruct H as (H & Hr).
      apply andb_true_iff in H. destruct H as (Hc & Hs).
      rewrite Hc. destruct (IH "" false Hr eq_refl) as (E & F).
      assert (G : split_regex_ws true "" r = split_regex_ws false "" r).
      { destruct r as [|d r']; [discriminate Hr | ].
        cbn [spacedFrom] in Hr. cbn [split_regex_ws].
        destruct (isWhitespace d); [ | reflexivity].
        rewrite andb_false_r in Hr. discriminate Hr. }
      rewrite G, E. split; [reflexivity | ].
      cbn [forallb]. rewrite <- E, F, <- S, Hs. reflexivity.
    + destruct (Ascii.eqb c " ") eqn:Ec.
      * apply Ascii.eqb_eq in Ec. subst c. discriminate W.
      * apply (IH (cur ++ String c "") true H). symmetry. apply truthy_append.
Qed.

Lemma filter_forallb {A} (P : A -> bool) (l : list A) :
  forallb P l = true -> filter P l = l.
Proof.
  induction l as [|x l IH]; [reflexivity | ].
  cbn [forallb filter]. intros H. apply andb_true_iff in H. destruct H as (Hx & Hl).
  rewrite Hx, (IH Hl). reflexivity.
Qed.

(** On a text written with single spaces the pieces between the spaces
    are the tokens. *)
Lemma singleSpaced_pieces (input : string) :
  singleSpaced (trim input) = true ->
  (List.length (splitSpace (trim input)) <= Nat.max 1 (List.length (tokens input)))%nat.
Proof.
  intros H. rewrite <- (tokens_trim input).
  destruct (trim input) as [|c r] eqn:T.
  - cbn. lia.
  - unfold singleSpaced in H.
    destruct (spaced_split (String c r) "" false H eq_refl) as (E & F).
    unfold tokens, splitWhitespace, splitSpace. rewrite <- E, (filter_forallb _ _ F). lia.
Qed.

(** C5, counterexample: the one-token text "hi" is accepted. *)
Lemma short_input_rejected_as_stated_fails : ~ short_input_rejected_as_stated.
Proof.
  intros H.
  destruct (H offlineWorld "hi" defaultOptions initial) as (message & E & _).
  - vm_compute. lia.
  - vm_compute in E. discriminate.
Qed.

(** C5, amended: the check on the length of the text is made by the submit
    handler, not by [getRecommendations].  For a text of fewer than 3
    tokens that is written with single spaces, [handleSubmit] shows an
    alert and stops: it sets no result and issues no call at all.
    [getRecommendations] does not look at the length: called with the same
    text it enters the generative path. *)
Theorem handleSubmit_rejects_short_input w options input s :
  (List.length (tokens input) < 3)%nat ->
  singleSpaced (trim input) = true ->
  fst (handleSubmit w options input s) = None /\
  events_of (handleSubmit w options input) s
  = [Alerted "Please provide a more detailed description (at least 3 words)"] /\
  In (Called fn_getAIRecommendations)
    (events_of (getRecommendations w input options) s).
Proof.
  intros H S. pose proof (singleSpaced_pieces input S) as P.
  assert (L : (List.length (splitSpace (trim input)) <? 3)%nat = true)
    by (apply Nat.ltb_lt; lia).
  unfold handleSubmit. rewrite L.
  split; [reflexivity | ].
  split; [apply events_of_eq; reflexivity | ].
  apply getRecommendations_enters.
Qed.

Lemma handleSubmit_rejects_short_input_witness :
  fst (handleSubmit catalogWorld defaultOptions "  hi there " initial) = None /\
  (List.length (tokens "  hi there ") < 3)%nat /\
  singleSpaced (trim "  hi there ") = true.
Proof.
  assert (L : (List.length (tokens "  hi there ") < 3)%nat) by (vm_compute; lia).
  assert (S : singleSpaced (trim "  hi there ") = true) by (vm_compute; reflexivity).
  split; [ | split; [exact L | exact S]].
  exact (proj1 (handleSubmit_rejects_short_input catalogWorld defaultOptions
                  "  hi there " initial L S)).
Defined.

(** The handler counts the pieces between single spaces, not the tokens: a
    text of two tokens with a doubled space goes through, and a text of
    three tokens separated by tabs is turned down. *)
Example handleSubmit_counts_space_pieces :
  List.length (tokens "horror  films") = 2%nat /\
  In (Called fn_getAIRecommendations)
    (log (snd (handleSubmit offlineWorld defaultOptions "horror  films" initial))) /\
  List.length (tokens (String "a" (String "009" (String "b" (String "009" "c"))))) = 3%nat /\
  fst (handleSubmit offlineWorld defaultOptions
         (String "a" (String "009" (String "b" (String "009" "c")))) initial) = None.
Proof. vm_compute. repeat split. left. reflexivity. Qed.

(** * Further properties *)

(** ** Texts *)

Lemma append_assoc_string (a b c : string) : ((a ++ b) ++ c)%string = (a ++ b ++ c)%string.
Proof. induction a as [|x a IH]; simpl; [reflexivity | rewrite IH; reflexivity]. Qed.

Lemma append_empty_r (a : string) : (a ++ "")%string = a.
Proof. induction a as [|x a IH]; simpl; [reflexivity | rewrite IH; reflexivity]. Qed.

Lemma hasWhitespace_app (a b : string) :
  hasWhitespace (a ++ b) = hasWhitespace a || hasWhitespace b.
Proof.
  induction a as [|x a IH]; simpl; [reflexivity | ].
  rewrite IH, orb_assoc. reflexivity.
Qed.

Lemma onlyWhitespace_app (a b : string) :
  onlyWhitespace (a ++ b) = onlyWhitespace a && onlyWhitespace b.
Proof.
  induction a as [|x a IH]; simpl; [reflexivity | ].
  rewrite IH, andb_assoc. reflexivity.
Qed.

Lemma Substring_trans (a b c : string) :
  Substring a b -> Substring b c -> Substring a c.
Proof.
  intros (p1 & q1 & ->) (p2 & q2 & ->).
  exists (p2 ++ p1)%string, (q1 ++ q2)%string.
  rewrite !append_assoc_string. reflexivity.
Qed.

Lemma Substring_no_whitespace (sub s : string) :
  Substring sub s -> hasWhitespace s = false -> hasWhitespace sub = false.
Proof.
  intros (pre & post & ->). rewrite !hasWhitespace_app.
  intros H. apply orb_false_iff in H. destruct H as (_ & H).
  apply orb_false_iff in H. tauto.
Qed.

Lemma Substring_only_whitespace (sub s : string) :
  Substring sub s -> onlyWhitespace s = true -> onlyWhitespace sub = true.
Proof.
  intros (pre & post & ->). rewrite !onlyWhitespace_app.
  intros H. apply andb_true_iff in H. destruct H as (_ & H).
  apply andb_true_iff in H. tauto.
Qed.

Lemma isWhitespace_lowerChar (c : ascii) : isWhitespace (lowerChar c) = isWhitespace c.
Proof.
  destruct c as [[] [] [] [] [] [] [] []]; reflexivity.
Qed.

Lemma hasWhitespace_toLowerCase (s : string) :
  hasWhitespace (toLowerCase s) = hasWhitespace s.
Proof.
  induction s as [|c s IH]; simpl; [reflexivity | ].
  rewrite isWhitespace_lowerChar, IH. reflexivity.
Qed.

Lemma onlyWhitespace_toLowerCase (s : string) :
  onlyWhitespace (toLowerCase s) = onlyWhitespace s.
Proof.
  induction s as [|c s IH]; simpl; [reflexivity | ].
  rewrite isWhitespace_lowerChar, IH. reflexivity.
Qed.

(** The pieces of [split(/\s+/)]: each is free of whitespace and occurs in
    the text. *)
Lemma split_regex_ws_pieces (s : string) :
  forall gap cur word,
    (gap = true -> cur = EmptyString) ->
    In word (split_regex_ws gap cur s) ->
    (exists p post, s = (p ++ post)%string /\ word = (cur ++ p)%string
                    /\ hasWhitespace p = false /\ gap = false) \/
    (Substring word s /\ hasWhitespace word = false).
Proof.
  induction s as [|c r IH]; intros gap cur word Hgap HI; cbn [split_regex_ws] in HI.
  - destruct HI as [<- | []]. destruct gap.
    + right. rewrite (Hgap eq_refl). split; [exists "", ""; reflexivity | reflexivity].
    + left. exists "", "". rewrite (append_empty_r cur). repeat split; reflexivity.
  - destruct (isWhitespace c) eqn:W.
    + assert (T : forall word',
                 In word' (split_regex_ws true "" r) ->
                 Substring word' (String c r) /\ hasWhitespace word' = false).
      { intros word' H'. destruct (IH true "" word' (fun _ => eq_refl) H')
          as [(p & post & _ & _ & _ & F) | (S & N)]; [discriminate | ].
        split; [ | exact N].
        apply (Substring_trans _ _ _ S). exists (String c ""), "".
        simpl. rewrite append_empty_r. reflexivity. }
      destruct gap.
      * right. rewrite (Hgap eq_refl) in HI. apply T. exact HI.
      * destruct HI as [<- | HI]; [ | right; apply T; exact HI].
        left. exists "", (String c r). rewrite (append_empty_r cur). repeat split; reflexivity.
    + destruct (IH false (cur ++ String c "")%string word (fun H => False_ind _ (diff_false_true H)) HI)
        as [(p & post & -> & -> & N & _) | (S & N)].
      * destruct gap.
        -- right. rewrite (Hgap eq_refl). simpl. split.
           ++ exists "", post. reflexivity.
           ++ rewrite W, N. reflexivity.
        -- left. exists (String c p), post. rewrite append_assoc_string. simpl.
           rewrite W, N. repeat split; reflexivity.
      * right. split; [ | exact N].
        apply (Substring_trans _ _ _ S). exists (String c ""), "".
        simpl. rewrite append_empty_r. reflexivity.
Qed.

Lemma splitWhitespace_pieces (s word : string) :
  In word (splitWhitespace s) -> Substring word s /\ hasWhitespace word = false.
Proof.
  intros H. destruct (split_regex_ws_pieces s false "" word) as
    [(p & post & -> & -> & N & _) | R]; [discriminate | exact H | | exact R].
  split; [exists "", post; reflexivity | exact N].
Qed.

(** ** The analyzer, further *)

(** X1: a tag that [findKeywordMatches] reports is a key of the dictionary,
    and one of its keywords is free of whitespace and occurs, lower-cased,
    in the lower-cased text.  A keyword of several words ("science
    fiction", "true story", "all ages") therefore never triggers its
    tag. *)
Theorem findKeywordMatches_sound text dictionary tag :
  In tag (findKeywordMatches text dictionary) ->
  exists keywords keyword,
    In (tag, keywords) dictionary /\
    In keyword keywords /\
    hasWhitespace keyword = false /\
    Substring (toLowerCase keyword) (toLowerCase text).
Proof.
  unfold findKeywordMatches. intros H.
  apply in_map_iff in H. destruct H as ((tag' & keywords) & E & H). simpl in E. subst tag'.
  apply filter_In in H. destruct H as (HI & H). cbn [snd] in H.
  apply existsb_exists in H. destruct H as (keyword & Hk & H).
  apply existsb_exists in H. destruct H as (word & Hw & H).
  apply includes_spec in H.
  destruct (splitWhitespace_pieces _ _ Hw) as (S & N).
  exists keywords, keyword. repeat split; auto.
  - rewrite <- hasWhitespace_toLowerCase. exact (Substring_no_whitespace _ _ H N).
  - exact (Substring_trans _ _ _ H S).
Qed.

Lemma findKeywordMatches_sound_witness :
  exists keywords keyword,
    In ("comedy", keywords) genreKeywords /\
    In keyword keywords /\
    hasWhitespace keyword = false /\
    Substring (toLowerCase keyword) (toLowerCase "A Hilarious road movie").
Proof.
  apply (findKeywordMatches_sound "A Hilarious road movie" genreKeywords "comedy").
  vm_compute. left. reflexivity.
Defined.

Example science_fiction_is_not_matched :
  findKeywordMatches "a science fiction classic" genreKeywords = [].
Proof. vm_compute. reflexivity. Qed.

Lemma includes_blank (s keyword : string) :
  onlyWhitespace s = true -> startsSolid keyword = true -> includes s keyword = false.
Proof.
  intros B K. destruct (includes s keyword) eqn:E; [ | reflexivity].
  apply includes_spec in E.
  pose proof (Substring_only_whitespace _ _ E B) as W.
  destruct keyword as [|c k]; [discriminate | ]. simpl in *.
  destruct (isWhitespace c); discriminate.
Qed.

Lemma existsb_includes_blank (s : string) (keywords : list string) :
  onlyWhitespace s = true ->
  forallb startsSolid keywords = true ->
  existsb (fun word => includes s word) keywords = false.
Proof.
  intros B. induction keywords as [|k l IH]; simpl; [reflexivity | ].
  intros H. apply andb_true_iff in H. destruct H as (K & H).
  rewrite (includes_blank s k B K). apply IH. exact H.
Qed.

Lemma findKeywordMatches_blank text dictionary :
  onlyWhitespace text = true -> solidDictionary dictionary = true ->
  findKeywordMatches text dictionary = [].
Proof.
  intros B D. unfold findKeywordMatches.
  replace (filter _ dictionary) with (@nil (string * list string)); [reflexivity | ].
  symmetry. unfold solidDictionary in D.
  induction dictionary as [|(tag, keywords) rest IH]; [reflexivity | ].
  cbn [filter snd forallb] in *. apply andb_true_iff in D. destruct D as (K & D).
  rewrite (IH D).
  replace (existsb _ keywords) with false; [reflexivity | ].
  symmetry. clear IH D.
  induction keywords as [|k l IH]; [reflexivity | ].
  cbn [forallb existsb] in *. apply andb_true_iff in K. destruct K as (K & L).
  rewrite (IH L), orb_false_r.
  destruct (existsb _ (splitWhitespace (toLowerCase text))) eqn:E; [ | reflexivity].
  apply existsb_exists in E. destruct E as (word & Hw & E).
  destruct (splitWhitespace_pieces _ _ Hw) as (S & _).
  rewrite includes_blank in E; [discriminate | | exact K].
  apply (Substring_only_whitespace _ _ S).
  rewrite onlyWhitespace_toLowerCase. exact B.
Qed.

(** X2: on a text that is empty or made of whitespace only, the analyzer
    yields no genre, no emotion, the intensity 5, no language, and no wish
    for recent titles. *)
Theorem analyzeUserInput_blank text :
  onlyWhitespace text = true -> analyzeUserInput text = blankAnalysis.
Proof.
  intros B.
  assert (L : onlyWhitespace (toLowerCase text) = true)
    by (rewrite onlyWhitespace_toLowerCase; exact B).
  unfold analyzeUserInput, detectLanguage, detectRecency.
  rewrite (existsb_includes_blank _ intensityWords_high L eq_refl).
  rewrite (existsb_includes_blank _ intensityWords_low L eq_refl).
  rewrite (existsb_includes_blank _ recencyWords L eq_refl).
  rewrite (findKeywordMatches_blank text genreKeywords B eq_refl).
  rewrite (findKeywordMatches_blank text emotionKeywords B eq_refl).
  destruct (find _ languageKeywords) as [(k, code)|] eqn:E; [ | reflexivity].
  apply find_some in E. destruct E as (HI & E). cbn [fst] in E.
  assert (S : Forall (fun entry => startsSolid (fst entry) = true) languageKeywords)
    by (repeat constructor).
  rewrite Forall_forall in S.
  rewrite (includes_blank _ k L (S _ HI)) in E. discriminate.
Qed.

Lemma analyzeUserInput_blank_witness :
  analyzeUserInput (String " " (String "009" (String "010" " "))) = blankAnalysis.
Proof.
  apply analyzeUserInput_blank. reflexivity.
Defined.

Lemma find_first {A} (f : A -> bool) (l : list A) (x : A) :
  find f l = Some x ->
  exists earlier later,
    l = (earlier ++ x :: later)%list /\ f x = true /\
    Forall (fun y => f y = false) earlier.
Proof.
  induction l as [|y l IH]; simpl; [discriminate | ].
  destruct (f y) eqn:E.
  - intros H. injection H as ->. exists [], l. auto.
  - intros H. destruct (IH H) as (earlier & later & -> & Fx & Fe).
    exists (y :: earlier), later. auto.
Qed.

Lemma find_after {A} (f : A -> bool) (earlier later : list A) (x : A) :
  Forall (fun y => f y = false) earlier -> f x = true ->
  find f (earlier ++ x :: later) = Some x.
Proof.
  intros Fe Fx. induction Fe as [|y earlier Fy _ IH]; cbn [app find].
  - rewrite Fx. reflexivity.
  - rewrite Fy. exact IH.
Qed.

Lemma find_nowhere {A} (f : A -> bool) (l : list A) :
  find f l = None <-> Forall (fun y => f y = false) l.
Proof.
  induction l as [|y l IH]; cbn [find].
  - split; [constructor | reflexivity].
  - destruct (f y) eqn:E.
    + split; [discriminate | ]. intros H. inversion H. congruence.
    + rewrite IH. split; [intros H; constructor; assumption | ].
      intros H. inversion H. assumption.
Qed.

Lemma not_included (text keyword : string) :
  includes text keyword = false <-> ~ Substring keyword text.
Proof.
  rewrite <- includes_spec. destruct (includes text keyword); split; intros H.
  - discriminate.
  - exfalso. apply H. reflexivity.
  - discriminate.
  - reflexivity.
Qed.

(** X3: the analyzer detects a language exactly when a keyword of the
    language table occurs in the lower-cased text, and the language is the
    code of the first entry of the table, in the order of the table, whose
    keyword occurs; a later keyword that occurs too is ignored.  When no
    keyword occurs, no language is detected. *)
Theorem detectLanguage_first_match text :
  (forall code,
     detectLanguage text = Some code <->
     exists earlier keyword later,
       languageKeywords = (earlier ++ (keyword, code) :: later)%list /\
       Substring keyword (toLowerCase text) /\
       Forall (fun entry => ~ Substring (fst entry) (toLowerCase text)) earlier) /\
  (detectLanguage text = None <->
   Forall (fun entry => ~ Substring (fst entry) (toLowerCase text)) languageKeywords).
Proof.
  unfold detectLanguage. cbv zeta. split.
  - intros code. split.
    + intros H.
      destruct (find _ languageKeywords) as [(keyword, code')|] eqn:E; [ | discriminate].
      simpl in H. injection H as ->.
      destruct (find_first _ _ _ E) as (earlier & later & L & Fx & Fe).
      exists earlier, keyword, later. split; [exact L | ]. split.
      * apply includes_spec. exact Fx.
      * eapply Forall_impl; [ | exact Fe]. intros entry F.
        apply not_included. exact F.
    + intros (earlier & keyword & later & L & S & Fe). rewrite L.
      rewrite find_after; [reflexivity | | ].
      * eapply Forall_impl; [ | exact Fe]. intros entry F.
        apply not_included. exact F.
      * apply includes_spec. exact S.
  - split.
    + intros H.
      destruct (find _ languageKeywords) as [entry|] eqn:E; [discriminate | ].
      apply find_nowhere in E.
      eapply Forall_impl; [ | exact E]. intros entry F. apply not_included. exact F.
    + intros F.
      assert (E : find (fun entry => includes (toLowerCase text) (fst entry))
                    languageKeywords = None).
      { apply find_nowhere. eapply Forall_impl; [ | exact F].
        intros entry N. apply not_included. exact N. }
      rewrite E. reflexivity.
Qed.

Example detectLanguage_ignores_later_keywords :
  detectLanguage "An Indian thriller dubbed in Tamil" = Some "ta" /\
  detectLanguage "A Korean revenge story" = Some "ko" /\
  detectLanguage "A quiet week-end" = None.
Proof. repeat split. Qed.


(** ** Watch providers *)

Lemma processProviders_spec (l : list WatchProviderOption.t) (type : ProviderType) :
  forall acc,
    (forall n, In n (snd acc) <-> In n (map StreamingProvider.name (fst acc))) ->
    NoDup (map StreamingProvider.name (fst acc)) ->
    let acc' := processProviders l type acc in
    (forall n, In n (snd acc') <-> In n (map StreamingProvider.name (fst acc'))) /\
    NoDup (map StreamingProvider.name (fst acc')) /\
    exists new,
      fst acc' = (fst acc ++ new)%list /\
      (forall p, In p new ->
                 StreamingProvider.type p = type /\
                 In (StreamingProvider.name p) (map WatchProviderOption.provider_name l) /\
                 ~ In (StreamingProvider.name p) (map StreamingProvider.name (fst acc))) /\
      (forall n, In n (map WatchProviderOption.provider_name l) ->
                 In n (map StreamingProvider.name (fst acc'))).
Proof.
  induction l as [|provider rest IH]; intros acc Hs Hn; cbn [processProviders].
  - cbv zeta. split; [exact Hs | ]. split; [exact Hn | ].
    exists []. rewrite app_nil_r. split; [reflexivity | ]. split; intros ? [].
  - destruct (existsb _ (snd acc)) eqn:E.
    + destruct (IH acc Hs Hn) as (Hs' & Hn' & new & Ef & Hnew & Hall).
      cbv zeta. split; [exact Hs' | ]. split; [exact Hn' | ].
      exists new. split; [exact Ef | ]. split.
      * intros p Hp. destruct (Hnew p Hp) as (T & I1 & I2).
        split; [exact T | ]. split; [right; exact I1 | exact I2].
      * intros n [<- | Hin]; [ | apply Hall; exact Hin].
        rewrite Ef, map_app. apply in_or_app. left. apply Hs.
        apply existsb_exists in E. destruct E as (m & Hm & E).
        apply String.eqb_eq in E. subst. exact Hm.
    + set (p0 := {| StreamingProvider.name := WatchProviderOption.provider_name provider;
                    StreamingProvider.logo := _; StreamingProvider.type := type |}).
      assert (Fresh : ~ In (WatchProviderOption.provider_name provider)
                        (map StreamingProvider.name (fst acc))).
      { intros Hin. apply Hs in Hin.
        assert (X : existsb (String.eqb (WatchProviderOption.provider_name provider))
                      (snd acc) = true).
        { apply existsb_exists. eexists. split; [exact Hin | apply String.eqb_refl]. }
        congruence. }
      destruct (IH ((fst acc ++ [p0])%list,
                    WatchProviderOption.provider_name provider :: snd acc))
        as (Hs' & Hn' & new & Ef & Hnew & Hall).
      * intros n. cbn [fst snd]. rewrite map_app, in_app_iff. cbn. 
        rewrite Hs. tauto.
      * cbn [fst]. rewrite map_app. cbn.
        apply NoDup_app; [exact Hn | repeat constructor; intros [] | ].
        intros n Hin [<- | []]. apply Fresh. exact Hin.
      * cbv zeta. split; [exact Hs' | ]. split; [exact Hn' | ].
        cbn [fst] in Ef. exists (p0 :: new). split.
        -- rewrite Ef, <- app_assoc. reflexivity.
        -- split.
           ++ intros p [<- | Hp].
              ** split; [reflexivity | ]. split; [left; reflexivity | exact Fresh].
              ** destruct (Hnew p Hp) as (T & I1 & I2).
                 split; [exact T | ]. split; [right; exact I1 | ].
                 intros Hin. apply I2. cbn [fst]. rewrite map_app.
                 apply in_or_app. left. exact Hin.
           ++ intros n [<- | Hin]; [ | apply Hall; exact Hin].
              rewrite Ef, map_app, map_app. cbn. rewrite !in_app_iff. cbn. tauto.
Qed.

Lemma providersSettled_step d type options acc :
  optionNames options = offeredAs d type ->
  providersSettled d (typesBefore type) acc ->
  providersSettled d (typesBefore type ++ [type]) (processProvidersOpt options type acc).
Proof.
  intros Hopt (Hs & Hn & Hp & Hall).
  destruct options as [l|]; cbn [processProvidersOpt optionNames] in *.
  - destruct (processProviders_spec l type acc Hs Hn) as (Hs' & Hn' & new & Ef & Hnew & Hall').
    split; [exact Hs' | ]. split; [exact Hn' | ]. split.
    + intros p Hin. rewrite Ef in Hin. apply in_app_or in Hin. destruct Hin as [Hin | Hin].
      * destruct (Hp p Hin) as (T & O & B). split; [apply in_or_app; left; exact T | auto].
      * destruct (Hnew p Hin) as (T & I1 & I2). rewrite T.
        split; [apply in_or_app; right; left; reflexivity | ].
        split; [rewrite <- Hopt; exact I1 | ].
        intros t Ht Hoff. apply I2. exact (Hall t _ Ht Hoff).
    + intros t n Ht Hoff. apply in_app_or in Ht. destruct Ht as [Ht | [<- | []]].
      * rewrite Ef, map_app. apply in_or_app. left. exact (Hall t n Ht Hoff).
      * apply Hall'. rewrite Hopt. exact Hoff.
  - split; [exact Hs | ]. split; [exact Hn | ]. split.
    + intros p Hin. destruct (Hp p Hin) as (T & O & B).
      split; [apply in_or_app; left; exact T | auto].
    + intros t n Ht Hoff. apply in_app_or in Ht. destruct Ht as [Ht | [<- | []]].
      * exact (Hall t n Ht Hoff).
      * rewrite <- Hopt in Hoff. destruct Hoff.
Qed.

Lemma providersSettled_all d :
  providersSettled d [free; flatrate; rent; buy]
    (processProvidersOpt (WatchProviderRegionData.buy d) buy
       (processProvidersOpt (WatchProviderRegionData.rent d) rent
          (processProvidersOpt (WatchProviderRegionData.flatrate d) flatrate
             (processProvidersOpt (WatchProviderRegionData.free d) free ([], []))))).
Proof.
  apply (providersSettled_step d buy); [reflexivity | ].
  apply (providersSettled_step d rent); [reflexivity | ].
  apply (providersSettled_step d flatrate); [reflexivity | ].
  apply (providersSettled_step d free); [reflexivity | ].
  split; [intros n; cbn; tauto | ]. split; [constructor | ].
  split; [intros p [] | intros t n []].
Qed.

Lemma getWatchProviders_value w mediaId ty region s :
  fst (getWatchProviders w mediaId ty region s)
  = match respond w (List.length (log s)) (WatchProviders ty mediaId) with
    | Ok (Providers results) =>
        match regionDataOf results region with
        | Some d =>
            fst (processProvidersOpt (WatchProviderRegionData.buy d) buy
                   (processProvidersOpt (WatchProviderRegionData.rent d) rent
                      (processProvidersOpt (WatchProviderRegionData.flatrate d) flatrate
                         (processProvidersOpt (WatchProviderRegionData.free d) free
                            ([], [])))))
        | None => []
        end
    | _ => []
    end.
Proof.
  unfold getWatchProviders. rewrite run_bind.
  change (fst (request w (WatchProviders ty mediaId) s))
    with (respond w (List.length (log s)) (WatchProviders ty mediaId)).
  destruct (respond _ _ _) as [[]|]; try reflexivity.
  cbv zeta. destruct (regionDataOf results region); reflexivity.
Qed.

(** X4: whatever the catalog answers, [getWatchProviders] returns each
    provider name at most once. *)
Theorem getWatchProviders_names_distinct w mediaId ty region s :
  NoDup (map StreamingProvider.name (fst (getWatchProviders w mediaId ty region s))).
Proof.
  rewrite getWatchProviders_value.
  destruct (respond _ _ _) as [[]|]; try constructor.
  destruct (regionDataOf _ _) as [d|]; [ | constructor].
  apply (providersSettled_all d).
Qed.

(** X5: the providers are read from what [results[region] ||
    results['US']] yields: the data that the answer holds for the region;
    or else, for a region whose name every object inherits (such as
    [constructor]), the inherited member, which offers nothing; or else
    the data for US.  A provider is listed exactly when some access type
    of that data offers it, and it is listed with the first access type
    that offers it in the order free, flatrate, rent, buy. *)
Theorem getWatchProviders_priority w mediaId ty region s results d :
  respond w (List.length (log s)) (WatchProviders ty mediaId) = Ok (Providers results) ->
  regionDataOf results region = Some d ->
  let providers := fst (getWatchProviders w mediaId ty region s) in
  (forall name,
     In name (map StreamingProvider.name providers)
     <-> exists type, In name (offeredAs d type)) /\
  (forall p, In p providers ->
     In (StreamingProvider.name p) (offeredAs d (StreamingProvider.type p)) /\
     forall earlier, In earlier (typesBefore (StreamingProvider.type p)) ->
                     ~ In (StreamingProvider.name p) (offeredAs d earlier)).
Proof.
  intros Hr Hd. cbv zeta. rewrite getWatchProviders_value, Hr, Hd.
  destruct (providersSettled_all d) as (_ & _ & Hp & Hall).
  split.
  - intros name. split.
    + intros Hin. apply in_map_iff in Hin. destruct Hin as (p & <- & Hin).
      exists (StreamingProvider.type p). apply (Hp p Hin).
    + intros (type & Hoff). apply (Hall type name); [ | exact Hoff].
      destruct type; cbn; tauto.
  - intros p Hin. destruct (Hp p Hin) as (_ & O & B). auto.
Qed.

Lemma getWatchProviders_priority_witness :
  map (fun p => (StreamingProvider.name p, StreamingProvider.type p))
    (fst (getWatchProviders providerWorld 348 tmdb_movie "IN" initial))
  = [("Hotstar", free); ("Netflix", flatrate)] /\
  (In "Hotstar"
     (map StreamingProvider.name
        (fst (getWatchProviders providerWorld 348 tmdb_movie "IN" initial)))
   <-> exists type, In "Hotstar" (offeredAs usProviders type)).
Proof.
  split; [reflexivity | ].
  exact (proj1 (getWatchProviders_priority providerWorld 348 tmdb_movie "IN" initial
                  providerTable usProviders eq_refl eq_refl) "Hotstar").
Defined.

(** The region US stands in for a region without data, but not for a
    region named like a member of [Object.prototype]. *)
Example getWatchProviders_inherited_region :
  regionDataOf providerTable "IN" = Some usProviders /\
  regionDataOf providerTable "constructor" = Some inheritedMember /\
  fst (getWatchProviders providerWorld 348 tmdb_movie "constructor" initial) = [].
Proof. repeat split. Qed.

(** ** The genre table *)

Lemma request_value w r s : fst (request w r s) = respond w (List.length (log s)) r.
Proof. reflexivity. Qed.

Lemma getGenreMaps_stores w ty s m :
  fst (getGenreMaps w ty s) = Ok m ->
  cachedGenreMap ty (snd (getGenreMaps w ty s)) = Some m.
Proof.
  unfold getGenreMaps. destruct (cachedGenreMap ty s) as [m'|] eqn:C.
  - cbn. intros E. injection E as <-. exact C.
  - rewrite run_bind. destruct (fst (request w (GenreList ty) s)) as [[]|];
      try (cbn; discriminate).
    rewrite run_bind. cbn. intros E. injection E as <-. destruct ty; reflexivity.
Qed.

(** X6: the genre table is read through a cache that is filled on the
    first success: once [getGenreMaps] has returned a table for a catalog,
    the next call for that catalog returns the same table and leaves the
    state as it is, so that no request is issued. *)
Theorem getGenreMaps_read_through w ty s m :
  fst (getGenreMaps w ty s) = Ok m ->
  getGenreMaps w ty (snd (getGenreMaps w ty s))
  = (Ok m, snd (getGenreMaps w ty s)).
Proof.
  intros H. apply getGenreMaps_cached, getGenreMaps_stores. exact H.
Qed.

Lemma getGenreMaps_read_through_witness :
  events_of (getGenreMaps providerWorld tmdb_movie) initial
  = [Requested (GenreList tmdb_movie)] /\
  events_of (getGenreMaps providerWorld tmdb_movie)
    (snd (getGenreMaps providerWorld tmdb_movie initial)) = [].
Proof.
  split; [reflexivity | ].
  unfold events_of.
  rewrite (getGenreMaps_read_through providerWorld tmdb_movie initial
             [("horror", 99%Z); ("animation", 16%Z); ("horror", 27%Z)] eq_refl).
  reflexivity.
Defined.

Lemma fold_left_assignGenre (gs : list Genre.t) (acc : GenreMap) :
  fold_left
    (fun acc genre => assignGenre acc (toLowerCase (Genre.name genre)) (Genre.id genre))
    gs acc
  = (rev (map (fun g => (toLowerCase (Genre.name g), Genre.id g))
            (filter (fun g => negb (String.eqb (toLowerCase (Genre.name g)) "__proto__"))
               gs))
       ++ acc)%list.
Proof.
  revert acc. induction gs as [|g gs IH]; intros acc; [reflexivity | ].
  cbn [fold_left filter]. rewrite IH. unfold assignGenre.
  destruct (String.eqb (toLowerCase (Genre.name g)) "__proto__"); cbn [negb].
  - reflexivity.
  - cbn [map rev]. rewrite <- app_assoc. reflexivity.
Qed.

Lemma lookup_map_find (gs : list Genre.t) (key : string) :
  lookup (map (fun g => (toLowerCase (Genre.name g), Genre.id g)) gs) key
  = option_map Genre.id
      (find (fun g => String.eqb (toLowerCase (Genre.name g)) key) gs).
Proof.
  induction gs as [|g gs IH]; simpl; [reflexivity | ].
  destruct (String.eqb _ key); [reflexivity | exact IH].
Qed.

Lemma find_filter_kept {A} (P Q : A -> bool) (l : list A) :
  (forall x, P x = true -> Q x = true) -> find P (filter Q l) = find P l.
Proof.
  intros H. induction l as [|x l IH]; [reflexivity | ].
  cbn [filter find]. destruct (P x) eqn:Px.
  - rewrite (H x Px). cbn [find]. rewrite Px. reflexivity.
  - destruct (Q x); [cbn [find]; rewrite Px | ]; exact IH.
Qed.

Lemma find_filter_dropped {A} (P Q : A -> bool) (l : list A) :
  (forall x, P x = true -> Q x = false) -> find P (filter Q l) = None.
Proof.
  intros H. induction l as [|x l IH]; [reflexivity | ].
  cbn [filter]. destruct (Q x) eqn:Qx; [ | exact IH].
  cbn [find]. destruct (P x) eqn:Px; [ | exact IH].
  rewrite (H x Px) in Qx. discriminate.
Qed.

Lemma lookup_assigned (gs : list Genre.t) (key : string) :
  lookup
    (fold_left
       (fun acc genre =>
          assignGenre acc (toLowerCase (Genre.name genre)) (Genre.id genre))
       gs [])
    key
  = option_map Genre.id (lastGenreNamed gs key).
Proof.
  rewrite fold_left_assignGenre, app_nil_r, <- map_rev, lookup_map_find.
  rewrite <- filter_rev. unfold lastGenreNamed.
  destruct (String.eqb key "__proto__") eqn:K.
  - apply String.eqb_eq in K. subst key.
    rewrite find_filter_dropped; [reflexivity | ].
    intros g E. rewrite E. reflexivity.
  - rewrite find_filter_kept; [reflexivity | ].
    intros g E. apply String.eqb_eq in E. rewrite E, K. reflexivity.
Qed.

(** X7: the table that [getGenreMaps] builds from the genre list of the
    catalog holds, under a key, the id of the last genre of the list whose
    lower-cased name is the key (names that differ by case only share one
    entry, and the name [__proto__] is never stored); a key without such a
    genre reads as the member that every object inherits under that name,
    if there is one, and as [undefined] otherwise. *)
Theorem getGenreMaps_lookup w ty s gs :
  cachedGenreMap ty s = None ->
  respond w (List.length (log s)) (GenreList ty) = Ok (Genres gs) ->
  exists genreMap,
    fst (getGenreMaps w ty s) = Ok genreMap /\
    forall key,
      genreMapAt genreMap key
      = match lastGenreNamed gs key with
        | Some genre => Some (GenreId (Genre.id genre))
        | None => if isInherited key then Some (InheritedMember key) else None
        end.
Proof.
  intros C R. unfold getGenreMaps. rewrite C, run_bind, request_value, R, run_bind.
  eexists. split; [reflexivity | ].
  intros key. unfold genreMapAt. rewrite lookup_assigned.
  destruct (lastGenreNamed gs key); reflexivity.
Qed.

Lemma getGenreMaps_lookup_witness :
  exists genreMap,
    fst (getGenreMaps providerWorld tmdb_tv initial) = Ok genreMap /\
    genreMapAt genreMap "horror" = Some (GenreId 99) /\
    genreMapAt genreMap "Horror" = None /\
    genreMapAt genreMap "constructor" = Some (InheritedMember "constructor").
Proof.
  destruct (getGenreMaps_lookup providerWorld tmdb_tv initial _ eq_refl eq_refl)
    as (genreMap & E & L).
  exists genreMap. split; [exact E | ]. rewrite !L. repeat split; reflexivity.
Defined.

(** ** The free-text search, further *)

Lemma combine_results_shape mediaType items :
  forall seen,
    Forall
      (fun m =>
         TMDBMedia.media_type m = Some (tmdbTypeOf mediaType) /\
         (mediaType = anime -> In ANIMATION_GENRE_ID (TMDBMedia.genre_ids m)))
      (combine_results mediaType seen items).
Proof.
  induction items as [|item rest IH]; intros seen; cbn [combine_results].
  - constructor.
  - destruct (includesId seen (TMDBMedia.id item)); [apply IH | ].
    destruct (isAnime mediaType && _) eqn:A; [apply IH | ].
    constructor; [ | apply IH]. cbn. split; [reflexivity | ].
    intros ->. cbn in A. apply negb_false_iff in A.
    apply includesId_In. exact A.
Qed.

(** X8: the entries that [searchMedia] returns have pairwise distinct ids
    and carry the catalog that was searched; for the media type anime each
    of them has the animation genre. *)
Theorem searchMedia_results w query options s :
  let results := fst (searchMedia w query options s) in
  NoDup (map TMDBMedia.id results) /\
  Forall
    (fun m =>
       TMDBMedia.media_type m = Some (tmdbTypeOf (SearchOptions.mediaType options)) /\
       (SearchOptions.mediaType options = anime ->
        In ANIMATION_GENRE_ID (TMDBMedia.genre_ids m)))
    results.
Proof.
  cbv zeta. split; [apply searchMedia_ids | ].
  unfold searchMedia. repeat rewrite run_bind.
  destruct (fst (getGenreMaps _ _ _)); [ | constructor].
  repeat rewrite run_bind.
  repeat match goal with
         | |- context [match fst (request ?w' ?r ?s') with _ => _ end] =>
             destruct (fst (request w' r s')) as [[]|]
         end; try constructor.
  apply combine_results_shape.
Qed.

Lemma includesGenre_In genreIds id :
  includesGenre genreIds id = true -> In (GenreId id) genreIds.
Proof.
  unfold includesGenre. rewrite existsb_exists.
  intros ([i | key] & HI & E); [ | discriminate].
  apply Z.eqb_eq in E. subst i. exact HI.
Qed.

Lemma genreIdsOf_anime genreMap genres :
  In (GenreId ANIMATION_GENRE_ID) (genreIdsOf anime genreMap genres).
Proof.
  unfold genreIdsOf. cbn [isAnime andb].
  destruct (includesGenre _ ANIMATION_GENRE_ID) eqn:E; cbn [negb].
  - apply includesGenre_In. exact E.
  - apply in_or_app. right. left. reflexivity.
Qed.

Lemma searchMedia_anime_flagged w query options :
  SearchOptions.mediaType options = anime ->
  Emits discoverForAnime (searchMedia w query options).
Proof.
  intros A. unfold searchMedia. rewrite A.
  apply Emits_bind; [apply Emits_emit; intros ? ? E; discriminate | intros _].
  apply Emits_bind.
  { apply Emits_state. intros s. unfold getGenreMaps.
    destruct (cachedGenreMap _ s) as [g|].
    - exists (ret (Ok g)). split; [reflexivity | apply Emits_ret].
    - eexists. split; [reflexivity | ].
      apply Emits_bind; [apply Emits_request; intros ? ? E; discriminate | intros r].
      emits. }
  intros [genreMap | e]; [ | apply Emits_ret].
  apply Emits_bind; [apply Emits_request | intros d].
  - intros ty params E. injection E as <- <-.
    split; [reflexivity | ]. unfold discoverParamsOf. rewrite A. cbn.
    split; [reflexivity | ].
    pose proof (genreIdsOf_anime genreMap
                  match SearchOptions.genres options with Some g => g | None => [] end) as G.
    destruct (genreIdsOf anime genreMap _) as [|i ids]; [destruct G | ].
    eexists. split; [reflexivity | exact G].
  - apply Emits_bind; [apply Emits_request; intros ? ? E; discriminate | intros t].
    emits.
Qed.

(** X9: for the media type anime, every discover query of [searchMedia]
    goes to the TV catalog, filters on the original language Japanese
    whatever language the options ask for, and has the animation genre
    among its genre ids. *)
Theorem searchMedia_anime_query w query options s ty params :
  SearchOptions.mediaType options = anime ->
  In (Requested (Discover ty params)) (events_of (searchMedia w query options) s) ->
  ty = tmdb_tv /\
  DiscoverParams.with_original_language params = Some "ja" /\
  exists ids,
    DiscoverParams.with_genres params = Some ids /\
    In (GenreId ANIMATION_GENRE_ID) ids.
Proof.
  intros A HI.
  destruct (Emits_events _ _ (searchMedia_anime_flagged w query options A) s) as (_ & F).
  rewrite Forall_forall in F. exact (F _ HI ty params eq_refl).
Qed.

Lemma searchMedia_anime_query_witness :
  DiscoverParams.with_original_language
    (discoverParamsOf providerWorld animeOptions [GenreId 99; GenreId 16]) = Some "ja".
Proof.
  refine (proj1 (proj2 (searchMedia_anime_query providerWorld "ghost story"
                          animeOptions initial tmdb_tv
                          (discoverParamsOf providerWorld animeOptions
                             [GenreId 99; GenreId 16])
                          eq_refl _))).
  vm_compute. right. right. left. reflexivity.
Defined.

Lemma searchMedia_discover_fails w query options s :
  (forall now ty params, exists e, respond w now (Discover ty params) = Throw e) ->
  fst (searchMedia w query options s) = [].
Proof.
  intros H. unfold searchMedia. repeat rewrite run_bind.
  destruct (fst (getGenreMaps _ _ _)); [ | reflexivity].
  repeat rewrite run_bind. rewrite !request_value.
  match goal with
  | |- context [respond w ?n (Discover ?ty ?p)] => destruct (H n ty p) as (e & ->)
  end. reflexivity.
Qed.

Lemma length_one_more {A} (l : list A) (a : A) :
  List.length (l ++ [a]) = (List.length l + 1)%nat.
Proof. rewrite length_app. reflexivity. Qed.

Lemma getGenreMaps_run w ty s :
  exists maps s',
    getGenreMaps w ty s = (maps, s') /\
    match cachedGenreMap ty s with
    | Some genreMap => maps = Ok genreMap /\ log s' = log s
    | None =>
        log s' = (log s ++ [Requested (GenreList ty)])%list /\
        forall e, respond w (List.length (log s)) (GenreList ty) = Throw e ->
                  maps = Throw e
    end.
Proof.
  unfold getGenreMaps. destruct (cachedGenreMap ty s) as [genreMap|].
  - eexists. eexists. split; [reflexivity | ]. split; reflexivity.
  - rewrite run_bind, request_value.
    destruct (respond w _ _) as [[]|e'];
      (eexists; eexists; split; [reflexivity | ]; split;
       [reflexivity | intros e E; congruence]).
Qed.

(** X10: the requests of one call of [searchMedia] stand or fall
    together: when the catalog fails the discover query of the call, or
    its text query, or its request for the genre table, the result is
    empty, whatever the other requests returned.  The request is the one
    logged at position [k] of the events of the call, and it is answered
    at that moment. *)
Theorem searchMedia_all_or_nothing w query options s k r e :
  nth_error (events_of (searchMedia w query options) s) k = Some (Requested r) ->
  respond w (List.length (log s) + k) r = Throw e ->
  fst (searchMedia w query options s) = [].
Proof.
  unfold searchMedia, events_of. rewrite run_bind.
  set (s1 := snd (emit (Called fn_searchMedia) s)).
  assert (L1 : log s1 = (log s ++ [Called fn_searchMedia])%list) by reflexivity.
  clearbody s1. rewrite run_bind.
  destruct (getGenreMaps_run w (tmdbTypeOf (SearchOptions.mediaType options)) s1)
    as (maps & s2 & -> & G).
  cbn [fst snd].
  destruct maps as [genreMap | e']; [ | reflexivity].
  rewrite !run_bind, !request_value.
  cbn [log snd request emit bind ret fst]. rewrite !length_one_more.
  set (D := Discover _ _). set (T := SearchText _ _).
  set (n := List.length (log s2)).
  assert (V : forall d t (s' : State),
             snd (match d with
                  | Ok (Results discovered) =>
                      match t with
                      | Ok (Results searched) =>
                          ret (combine_results (SearchOptions.mediaType options) []
                                 (discovered ++ searched))
                      | _ => ret []
                      end
                  | _ => ret []
                  end s') = s').
  { intros [[]|] [[]|] s'; reflexivity. }
  rewrite V. cbn [log]. clear V.
  intros Hk Hr.
  destruct (cachedGenreMap _ s1) as [cached|] eqn:C; destruct G as (G1 & G2).
  - rewrite G2, L1, <- !app_assoc, skipn_exact in Hk.
    assert (N : n = (List.length (log s) + 1)%nat)
      by (unfold n; rewrite G2, L1; apply length_one_more).
    destruct k as [|[|[|[|k]]]]; cbn in Hk; try discriminate; injection Hk as <-.
    + rewrite N, Hr. reflexivity.
    + replace (n + 1)%nat with (List.length (log s) + 2)%nat by lia.
      rewrite Hr. destruct (respond w n D) as [[]|]; reflexivity.
  - rewrite G1, L1, <- !app_assoc, skipn_exact in Hk.
    assert (N : n = (List.length (log s) + 2)%nat)
      by (unfold n; rewrite G1, L1, !length_one_more; lia).
    destruct k as [|[|[|[|[|k]]]]]; cbn in Hk; try discriminate; injection Hk as <-.
    + specialize (G2 e). rewrite L1, length_one_more in G2.
      specialize (G2 Hr). discriminate.
    + rewrite N, Hr. reflexivity.
    + replace (n + 1)%nat with (List.length (log s) + 3)%nat by lia.
      rewrite Hr. destruct (respond w n D) as [[]|]; reflexivity.
Qed.

Lemma searchMedia_all_or_nothing_witness :
  respond providerWorld 3 (SearchText tmdb_movie "space horror")
  = Ok (Results [alien; aliens]) /\
  (exists params,
     nth_error
       (events_of
          (searchMedia providerWorld "space horror"
             (searchOptionsOf (analyzeUserInput "space horror") defaultOptions))
          initial) 2
     = Some (Requested (Discover tmdb_movie params))) /\
  fst (searchMedia providerWorld "space horror"
         (searchOptionsOf (analyzeUserInput "space horror") defaultOptions) initial)
  = [].
Proof.
  split; [reflexivity | ].
  split; [eexists; vm_compute; reflexivity | ].
  refine (searchMedia_all_or_nothing providerWorld "space horror"
            (searchOptionsOf (analyzeUserInput "space horror") defaultOptions)
            initial 2 _ "Network Error" _ _).
  - vm_compute. reflexivity.
  - reflexivity.
Defined.

(** ** The generative recommender, further *)

Lemma getGenAI_stores w s c :
  fst (getGenAI w s) = Ok c -> genAI (snd (getGenAI w s)) = Some c.
Proof.
  unfold getGenAI. destruct (genAI s) as [c'|] eqn:G.
  - cbn. intros E. injection E as <-. exact G.
  - destruct (VITE_GEMINI_API_KEY w) as [key|]; [ | discriminate].
    destruct (JsString.truthy key); [ | discriminate].
    cbn. intros E. injection E as <-. reflexivity.
Qed.

(** X11: the client of the generative service is made once: after a call
    of [getGenAI] that returned a client, every further call returns the
    same client and leaves the state as it is; a client that is made
    rather than found is made with the configured key. *)
Theorem getGenAI_made_once w s client :
  fst (getGenAI w s) = Ok client ->
  getGenAI w (snd (getGenAI w s)) = (Ok client, snd (getGenAI w s)) /\
  (genAI s = None -> VITE_GEMINI_API_KEY w = Some client).
Proof.
  intros H. split.
  - pose proof (getGenAI_stores w s client H) as G.
    unfold getGenAI at 1. rewrite G. reflexivity.
  - intros G. unfold getGenAI in H. rewrite G in H.
    destruct (VITE_GEMINI_API_KEY w) as [key|]; [ | discriminate].
    destruct (JsString.truthy key); [ | discriminate].
    cbn in H. injection H as <-. reflexivity.
Qed.

Lemma getGenAI_made_once_witness :
  getGenAI catalogWorld (snd (getGenAI catalogWorld initial))
  = (Ok "gemini-key", snd (getGenAI catalogWorld initial)).
Proof.
  exact (proj1 (getGenAI_made_once catalogWorld initial "gemini-key" eq_refl)).
Defined.

Lemma getAIRecommendations_at_most_5 w userPrompt mediaType hiddenGems fresh s :
  (List.length
     (GeminiRecommendationResult.recommendations
        (fst (getAIRecommendations w userPrompt mediaType hiddenGems fresh s))) <= 5)%nat.
Proof.
  unfold getAIRecommendations. repeat rewrite run_bind.
  destruct (fst (getGenAI w _)) as [client | e]; [ | cbn; lia].
  repeat rewrite run_bind.
  destruct (fst (request w _ _)) as [[| | | | | | [|c parsed]] | e]; try (cbn; lia).
  cbn [ret fst GeminiRecommendationResult.recommendations]. apply firstn_le_length.
Qed.

(** X12: [getAIRecommendations] returns either a success with 1 to 5
    candidates and no error message, or a failure with no candidate and an
    error message. *)
Theorem getAIRecommendations_shape w userPrompt mediaType hiddenGems fresh s :
  let result := fst (getAIRecommendations w userPrompt mediaType hiddenGems fresh s) in
  (GeminiRecommendationResult.success result = true /\
   (1 <= List.length (GeminiRecommendationResult.recommendations result) <= 5)%nat /\
   GeminiRecommendationResult.error result = None) \/
  (GeminiRecommendationResult.success result = false /\
   GeminiRecommendationResult.recommendations result = [] /\
   GeminiRecommendationResult.error result <> None).
Proof.
  cbv zeta. unfold getAIRecommendations. repeat rewrite run_bind.
  destruct (fst (getGenAI w _)) as [client | e];
    [ | right; cbn; repeat split; discriminate].
  repeat rewrite run_bind.
  destruct (fst (request w _ _)) as [[| | | | | | [|c parsed]] | e];
    try (right; cbn; repeat split; discriminate).
  left. cbn [ret fst GeminiRecommendationResult.success
             GeminiRecommendationResult.recommendations
             GeminiRecommendationResult.error].
  split; [reflexivity | ]. split; [ | reflexivity].
  split.
  - destruct parsed as [|? [|? [|? [|? ?]]]]; simpl; lia.
  - apply firstn_le_length.
Qed.

Lemma genAI_emit e s : genAI (snd (emit e s)) = genAI s.
Proof. reflexivity. Qed.

Lemma getGenAI_emit w e s : fst (getGenAI w (snd (emit e s))) = fst (getGenAI w s).
Proof.
  unfold getGenAI. rewrite genAI_emit. destruct (genAI s); [reflexivity | ].
  destruct (VITE_GEMINI_API_KEY w) as [key|]; [ | reflexivity].
  destruct (JsString.truthy key); reflexivity.
Qed.

Lemma getGenAI_log w s : log (snd (getGenAI w s)) = log s.
Proof.
  unfold getGenAI. destruct (genAI s); [reflexivity | ].
  destruct (VITE_GEMINI_API_KEY w) as [key|]; [ | reflexivity].
  destruct (JsString.truthy key); reflexivity.
Qed.

Lemma getAIRecommendations_log w userPrompt mediaType hiddenGems fresh s :
  log (snd (getAIRecommendations w userPrompt mediaType hiddenGems fresh s))
  = (log s ++
     Called fn_getAIRecommendations ::
     match fst (getGenAI w s) with
    | Ok client =>
        [Requested
           (GenerateContent client
              {| Prompt.userPrompt := userPrompt;
                 Prompt.mediaType := mediaType;
                 Prompt.hiddenGems := hiddenGems;
                 Prompt.freshContext := fresh |})]
    | Throw _ => []
    end)%list.
Proof.
  unfold getAIRecommendations. repeat rewrite run_bind.
  rewrite getGenAI_emit.
  destruct (fst (getGenAI w s)) as [client | e] eqn:G.
  - repeat rewrite run_bind.
    destruct (fst (request w _ _)) as [[| | | | | | [|c parsed]] | e'];
      cbn [ret snd request bind emit log]; rewrite getGenAI_log; cbn [emit snd log];
      rewrite <- app_assoc; reflexivity.
  - cbn [ret snd]. rewrite getGenAI_log. reflexivity.
Qed.

(** X13: a call of [getAIRecommendations] issues one request to the
    generative service, which carries the prompt of the user, the media
    type, the hidden-gems flag and the recent titles as they were passed,
    or no request at all when there is no client and none can be made. *)
Theorem getAIRecommendations_events w userPrompt mediaType hiddenGems fresh s :
  events_of (getAIRecommendations w userPrompt mediaType hiddenGems fresh) s
  = Called fn_getAIRecommendations ::
    match fst (getGenAI w s) with
    | Ok client =>
        [Requested
           (GenerateContent client
              {| Prompt.userPrompt := userPrompt;
                 Prompt.mediaType := mediaType;
                 Prompt.hiddenGems := hiddenGems;
                 Prompt.freshContext := fresh |})]
    | Throw _ => []
    end.
Proof.
  apply events_of_eq.
  pose proof (getAIRecommendations_log w userPrompt mediaType hiddenGems fresh s) as L.
  destruct (fst (getGenAI w s)); exact L.
Qed.

(** ** The builder, further *)

Lemma getMediaReviews_bound w mediaId ty s :
  (List.length (fst (getMediaReviews w mediaId ty s)) <= 3)%nat.
Proof.
  unfold getMediaReviews. rewrite run_bind.
  destruct (fst (request _ _ _)) as [[]|]; unfold ret; cbn [fst List.length]; try lia.
  apply firstn_le_length.
Qed.

Lemma firstTruthy_truthy a b d :
  JsString.truthy d = true -> JsString.truthy (firstTruthy a b d) = true.
Proof.
  intros D. unfold firstTruthy. destruct (orElse a b) as [x|]; [ | exact D].
  destruct (JsString.truthy x) eqn:T; [exact T | exact D].
Qed.

Lemma firstTruthy_default a b d :
  truthyOpt a = false -> truthyOpt b = false -> firstTruthy a b d = d.
Proof.
  intros A B. unfold firstTruthy, orElse. rewrite A.
  destruct b as [x|]; [ | reflexivity]. simpl in B. rewrite B. reflexivity.
Qed.

(** X14: every record that [buildRecommendation] yields keeps the id and
    the media type it was asked for; its platform names and logos are
    those of its providers, in the same order, and no platform is named
    twice; it has at most 3 reviews; for the media type movie it has no
    season and episode counts; and its genres, emotions and themes are
    empty and its intensity is 5, whatever the catalog entry. *)
Theorem buildRecommendation_record w media mediaType region aiExplanation s :
  exists r,
    fst (buildRecommendation w media mediaType region aiExplanation s) = Some r /\
    MediaRecommendation.id r = TMDBMedia.id media /\
    MediaRecommendation.mediaType r = mediaType /\
    MediaRecommendation.streamingPlatforms r
    = map StreamingProvider.name (MediaRecommendation.streamingProviders r) /\
    MediaRecommendation.streamingLogos r
    = map StreamingProvider.logo (MediaRecommendation.streamingProviders r) /\
    NoDup (MediaRecommendation.streamingPlatforms r) /\
    (List.length (MediaRecommendation.reviews r) <= 3)%nat /\
    (mediaType = movie ->
     MediaRecommendation.numberOfSeasons r = None /\
     MediaRecommendation.numberOfEpisodes r = None) /\
    MediaRecommendation.genres r = [] /\
    MediaRecommendation.emotions r = [] /\
    MediaRecommendation.themes r = [] /\
    MediaRecommendation.intensity r = 5%Z.
Proof.
  unfold buildRecommendation. repeat rewrite run_bind. unfold ret. cbn [fst].
  eexists. split; [reflexivity | ].
  cbn [MediaRecommendation.id MediaRecommendation.mediaType
       MediaRecommendation.streamingPlatforms MediaRecommendation.streamingLogos
       MediaRecommendation.streamingProviders MediaRecommendation.reviews
       MediaRecommendation.numberOfSeasons MediaRecommendation.numberOfEpisodes
       MediaRecommendation.genres MediaRecommendation.emotions
       MediaRecommendation.themes MediaRecommendation.intensity].
  repeat split; try reflexivity.
  - rewrite getWatchProviders_value.
    destruct (respond _ _ _) as [[]|]; try constructor.
    destruct (regionDataOf _ _) as [d|]; [ | constructor].
    apply (providersSettled_all d).
  - apply getMediaReviews_bound.
  - subst mediaType. reflexivity.
  - subst mediaType. reflexivity.
Qed.

(** X15: a record never has an empty title or an empty plot, and its
    rating is never NaN: a missing or empty title and name give the title
    "Unknown", an empty overview gives a stock plot, a rating of 0 or NaN
    gives 0; and an entry without any date gets the year 0. *)
Theorem buildRecommendation_defaults w media mediaType region aiExplanation s :
  exists r,
    fst (buildRecommendation w media mediaType region aiExplanation s) = Some r /\
    MediaRecommendation.title r <> "" /\
    MediaRecommendation.plot r <> "" /\
    MediaRecommendation.rating r <> NaN /\
    (truthyOpt (TMDBMedia.title media) = false ->
     truthyOpt (TMDBMedia.name media) = false ->
     MediaRecommendation.title r = "Unknown") /\
    (TMDBMedia.overview media = "" ->
     MediaRecommendation.plot r = "No description available.") /\
    (truthyOpt (TMDBMedia.release_date media) = false ->
     truthyOpt (TMDBMedia.first_air_date media) = false ->
     MediaRecommendation.year r = ofZ 0).
Proof.
  unfold buildRecommendation. repeat rewrite run_bind. unfold ret. cbn [fst].
  eexists. split; [reflexivity | ].
  cbn [MediaRecommendation.title MediaRecommendation.plot
       MediaRecommendation.rating MediaRecommendation.year].
  split; [ | split; [ | split; [ | split; [ | split]]]].
  - pose proof (firstTruthy_truthy (TMDBMedia.title media) (TMDBMedia.name media)
                  "Unknown" eq_refl) as T.
    intros E. rewrite E in T. discriminate.
  - destruct (TMDBMedia.overview media); cbn; discriminate.
  - destruct (TMDBMedia.vote_average media); cbn; try discriminate.
    destruct (Qeq_bool q 0); cbn; discriminate.
  - intros A B. apply firstTruthy_default; assumption.
  - intros ->. reflexivity.
  - intros A B. rewrite (firstTruthy_default _ _ "" A B). reflexivity.
Qed.

Lemma getWatchProviders_log w mediaId ty region s :
  log (snd (getWatchProviders w mediaId ty region s))
  = (log s ++ [Requested (WatchProviders ty mediaId)])%list.
Proof.
  unfold getWatchProviders. rewrite run_bind.
  destruct (fst (request _ _ _)) as [[]|]; try reflexivity.
  cbv zeta. destruct (regionDataOf results region); reflexivity.
Qed.

Lemma getMediaReviews_log w mediaId ty s :
  log (snd (getMediaReviews w mediaId ty s))
  = (log s ++ [Requested (Reviews ty mediaId)])%list.
Proof.
  unfold getMediaReviews. rewrite run_bind.
  destruct (fst (request _ _ _)) as [[]|]; reflexivity.
Qed.

Lemma getMediaVideos_log w mediaId ty s :
  log (snd (getMediaVideos w mediaId ty s))
  = (log s ++ [Requested (Videos ty mediaId)])%list.
Proof.
  unfold getMediaVideos. rewrite run_bind.
  destruct (fst (request _ _ _)) as [[]|]; reflexivity.
Qed.

Lemma getTVDetails_log w tvId s :
  log (snd (getTVDetails w tvId s)) = (log s ++ [Requested (TVDetails tvId)])%list.
Proof.
  unfold getTVDetails. rewrite run_bind.
  destruct (fst (request _ _ _)) as [[]|]; reflexivity.
Qed.

(** X16: to build a record, [buildRecommendation] asks the catalog for the
    watch providers, the reviews and the videos of the entry, in this
    order, and then for the series details when the media type is tv or
    anime; it issues these requests and no other, whatever they answer. *)
Theorem buildRecommendation_requests w media mediaType region aiExplanation s :
  events_of (buildRecommendation w media mediaType region aiExplanation) s
  = ([ Requested (WatchProviders (tmdbTypeOf mediaType) (TMDBMedia.id media));
       Requested (Reviews (tmdbTypeOf mediaType) (TMDBMedia.id media));
       Requested (Videos (tmdbTypeOf mediaType) (TMDBMedia.id media)) ]
     ++ match mediaType with
        | movie => []
        | tv | anime => [Requested (TVDetails (TMDBMedia.id media))]
        end)%list.
Proof.
  apply events_of_eq. unfold buildRecommendation. repeat rewrite run_bind.
  cbn [ret snd].
  destruct mediaType; cbn [tmdbTypeOf ret snd];
    try rewrite getTVDetails_log;
    rewrite getMediaVideos_log, getMediaReviews_log, getWatchProviders_log;
    repeat rewrite <- app_assoc; reflexivity.
Qed.

(** ** Events, by kind *)

Section FineFrames.
Variable P : Event -> Prop.
Hypothesis P_catalog : forall r, isGenerate r = false -> P (Requested r).

Ltac fine := repeat emits_step; try (apply P_catalog; reflexivity); auto.

Lemma fine_getGenreMaps w ty : Emits P (getGenreMaps w ty).
Proof.
  apply Emits_state. intros s. unfold getGenreMaps.
  destruct (cachedGenreMap ty s) as [g|].
  - exists (ret (Ok g)). split; [reflexivity | apply Emits_ret].
  - eexists. split; [reflexivity | ].
    apply Emits_bind; [apply Emits_request, P_catalog; reflexivity | intros r].
    destruct r as [[]|]; try apply Emits_ret.
    apply Emits_bind; [apply Emits_store_genres | intros; apply Emits_ret].
Qed.

Lemma fine_buildRecommendation w media mediaType region e :
  Emits P (buildRecommendation w media mediaType region e).
Proof.
  unfold buildRecommendation, getWatchProviders, getMediaReviews, getMediaVideos,
    getTVDetails.
  apply Emits_bind; [fine | intros ?].
  apply Emits_bind; [fine | intros ?].
  apply Emits_bind; [fine | intros ?].
  apply Emits_bind; [ | intros ?; apply Emits_ret].
  destruct (tmdbTypeOf mediaType); fine.
Qed.

Lemma fine_getGenAI w : Emits P (getGenAI w).
Proof.
  intros s. exists []. rewrite getGenAI_log, app_nil_r. auto.
Qed.

Lemma fine_searchByTitle w title year mediaType :
  P (Called fn_searchByTitle) -> Emits P (searchByTitle w title year mediaType).
Proof. intros C. unfold searchByTitle. fine. Qed.

Lemma fine_getRecentReleases w mediaType limit :
  P (Called fn_getRecentReleases) -> Emits P (getRecentReleases w mediaType limit).
Proof. intros C. unfold getRecentReleases. fine. Qed.

Lemma fine_getAIRecommendations w userPrompt mediaType hiddenGems fresh :
  P (Called fn_getAIRecommendations) ->
  (forall key prompt, P (Requested (GenerateContent key prompt))) ->
  Emits P (getAIRecommendations w userPrompt mediaType hiddenGems fresh).
Proof.
  intros C G. unfold getAIRecommendations.
  apply Emits_bind; [apply Emits_emit, C | intros _].
  apply Emits_bind; [apply fine_getGenAI | intros ai].
  destruct ai; [ | apply Emits_ret].
  apply Emits_bind; [apply Emits_request, G | intros r]. fine.
Qed.

Lemma fine_processAIRecommendations w aiRecs mediaType region :
  P (Called fn_searchByTitle) ->
  Emits P (processAIRecommendations w aiRecs mediaType region).
Proof.
  intros C. induction aiRecs as [|rec rest IH]; cbn [processAIRecommendations].
  - apply Emits_ret.
  - apply Emits_bind; [apply fine_searchByTitle, C | intros media].
    destruct media; [ | exact IH].
    apply Emits_bind; [apply fine_buildRecommendation | intros ?].
    apply Emits_bind; [exact IH | intros ?; apply Emits_ret].
Qed.

Lemma fine_buildHeuristic w items mediaType region :
  Emits P (buildHeuristic w items mediaType region).
Proof.
  induction items as [|media rest IH]; cbn [buildHeuristic].
  - apply Emits_ret.
  - apply Emits_bind; [apply fine_buildRecommendation | intros ?].
    apply Emits_bind; [exact IH | intros ?; apply Emits_ret].
Qed.

Lemma fine_searchMedia w query options :
  P (Called fn_searchMedia) -> Emits P (searchMedia w query options).
Proof.
  intros C. unfold searchMedia.
  apply Emits_bind; [apply Emits_emit, C | intros _].
  apply Emits_bind; [apply fine_getGenreMaps | intros maps].
  destruct maps; [ | apply Emits_ret]. fine.
Qed.

Lemma fine_getHeuristicRecommendations w query analysis options :
  P (Called fn_searchMedia) ->
  Emits P (getHeuristicRecommendations w query analysis options).
Proof.
  intros C. unfold getHeuristicRecommendations.
  apply Emits_bind; [apply fine_searchMedia, C | intros items].
  apply fine_buildHeuristic.
Qed.

Lemma fine_fallback w userInput options recommendations :
  P (Called fn_searchMedia) ->
  Emits P
    (if (List.length recommendations <? 3)%nat
     then heuristicResults <-
            getHeuristicRecommendations w userInput (analyzeUserInput userInput) options ;;
          ret (mergeHeuristic recommendations heuristicResults)
     else ret recommendations).
Proof.
  intros C. destruct (_ <? _)%nat; [ | apply Emits_ret].
  apply Emits_bind;
    [apply fine_getHeuristicRecommendations, C | intros ?; apply Emits_ret].
Qed.
End FineFrames.

Lemma callsOf_app f l1 l2 : callsOf f (l1 ++ l2) = (callsOf f l1 + callsOf f l2)%nat.
Proof. unfold callsOf. rewrite filter_app, length_app. reflexivity. Qed.

Lemma Fn_eqb_eq f g : Fn_eqb f g = true -> f = g.
Proof. destruct f, g; simpl; intros H; try discriminate; reflexivity. Qed.

Lemma callsOf_none f evs : Forall (notCallOf f) evs -> callsOf f evs = 0%nat.
Proof.
  unfold callsOf. induction 1 as [|e evs H _ IH]; [reflexivity | ].
  cbn [filter]. destruct (isCallOf f e) eqn:E; [ | exact IH].
  exfalso. apply H. destruct e as [g| |]; try discriminate.
  simpl in E. apply Fn_eqb_eq in E. subst. reflexivity.
Qed.

Lemma promptsOf_app l1 l2 : promptsOf (l1 ++ l2) = (promptsOf l1 ++ promptsOf l2)%list.
Proof. unfold promptsOf. apply flat_map_app. Qed.

Lemma promptsOf_none evs : Forall notGenerate evs -> promptsOf evs = [].
Proof.
  unfold promptsOf. induction 1 as [|e evs H _ IH]; [reflexivity | ].
  cbn [flat_map]. rewrite IH, app_nil_r.
  destruct e as [f | [] | m]; try reflexivity.
  exfalso. exact (H _ _ eq_refl).
Qed.

Lemma notGenerate_catalog r : isGenerate r = false -> notGenerate (Requested r).
Proof. intros H key prompt E. injection E as ->. discriminate. Qed.

Lemma notGenerate_call f : notGenerate (Called f).
Proof. intros key prompt E. discriminate. Qed.

Lemma notCallOf_request f r : notCallOf f (Requested r).
Proof. discriminate. Qed.

Lemma anyEvent_all e : anyEvent e.
Proof. exact I. Qed.

(** ** The generative path of the engine *)

Lemma wantsRecent_analyzeUserInput userInput :
  AnalyzedInput.wantsRecent (analyzeUserInput userInput) = detectRecency userInput.
Proof.
  unfold analyzeUserInput.
  destruct (existsb _ intensityWords_high); destruct (existsb _ intensityWords_low);
    reflexivity.
Qed.

Lemma getRecentReleases_events w mediaType limit s :
  events_of (getRecentReleases w mediaType limit) s
  = [Called fn_getRecentReleases; Requested (RecentList (tmdbTypeOf mediaType))].
Proof.
  apply events_of_eq. unfold getRecentReleases. repeat rewrite run_bind.
  destruct (fst (request _ _ _)) as [[]|]; cbn; rewrite <- app_assoc; reflexivity.
Qed.

Lemma getRecentReleases_bound w mediaType limit s :
  (List.length (fst (getRecentReleases w mediaType limit s)) <= limit)%nat.
Proof.
  unfold getRecentReleases. repeat rewrite run_bind.
  destruct (fst (request _ _ _)) as [[]|]; unfold ret; cbn [fst List.length]; try lia.
  rewrite length_map. apply firstn_le_length.
Qed.

Lemma processAIRecommendations_records w mediaType region aiRecs :
  forall s,
    let records := fst (processAIRecommendations w aiRecs mediaType region s) in
    (List.length records <= List.length aiRecs)%nat /\
    Forall
      (fun r =>
         exists c, In c aiRecs /\
           MediaRecommendation.aiExplanation r = Some (AIRecommendation.explanation c) /\
           MediaRecommendation.matchPercentage r
           = (if JsString.truthy (AIRecommendation.explanation c)
              then ofZ 85 else ofZ 70))
      records.
Proof.
  induction aiRecs as [|rec rest IH]; intros s; cbn [processAIRecommendations].
  - cbn. split; [lia | constructor].
  - cbv zeta. rewrite run_bind.
    assert (Weaken : forall s',
               (List.length (fst (processAIRecommendations w rest mediaType region s'))
                <= List.length (rec :: rest))%nat /\
               Forall
                 (fun r =>
                    exists c, In c (rec :: rest) /\
                      MediaRecommendation.aiExplanation r
                      = Some (AIRecommendation.explanation c) /\
                      MediaRecommendation.matchPercentage r
                      = (if JsString.truthy (AIRecommendation.explanation c)
                         then ofZ 85 else ofZ 70))
                 (fst (processAIRecommendations w rest mediaType region s'))).
    { intros s'. destruct (IH s') as (L & F). split; [simpl; lia | ].
      eapply Forall_impl; [ | exact F].
      intros r (c & Hc & X). exists c. split; [right; exact Hc | exact X]. }
    destruct (fst (searchByTitle w _ _ mediaType s)) as [media|]; [ | apply Weaken].
    repeat rewrite run_bind.
    match goal with
    | |- context [buildRecommendation w media mediaType region ?e ?s'] =>
        destruct (buildRecommendation_spec w media mediaType region e s')
          as (r & E & _ & P & X)
    end.
    rewrite E. unfold ret. cbn [fst].
    match goal with
    | |- context [processAIRecommendations w rest mediaType region ?s'] =>
        destruct (Weaken s') as (_ & F); destruct (IH s') as (L & _)
    end.
    split; [cbn [List.length]; lia | ].
    constructor; [ | exact F].
    exists rec. split; [left; reflexivity | ]. split; [exact X | exact P].
Qed.

Lemma searchByTitle_events w title year mediaType s :
  events_of (searchByTitle w title year mediaType) s
  = [Called fn_searchByTitle; Requested (SearchTitle (tmdbTypeOf mediaType) title year)].
Proof.
  apply events_of_eq. unfold searchByTitle. repeat rewrite run_bind.
  destruct (fst (request _ _ _)) as [[| [|? ?] | | | | |]|];
    cbn; rewrite <- app_assoc; reflexivity.
Qed.

Lemma processAIRecommendations_lookups w mediaType region aiRecs :
  forall s,
    callsOf fn_searchByTitle
      (events_of (processAIRecommendations w aiRecs mediaType region) s)
    = List.length aiRecs.
Proof.
  induction aiRecs as [|rec rest IH]; intros s; cbn [processAIRecommendations].
  - rewrite events_of_ret. reflexivity.
  - rewrite events_of_bind.
    + rewrite callsOf_app, searchByTitle_events.
      cbn [callsOf filter isCallOf Fn_eqb List.length Nat.add].
      f_equal.
      destruct (fst (searchByTitle w _ _ mediaType s)) as [media|]; [ | apply IH].
      rewrite events_of_bind.
      * rewrite callsOf_app, (callsOf_none fn_searchByTitle (events_of _ _)).
        -- rewrite events_of_bind.
           ++ rewrite callsOf_app, IH, events_of_ret. cbn. lia.
           ++ apply fine_processAIRecommendations; intros; exact I.
           ++ intros; apply Emits_ret.
        -- apply Emits_events, fine_buildRecommendation.
           intros; apply notCallOf_request.
      * apply fine_buildRecommendation; intros; exact I.
      * intros fullRec.
        apply Emits_bind;
          [apply fine_processAIRecommendations; intros; exact I
          | intros; apply Emits_ret].
    + apply fine_searchByTitle; intros; exact I.
    + intros media. destruct media.
      * apply Emits_bind; [apply fine_buildRecommendation; intros; exact I | intros ?].
        apply Emits_bind;
          [apply fine_processAIRecommendations; intros; exact I
          | intros; apply Emits_ret].
      * apply fine_processAIRecommendations; intros; exact I.
Qed.

(** The course of the generative path: the recency fetch, the call of the
    generative service, and the resolution of at most 5 candidates. *)
Lemma aiDerived_course w userInput options s :
  exists s1 s2 aiRecs,
    events_of (aiDerived w userInput options) s
    = ((if detectRecency userInput
        then [Called fn_getRecentReleases;
              Requested (RecentList (tmdbTypeOf (RecommendationOptions.mediaType options)))]
        else [])
       ++ events_of
            (getAIRecommendations w userInput (RecommendationOptions.mediaType options)
               (RecommendationOptions.hiddenGems options)
               (freshContextOf w userInput options s)) s1
       ++ events_of
            (processAIRecommendations w aiRecs (RecommendationOptions.mediaType options)
               (RecommendationOptions.region options)) s2)%list /\
    genAI s1 = genAI s /\
    (List.length aiRecs <= 5)%nat /\
    fst (aiDerived w userInput options s)
    = fst (processAIRecommendations w aiRecs (RecommendationOptions.mediaType options)
             (RecommendationOptions.region options) s2).
Proof.
  unfold aiDerived, freshContextOf. rewrite wantsRecent_analyzeUserInput.
  set (mt := RecommendationOptions.mediaType options).
  set (hg := RecommendationOptions.hiddenGems options).
  set (region := RecommendationOptions.region options).
  assert (Gp : forall aiRecs, Emits anyEvent (processAIRecommendations w aiRecs mt region))
    by (intros; apply fine_processAIRecommendations; intros; exact I).
  assert (Ga : forall fresh, Emits anyEvent (getAIRecommendations w userInput mt hg fresh))
    by (intros; apply fine_getAIRecommendations; intros; exact I).
  assert (Gk : forall aiResult : GeminiRecommendationResult.t,
             Emits anyEvent
               (if GeminiRecommendationResult.success aiResult
                   && (0 <? List.length (GeminiRecommendationResult.recommendations aiResult))%nat
                then processAIRecommendations w
                       (GeminiRecommendationResult.recommendations aiResult) mt region
                else ret [])).
  { intros aiResult. destruct (_ && _); [apply Gp | apply Emits_ret]. }
  assert (Shape : forall fresh s1,
             exists aiRecs,
               (List.length aiRecs <= 5)%nat /\
               (if GeminiRecommendationResult.success
                     (fst (getAIRecommendations w userInput mt hg fresh s1))
                   && (0 <? List.length
                              (GeminiRecommendationResult.recommendations
                                 (fst (getAIRecommendations w userInput mt hg fresh s1))))%nat
                then processAIRecommendations w
                       (GeminiRecommendationResult.recommendations
                          (fst (getAIRecommendations w userInput mt hg fresh s1))) mt region
                else ret [])
               = processAIRecommendations w aiRecs mt region).
  { intros fresh s1.
    destruct (_ && _).
    - eexists. split; [apply getAIRecommendations_at_most_5 | reflexivity].
    - exists []. split; [simpl; lia | reflexivity]. }
  destruct (detectRecency userInput).
  - rewrite events_of_bind;
      [ | apply Emits_bind;
            [apply fine_getRecentReleases; intros; exact I | intros; apply Emits_ret]
        | intros; apply Emits_bind; [apply Ga | apply Gk] ].
    rewrite events_of_bind;
      [ | apply fine_getRecentReleases; intros; exact I | intros; apply Emits_ret ].
    rewrite events_of_ret, app_nil_r, getRecentReleases_events.
    rewrite run_bind. cbn [ret fst snd].
    rewrite events_of_bind; [ | apply Ga | apply Gk].
    rewrite run_bind.
    destruct (Shape (Some (fst (getRecentReleases w mt 15 s)))
                (snd (getRecentReleases w mt 15 s))) as (aiRecs & L & E).
    rewrite E.
    eexists _, _, aiRecs. split; [reflexivity | ].
    split; [apply genAI_getRecentReleases | ]. split; [exact L | ].
    repeat rewrite run_bind. cbn [ret fst snd]. rewrite E. reflexivity.
  - rewrite events_of_bind;
      [ | apply Emits_ret | intros; apply Emits_bind; [apply Ga | apply Gk] ].
    rewrite events_of_ret. cbn [ret fst snd app].
    rewrite events_of_bind; [ | apply Ga | apply Gk].
    rewrite run_bind.
    destruct (Shape None s) as (aiRecs & L & E). rewrite E.
    eexists _, _, aiRecs. split; [reflexivity | ].
    split; [reflexivity | ]. split; [exact L | ].
    repeat rewrite run_bind. cbn [ret fst snd]. rewrite E. reflexivity.
Qed.

(** X17: a call of [getRecommendations] looks up at most 5 titles in the
    catalog for the generative path and gets at most one record per
    lookup; each such record carries the rationale of a candidate and has
    the match percentage 85, or 70 when that rationale is empty. *)
Theorem aiDerived_bounded w userInput options s :
  let records := fst (aiDerived w userInput options s) in
  let lookups :=
    callsOf fn_searchByTitle (events_of (aiDerived w userInput options) s) in
  (List.length records <= lookups <= 5)%nat /\
  Forall
    (fun r =>
       exists rationale,
         MediaRecommendation.aiExplanation r = Some rationale /\
         MediaRecommendation.matchPercentage r
         = (if JsString.truthy rationale then ofZ 85 else ofZ 70))
    records.
Proof.
  cbv zeta.
  destruct (aiDerived_course w userInput options s) as (s1 & s2 & aiRecs & E & _ & L & V).
  rewrite E, V, !callsOf_app, processAIRecommendations_lookups.
  destruct (processAIRecommendations_records w (RecommendationOptions.mediaType options)
              (RecommendationOptions.region options) aiRecs s2) as (Lr & F).
  replace (callsOf fn_searchByTitle (if detectRecency userInput then _ else _))
    with 0%nat by (destruct (detectRecency userInput); reflexivity).
  rewrite (callsOf_none fn_searchByTitle
             (events_of (getAIRecommendations _ _ _ _ _) s1)).
  - split; [cbn; lia | ].
    eapply Forall_impl; [ | exact F].
    intros r (c & _ & X & P). eexists. split; [exact X | exact P].
  - apply Emits_events, fine_getAIRecommendations;
      intros; first [apply notCallOf_request | discriminate].
Qed.

Lemma getRecommendations_course w userInput options s :
  exists fallback,
    events_of (getRecommendations w userInput options) s
    = (events_of (aiDerived w userInput options) s ++ fallback)%list /\
    forall P : Event -> Prop,
      (forall r, isGenerate r = false -> P (Requested r)) ->
      P (Called fn_searchMedia) -> Forall P fallback.
Proof.
  unfold getRecommendations.
  rewrite events_of_bind;
    [ | apply grows_mergedCandidates | intros; apply Emits_ret ].
  rewrite events_of_ret, app_nil_r. unfold mergedCandidates.
  rewrite events_of_bind;
    [ | apply grows_aiDerived | intros; apply fine_fallback; intros; exact I ].
  eexists. split; [reflexivity | ].
  intros P Hc Hs. apply Emits_events, fine_fallback; assumption.
Qed.

(** X18: a call of [getRecommendations] fetches the recent releases once
    when a recency word occurs in the lower-cased text, and never
    otherwise. *)
Theorem recency_fetch_iff_wanted w userInput options s :
  callsOf fn_getRecentReleases (events_of (getRecommendations w userInput options) s)
  = if detectRecency userInput then 1%nat else 0%nat.
Proof.
  destruct (getRecommendations_course w userInput options s) as (fallback & E & F).
  destruct (aiDerived_course w userInput options s) as (s1 & s2 & aiRecs & Ea & _ & _ & _).
  rewrite E, Ea, !callsOf_app.
  rewrite (callsOf_none fn_getRecentReleases fallback),
    (callsOf_none fn_getRecentReleases (events_of (getAIRecommendations _ _ _ _ _) s1)),
    (callsOf_none fn_getRecentReleases (events_of (processAIRecommendations _ _ _ _) s2)).
  - destruct (detectRecency userInput); reflexivity.
  - apply Emits_events, fine_processAIRecommendations;
      intros; first [apply notCallOf_request | discriminate].
  - apply Emits_events, fine_getAIRecommendations;
      intros; first [apply notCallOf_request | discriminate].
  - apply F; [intros; apply notCallOf_request | discriminate].
Qed.

Lemma getGenAI_available w s :
  match fst (getGenAI w s) with
  | Ok _ => clientAvailable w s = true
  | Throw _ => clientAvailable w s = false
  end.
Proof.
  unfold getGenAI, clientAvailable. destruct (genAI s); [reflexivity | ].
  destruct (VITE_GEMINI_API_KEY w) as [key|]; [ | reflexivity].
  cbn [truthyOpt]. destruct (JsString.truthy key); reflexivity.
Qed.

Lemma getGenAI_depends w s s' :
  genAI s' = genAI s -> fst (getGenAI w s') = fst (getGenAI w s).
Proof.
  intros G. unfold getGenAI. rewrite G. destruct (genAI s); [reflexivity | ].
  destruct (VITE_GEMINI_API_KEY w) as [key|]; [ | reflexivity].
  destruct (JsString.truthy key); reflexivity.
Qed.

(** X19: a call of [getRecommendations] sends at most one prompt to the
    generative service: exactly one when a client exists or can be made,
    none otherwise.  The prompt carries the text as it was typed, the
    media type and the hidden-gems flag of the options, and the recent
    titles, which are present exactly when the text asks for recency and
    are at most 15. *)
Theorem getRecommendations_prompt w userInput options s :
  promptsOf (events_of (getRecommendations w userInput options) s)
  = (if clientAvailable w s
     then [ {| Prompt.userPrompt := userInput;
               Prompt.mediaType := RecommendationOptions.mediaType options;
               Prompt.hiddenGems := RecommendationOptions.hiddenGems options;
               Prompt.freshContext := freshContextOf w userInput options s |} ]
     else []) /\
  match freshContextOf w userInput options s with
  | Some titles => detectRecency userInput = true /\ (List.length titles <= 15)%nat
  | None => detectRecency userInput = false
  end.
Proof.
  split.
  - destruct (getRecommendations_course w userInput options s) as (fallback & E & F).
    destruct (aiDerived_course w userInput options s)
      as (s1 & s2 & aiRecs & Ea & G & _ & _).
    rewrite E, Ea, !promptsOf_app.
    rewrite (promptsOf_none fallback),
      (promptsOf_none (events_of (processAIRecommendations _ _ _ _) s2)).
    + replace (promptsOf (if detectRecency userInput then _ else _))
        with (@nil Prompt.t) by (destruct (detectRecency userInput); reflexivity).
      rewrite !app_nil_r.
      rewrite (events_of_eq _ _ _ (getAIRecommendations_log w userInput
                 (RecommendationOptions.mediaType options)
                 (RecommendationOptions.hiddenGems options)
                 (freshContextOf w userInput options s) s1)).
      rewrite (getGenAI_depends w s s1 G).
      pose proof (getGenAI_available w s) as A.
      destruct (fst (getGenAI w s)); rewrite A; reflexivity.
    + apply Emits_events, fine_processAIRecommendations;
        intros; first [apply notGenerate_catalog; assumption | apply notGenerate_call].
    + apply F; [intros; apply notGenerate_catalog; assumption | apply notGenerate_call].
  - unfold freshContextOf. rewrite wantsRecent_analyzeUserInput.
    destruct (detectRecency userInput); [ | reflexivity].
    split; [reflexivity | apply getRecentReleases_bound].
Qed.

(** ** Failures of the remote services *)

Lemma getAIRecommendations_fails w userPrompt mediaType hiddenGems fresh s :
  generativeFails w ->
  GeminiRecommendationResult.success
    (fst (getAIRecommendations w userPrompt mediaType hiddenGems fresh s)) = false.
Proof.
  intros H. unfold getAIRecommendations. repeat rewrite run_bind.
  destruct (fst (getGenAI w _)) as [client | e]; [ | reflexivity].
  repeat rewrite run_bind. rewrite request_value.
  match goal with
  | |- context [respond w ?n (GenerateContent ?k ?p)] =>
      pose proof (H n k p) as X; destruct (respond w n (GenerateContent k p))
        as [[| | | | | | [|c parsed]] | e]
  end; try reflexivity. destruct X.
Qed.

Lemma aiDerived_fails w userInput options s :
  generativeFails w -> fst (aiDerived w userInput options s) = [].
Proof.
  intros H. unfold aiDerived. rewrite run_bind. rewrite run_bind.
  rewrite getAIRecommendations_fails by exact H. reflexivity.
Qed.

Lemma heuristics_only w userInput options s :
  fst (aiDerived w userInput options s) = [] ->
  fst (mergedCandidates w userInput options s)
  = fst (getHeuristicRecommendations w userInput (analyzeUserInput userInput) options
           (snd (aiDerived w userInput options s))).
Proof.
  intros E. unfold mergedCandidates. rewrite run_bind, E.
  cbn [List.length Nat.ltb Nat.leb]. rewrite run_bind.
  unfold ret, mergeHeuristic, existingIds. cbn [fst app map includesId existsb negb].
  induction (fst (getHeuristicRecommendations _ _ _ _ _)) as [|r l IH];
    [reflexivity | cbn [filter]; rewrite IH; reflexivity].
Qed.

(** X20: when the generative service fails altogether (it is unreachable,
    its answer does not decode, or it proposes nothing),
    [getRecommendations] still returns a list: it enters the free-text
    search once, and every record it returns comes from the heuristic path
    and has no rationale. *)
Theorem generative_failure_falls_back w userInput options s :
  generativeFails w ->
  exists result,
    fst (getRecommendations w userInput options s) = Ok result /\
    Forall (fun r => MediaRecommendation.aiExplanation r = None) result /\
    searchMediaCalls (events_of (getRecommendations w userInput options) s) = 1%nat.
Proof.
  intros H. pose proof (aiDerived_fails w userInput options s H) as E.
  eexists. split; [apply getRecommendations_value | ]. split.
  - apply Forall_forall. intros r Hr. apply rank_incl in Hr.
    rewrite (heuristics_only w userInput options s E) in Hr.
    pose proof (getHeuristicRecommendations_unexplained w userInput
                  (analyzeUserInput userInput) options
                  (snd (aiDerived w userInput options s))) as U.
    rewrite Forall_forall in U. exact (U r Hr).
  - rewrite getRecommendations_calls, E. reflexivity.
Qed.

Lemma generative_failure_falls_back_witness :
  exists result,
    fst (getRecommendations catalogWorld "scary space movie" defaultOptions initial)
    = Ok result /\
    Forall (fun r => MediaRecommendation.aiExplanation r = None) result.
Proof.
  destruct (generative_failure_falls_back catalogWorld "scary space movie"
              defaultOptions initial) as (result & E & U & _).
  - intros now key prompt. exact I.
  - exists result. split; [exact E | exact U].
Defined.

(** X21: when no remote call succeeds, [getRecommendations] returns the
    empty list; it does not raise. *)
Theorem offline_gives_empty_list w userInput options s :
  offline w -> fst (getRecommendations w userInput options s) = Ok [].
Proof.
  intros H.
  assert (G : generativeFails w).
  { intros now key prompt. destruct (H now (GenerateContent key prompt)) as (e & ->).
    exact I. }
  rewrite getRecommendations_value.
  rewrite (heuristics_only w userInput options s (aiDerived_fails w userInput options s G)).
  unfold getHeuristicRecommendations. rewrite run_bind.
  rewrite searchMedia_discover_fails; [reflexivity | ].
  intros now ty params. apply H.
Qed.

Lemma offline_gives_empty_list_witness :
  fst (getRecommendations offlineWorld "scary space movie" defaultOptions initial)
  = Ok [].
Proof.
  apply offline_gives_empty_list. intros now r. exists "Network Error". reflexivity.
Defined.

(** ** Merging and ranking, further *)

(** X22: on a collision of ids the generative path wins: a returned record
    whose id is the id of an AI-derived record is itself AI-derived, never
    the heuristic record of that id. *)
Theorem ai_records_take_precedence w userInput options s result r :
  fst (getRecommendations w userInput options s) = Ok result ->
  In r result ->
  In (MediaRecommendation.id r) (idsOf (fst (aiDerived w userInput options s))) ->
  In r (fst (aiDerived w userInput options s)).
Proof.
  rewrite getRecommendations_value. intros E Hr Hid. injection E as <-.
  apply rank_incl in Hr. unfold mergedCandidates in Hr. rewrite run_bind in Hr.
  destruct (_ <? _)%nat; [ | exact Hr].
  rewrite run_bind in Hr. unfold ret, mergeHeuristic in Hr. cbn [fst] in Hr.
  apply in_app_or in Hr. destruct Hr as [Hr | Hr]; [exact Hr | ].
  apply filter_In in Hr. destruct Hr as (_ & N).
  apply negb_true_iff in N. apply includesId_In in Hid.
  unfold existingIds, idsOf in *. congruence.
Qed.

Lemma ai_records_take_precedence_witness :
  idsOf mixedResult = [679%Z; 348%Z] /\
  exists r,
    nth_error mixedResult 1 = Some r /\
    MediaRecommendation.aiExplanation r = Some "A crew is hunted in deep space." /\
    In r mixedRecords.
Proof.
  split; [vm_compute; reflexivity | ].
  eexists. split; [vm_compute; reflexivity | ]. split; [reflexivity | ].
  eapply (ai_records_take_precedence mixedWorld "scary space movie" defaultOptions
            initial mixedResult).
  - unfold mixedResult. rewrite getRecommendations_value. reflexivity.
  - vm_compute. right. left. reflexivity.
  - vm_compute. left. reflexivity.
Defined.

Lemma filter_all {A} (P : A -> bool) (l : list A) :
  Forall (fun x => P x = true) l -> filter P l = l.
Proof.
  induction 1 as [|x l H _ IH]; [reflexivity | ].
  cbn [filter]. rewrite H, IH. reflexivity.
Qed.

Lemma sort_of_equals (l : list MediaRecommendation.t) (q : Q) :
  Forall (fun r => MediaRecommendation.matchPercentage r = Fin q) l ->
  sort byMatchDescending l = l.
Proof.
  induction 1 as [|x l H F IH]; [reflexivity | ].
  cbn [sort]. rewrite IH. destruct F as [|y l Hy F]; [reflexivity | ].
  cbn [insert_sorted]. unfold byMatchDescending. rewrite H, Hy.
  replace (gtb (sub (Fin q) (Fin q)) (ofZ 0)) with false; [reflexivity | ].
  symmetry. cbn. apply negb_false_iff, Qle_bool_iff. unfold inject_Z. lra.
Qed.

(** X23: when the generative path yields 3 to 5 records and each has a
    rationale that is not empty, [getRecommendations] returns exactly
    these records, in the order in which the generative service proposed
    them. *)
Theorem explained_ai_records_returned_in_order w userInput options s :
  (3 <= List.length (fst (aiDerived w userInput options s)))%nat ->
  Forall (fun r => truthyOpt (MediaRecommendation.aiExplanation r) = true)
    (fst (aiDerived w userInput options s)) ->
  fst (getRecommendations w userInput options s)
  = Ok (fst (aiDerived w userInput options s)).
Proof.
  intros L T. rewrite getRecommendations_value. f_equal.
  destruct (aiDerived_course w userInput options s) as (s1 & s2 & aiRecs & _ & _ & B2 & V).
  destruct (processAIRecommendations_records w (RecommendationOptions.mediaType options)
              (RecommendationOptions.region options) aiRecs s2) as (B1 & F).
  cbv zeta in *. rewrite <- V in B1, F.
  unfold mergedCandidates. rewrite run_bind.
  replace (_ <? 3)%nat with false by (symmetry; apply Nat.ltb_ge; exact L).
  cbn [ret fst].
  assert (S85 : Forall (fun r => MediaRecommendation.matchPercentage r = Fin (inject_Z 85))
                  (fst (aiDerived w userInput options s))).
  { rewrite Forall_forall in *. intros r Hr. destruct (F r Hr) as (c & _ & X & P).
    specialize (T r Hr). rewrite X in T. cbn in T. rewrite T in P. exact P. }
  unfold rank. rewrite filter_all.
  - rewrite (sort_of_equals _ _ S85). apply firstn_all2. lia.
  - eapply Forall_impl; [ | exact S85]. intros r P.
    unfold aboveThreshold. rewrite P. reflexivity.
Qed.

Lemma explained_ai_records_returned_in_order_witness :
  fst (getRecommendations twinWorld "scary space movie" defaultOptions initial)
  = Ok (fst (aiDerived twinWorld "scary space movie" defaultOptions initial)).
Proof.
  apply explained_ai_records_returned_in_order.
  - vm_compute. lia.
  - vm_compute. repeat constructor.
Defined.

Lemma StronglySorted_app_inv {A} (R : A -> A -> Prop) (l1 l2 : list A) :
  StronglySorted R (l1 ++ l2) -> forall a b, In a l1 -> In b l2 -> R a b.
Proof.
  induction l1 as [|x l1 IH]; intros S a b Ha Hb; [destruct Ha | ].
  cbn in S. inversion S as [|? ? S' Hx]; subst.
  destruct Ha as [<- | Ha].
  - rewrite Forall_forall in Hx. apply Hx. apply in_or_app. right. exact Hb.
  - exact (IH S' a b Ha Hb).
Qed.

(** X24: the 7 records kept are the best ones: a candidate whose match
    percentage is above 30 is returned, unless 7 records are returned that
    all have a match percentage at least as high as its own. *)
Theorem getRecommendations_keeps_the_best w userInput options s r :
  In r (fst (mergedCandidates w userInput options s)) ->
  aboveThreshold r = true ->
  exists result,
    fst (getRecommendations w userInput options s) = Ok result /\
    (In r result \/
     (List.length result = 7%nat /\ Forall (fun kept => descending kept r) result)).
Proof.
  intros Hr Ha. eexists. split; [apply getRecommendations_value | ].
  unfold rank.
  set (l := filter aboveThreshold (fst (mergedCandidates w userInput options s))).
  assert (Hl : In r l) by (apply filter_In; auto).
  assert (F : Forall finiteScore l).
  { apply Forall_forall. intros x Hx. apply filter_In in Hx. destruct Hx as (Hx & G).
    pose proof (mergedCandidates_scores w userInput options s) as M.
    rewrite Forall_forall in M.
    destruct (above_and_atMost100 x G (M x Hx)) as (q & E & _). exists q. exact E. }
  pose proof (sort_sorted l F) as S.
  apply (Permutation_in _ (Permutation_sym (sort_perm l))) in Hl.
  rewrite <- (firstn_skipn 7 (sort byMatchDescending l)) in Hl, S.
  apply in_app_or in Hl. destruct Hl as [Hl | Hl]; [left; exact Hl | right].
  split.
  - apply firstn_length_le.
    destruct (Nat.le_gt_cases 7 (List.length (sort byMatchDescending l))) as [G | G];
      [exact G | ].
    rewrite skipn_all2 in Hl by lia. destruct Hl.
  - apply Forall_forall. intros kept Hk.
    exact (StronglySorted_app_inv _ _ _ S kept r Hk Hl).
Qed.

Lemma getRecommendations_keeps_the_best_witness :
  exists r,
    hd_error sampleCandidates = Some r /\
    exists result,
      fst (getRecommendations catalogWorld "scary space movie" defaultOptions initial)
      = Ok result /\
      (In r result \/
       (List.length result = 7%nat /\ Forall (fun kept => descending kept r) result)).
Proof.
  eexists. split; [vm_compute; reflexivity | ].
  apply getRecommendations_keeps_the_best.
  - vm_compute. left. reflexivity.
  - vm_compute. reflexivity.
Defined.

(** ** The heuristic score, further *)

Lemma capped_at (k : Z) (p : Q) :
  exists a,
    JsNum.min (ofZ k) (Fin p) = Fin a /\
    (a <= inject_Z k)%Q /\ (a <= p)%Q /\ (a == p \/ a == inject_Z k)%Q.
Proof.
  unfold JsNum.min, ofZ, ltb.
  destruct (Qle_bool (inject_Z k) p) eqn:E; cbn [negb].
  - apply Qle_bool_iff in E. exists (inject_Z k).
    split; [reflexivity | ]. split; [lra | ]. split; [exact E | right; reflexivity].
  - exists p. split; [reflexivity | ].
    assert (L : (p < inject_Z k)%Q).
    { destruct (Qlt_le_dec p (inject_Z k)) as [L | L]; [exact L | ].
      apply Qle_bool_iff in L. congruence. }
    split; [lra | ]. split; [lra | left; reflexivity].
Qed.

Lemma capped_monotone (k : Z) (x y : num) :
  (0 <= inject_Z k)%Q -> (ofZ 0 <= x)%num -> (x <= y)%num ->
  exists a b,
    JsNum.min (ofZ k) x = Fin a /\ JsNum.min (ofZ k) y = Fin b /\
    (0 <= a)%Q /\ (a <= b)%Q /\ (b <= inject_Z k)%Q.
Proof.
  intros Hk Hx Hxy.
  destruct (nonneg_cases x Hx) as [-> | (p & -> & Hp)].
  - destruct y; try contradiction.
    exists (inject_Z k), (inject_Z k). repeat split; lra.
  - destruct (capped_at k p) as (a & Ea & A1 & A2 & A3).
    assert (A0 : (0 <= a)%Q) by (destruct A3 as [A3 | A3]; lra).
    destruct y as [| |q|]; try contradiction.
    + destruct (capped_at k q) as (b & Eb & B1 & B2 & B3).
      exists a, b. split; [exact Ea | ]. split; [exact Eb | ]. split; [exact A0 | ].
      simpl in Hxy. split; [destruct B3 as [B3 | B3]; lra | exact B1].
    + exists a, (inject_Z k). split; [exact Ea | ]. split; [reflexivity | ].
      split; [exact A0 | ]. split; [exact A1 | lra].
Qed.

Lemma below_infinity (x : num) : (ofZ 0 <= x)%num -> (x <= PosInf)%num.
Proof. destruct x; simpl; tauto. Qed.

Lemma double_monotone (x y : num) :
  (ofZ 0 <= x)%num -> (x <= y)%num ->
  (Binary64.mul x (ofZ 2) <= Binary64.mul y (ofZ 2))%num.
Proof.
  intros Hx Hxy.
  destruct (nonneg_cases x Hx) as [-> | (p & -> & Hp)];
    destruct y as [| |q|]; try contradiction; try exact I.
  - simpl in Hxy. apply round64_mono; unfold inject_Z; lra.
  - apply (below_infinity _ (double_nonneg (Fin p) Hx)).
Qed.

Lemma hundredth_monotone (x y : num) :
  (ofZ 0 <= x)%num -> (x <= y)%num ->
  (Binary64.div x (ofZ 100) <= Binary64.div y (ofZ 100))%num.
Proof.
  intros Hx Hxy.
  destruct (nonneg_cases x Hx) as [-> | (p & -> & Hp)];
    destruct y as [| |q|]; try contradiction; try exact I.
  - simpl in Hxy. apply round64_mono;
      unfold Qdiv, inject_Z; change (/ (100 # 1))%Q with (1 # 100)%Q; lra.
  - apply (below_infinity _ (hundredth_nonneg (Fin p) Hx)).
Qed.

Lemma heuristic_sum_monotone (a1 a2 b1 b2 : Q) :
  (0 <= a1)%Q -> (a1 <= a2)%Q -> (a2 <= 20)%Q ->
  (0 <= b1)%Q -> (b1 <= b2)%Q -> (b2 <= 20)%Q ->
  exists y1 y2,
    Binary64.add (Binary64.add (ofZ 60) (Fin a1)) (Fin b1) = Fin y1 /\
    Binary64.add (Binary64.add (ofZ 60) (Fin a2)) (Fin b2) = Fin y2 /\
    (0 <= y1)%Q /\ (y1 <= y2)%Q.
Proof.
  intros A0 La Ua B0 Lb Ub. unfold Binary64.add, ofZ.
  cbn [JsNum.add Binary64.rounded].
  assert (S1 : (Binary64.round64 (inject_Z 60 + a1)
                <= Binary64.round64 (inject_Z 60 + a2))%num)
    by (apply round64_mono; unfold inject_Z; lra).
  destruct (round64_between 60 80 (inject_Z 60 + a1) round64_60 round64_80)
    as (u1 & E1 & L1 & U1); [unfold inject_Z; lra | unfold inject_Z; lra | ].
  destruct (round64_between 60 80 (inject_Z 60 + a2) round64_60 round64_80)
    as (u2 & E2 & L2 & U2); [unfold inject_Z; lra | unfold inject_Z; lra | ].
  rewrite E1, E2 in *. cbn [JsNum.add Binary64.rounded JsNum.le] in *.
  unfold inject_Z in L1, L2, U1, U2.
  assert (S2 : (Binary64.round64 (u1 + b1) <= Binary64.round64 (u2 + b2))%num)
    by (apply round64_mono; lra).
  destruct (round64_between 60 100 (u1 + b1) round64_60 round64_100)
    as (y1 & F1 & M1 & _); [unfold inject_Z; lra | unfold inject_Z; lra | ].
  destruct (round64_between 60 100 (u2 + b2) round64_60 round64_100)
    as (y2 & F2 & _ & _); [unfold inject_Z; lra | unfold inject_Z; lra | ].
  rewrite F1, F2 in *. cbn [JsNum.le] in S2.
  exists y1, y2. repeat split; try assumption. unfold inject_Z in M1. lra.
Qed.

(** X25: the heuristic score grows with the rating and with the
    popularity: of two catalog entries with nonnegative rating and
    popularity, the one that is at least as well rated and at least as
    popular has at least the score of the other. *)
Theorem heuristicScore_monotone (m1 m2 : TMDBMedia.t) :
  (ofZ 0 <= TMDBMedia.vote_average m1)%num ->
  (ofZ 0 <= TMDBMedia.popularity m1)%num ->
  (TMDBMedia.vote_average m1 <= TMDBMedia.vote_average m2)%num ->
  (TMDBMedia.popularity m1 <= TMDBMedia.popularity m2)%num ->
  (heuristicScore m1 <= heuristicScore m2)%num.
Proof.
  intros Hv Hp Lv Lp. unfold heuristicScore.
  assert (K20 : (0 <= inject_Z 20)%Q) by (unfold inject_Z; lra).
  assert (K100 : (0 <= inject_Z 100)%Q) by (unfold inject_Z; lra).
  destruct (capped_monotone 20 _ _ K20 (double_nonneg _ Hv) (double_monotone _ _ Hv Lv))
    as (a1 & a2 & -> & -> & A0 & La & Ua).
  destruct (capped_monotone 20 _ _ K20 (hundredth_nonneg _ Hp)
              (hundredth_monotone _ _ Hp Lp))
    as (b1 & b2 & -> & -> & B0 & Lb & Ub).
  cbv zeta. unfold inject_Z in Ua, Ub.
  destruct (heuristic_sum_monotone a1 a2 b1 b2 A0 La Ua B0 Lb Ub)
    as (y1 & y2 & -> & -> & Y0 & Ly).
  destruct (capped_monotone 100 (Fin y1) (Fin y2) K100 Y0 Ly)
    as (c1 & c2 & E1 & E2 & _ & Lc & _).
  rewrite E1, E2. cbn [round le].
  rewrite <- Zle_Qle. apply Qfloor_resp_le. lra.
Qed.

Lemma heuristicScore_monotone_witness :
  (heuristicScore alien <= heuristicScore aliens)%num.
Proof.
  apply heuristicScore_monotone; vm_compute; discriminate.
Defined.

(** ** The handlers of the user interface *)





Example handleSubmit_passes_the_text_as_typed :
  (countSpaces (trim "  scary space movie ") <? 2)%nat = false /\
  promptsOf (events_of (handleSubmit mixedWorld defaultOptions "  scary space movie ")
               initial)
  = [ {| Prompt.userPrompt := "  scary space movie ";
         Prompt.mediaType := movie;
         Prompt.hiddenGems := false;
         Prompt.freshContext := None |} ].
Proof. split; vm_compute; reflexivity. Qed.

Lemma includesId_filter_out (cards : list Z) (id j : Z) :
  includesId (filter (fun member => negb (Z.eqb member id)) cards) j
  = if Z.eqb j id then false else includesId cards j.
Proof.
  destruct (includesId (filter _ cards) j) eqn:E.
  - apply includesId_In in E. apply filter_In in E. destruct E as (HI & N).
    apply negb_true_iff in N. rewrite N. symmetry. apply includesId_In. exact HI.
  - destruct (Z.eqb j id) eqn:J; [reflexivity | ].
    destruct (includesId cards j) eqn:C; [ | reflexivity].
    apply includesId_In in C.
    assert (X : includesId (filter (fun member => negb (Z.eqb member id)) cards) j = true).
    { apply includesId_In, filter_In. split; [exact C | rewrite J; reflexivity]. }
    congruence.
Qed.

Lemma includesId_app (l1 l2 : list Z) (j : Z) :
  includesId (l1 ++ l2) j = includesId l1 j || includesId l2 j.
Proof. unfold includesId. apply existsb_app. Qed.

(** X27: [toggleCard] flips the membership of the card it is given and of
    no other card, and it keeps the set of expanded cards free of
    repetition. *)
Theorem toggleCard_flips (expandedCards : list Z) (id : Z) :
  NoDup expandedCards ->
  NoDup (toggleCard expandedCards id) /\
  forall other,
    includesId (toggleCard expandedCards id) other
    = if Z.eqb other id then negb (includesId expandedCards id)
      else includesId expandedCards other.
Proof.
  intros N. unfold toggleCard.
  destruct (includesId expandedCards id) eqn:E.
  - split; [apply NoDup_filter; exact N | ].
    intros other. rewrite includesId_filter_out. reflexivity.
  - split.
    + apply NoDup_app; [exact N | repeat constructor; intros [] | ].
      intros x Hx [<- | []]. apply includesId_In in Hx. congruence.
    + intros other. rewrite includesId_app. cbn.
      destruct (Z.eqb other id) eqn:J.
      * apply Z.eqb_eq in J. subst. rewrite E. reflexivity.
      * rewrite !orb_false_r. reflexivity.
Qed.

Lemma toggleCard_flips_witness :
  toggleCard [348%Z; 679%Z] 348 = [679%Z] /\
  toggleCard (toggleCard [348%Z; 679%Z] 348) 348 = [679%Z; 348%Z] /\
  NoDup (toggleCard [348%Z; 679%Z] 348).
Proof.
  split; [reflexivity | ]. split; [reflexivity | ].
  apply (toggleCard_flips [348%Z; 679%Z] 348).
  repeat constructor; simpl; intuition discriminate.
Defined.

(** ** The state between calls *)

Lemma Keeps_ret {A} (I : State -> Prop) (a : A) : Keeps I (ret a).
Proof. intros s H. exact H. Qed.

Lemma Keeps_bind {A B} (I : State -> Prop) (m : M A) (k : A -> M B) :
  Keeps I m -> (forall a, Keeps I (k a)) -> Keeps I (bind m k).
Proof. intros Hm Hk s H. rewrite run_bind. apply Hk, Hm, H. Qed.

Section Persist.
Variable I : State -> Prop.
Hypothesis I_emit : forall e, Keeps I (emit e).
Hypothesis I_genres : forall w ty, Keeps I (getGenreMaps w ty).
Hypothesis I_genAI : forall w, Keeps I (getGenAI w).

Lemma Keeps_request w r : Keeps I (request w r).
Proof.
  intros s H. unfold request. rewrite run_bind. cbn [ret snd]. apply I_emit, H.
Qed.

Ltac keeps_step :=
  match goal with
  | |- Keeps _ (bind _ _) => apply Keeps_bind; [ | intros ? ]
  | |- Keeps _ (ret _) => apply Keeps_ret
  | |- Keeps _ (emit _) => apply I_emit
  | |- Keeps _ (request _ _) => apply Keeps_request
  | |- Keeps _ (getGenreMaps _ _) => apply I_genres
  | |- Keeps _ (getGenAI _) => apply I_genAI
  | |- Keeps _ (match ?x with _ => _ end) => destruct x
  | |- Keeps _ (if ?x then _ else _) => destruct x
  end.

Ltac keeps := repeat keeps_step.

Lemma Keeps_buildRecommendation w media mediaType region e :
  Keeps I (buildRecommendation w media mediaType region e).
Proof.
  unfold buildRecommendation, getWatchProviders, getMediaReviews, getMediaVideos,
    getTVDetails.
  apply Keeps_bind; [keeps | intros ?].
  apply Keeps_bind; [keeps | intros ?].
  apply Keeps_bind; [keeps | intros ?].
  apply Keeps_bind; [ | intros ?; apply Keeps_ret].
  destruct (tmdbTypeOf mediaType); keeps.
Qed.

Lemma Keeps_processAIRecommendations w aiRecs mediaType region :
  Keeps I (processAIRecommendations w aiRecs mediaType region).
Proof.
  induction aiRecs as [|rec rest IH]; cbn [processAIRecommendations].
  - apply Keeps_ret.
  - apply Keeps_bind; [unfold searchByTitle; keeps | intros media].
    destruct media; [ | exact IH].
    apply Keeps_bind; [apply Keeps_buildRecommendation | intros ?].
    apply Keeps_bind; [exact IH | intros ?; apply Keeps_ret].
Qed.

Lemma Keeps_buildHeuristic w items mediaType region :
  Keeps I (buildHeuristic w items mediaType region).
Proof.
  induction items as [|media rest IH]; cbn [buildHeuristic].
  - apply Keeps_ret.
  - apply Keeps_bind; [apply Keeps_buildRecommendation | intros ?].
    apply Keeps_bind; [exact IH | intros ?; apply Keeps_ret].
Qed.

Lemma Keeps_getRecommendations w userInput options :
  Keeps I (getRecommendations w userInput options).
Proof.
  unfold getRecommendations, mergedCandidates, aiDerived.
  apply Keeps_bind; [ | intros ?; apply Keeps_ret].
  apply Keeps_bind.
  - apply Keeps_bind; [unfold getRecentReleases; keeps | intros fresh].
    apply Keeps_bind; [unfold getAIRecommendations; keeps | intros ai].
    destruct (_ && _); [apply Keeps_processAIRecommendations | apply Keeps_ret].
  - intros recs. destruct (_ <? _)%nat; [ | apply Keeps_ret].
    apply Keeps_bind; [ | intros ?; apply Keeps_ret].
    unfold getHeuristicRecommendations.
    apply Keeps_bind; [unfold searchMedia; keeps | intros items].
    apply Keeps_buildHeuristic.
Qed.
End Persist.

Lemma cachedGenreMap_store_other ty ty' gm names s :
  ty <> ty' ->
  cachedGenreMap ty (snd (store_genres ty' gm names s)) = cachedGenreMap ty s.
Proof. destruct ty, ty'; intros H; try reflexivity; congruence. Qed.

Lemma cachedGenreMap_request ty w r s :
  cachedGenreMap ty (snd (request w r s)) = cachedGenreMap ty s.
Proof. destruct ty; reflexivity. Qed.

Lemma Keeps_genre_cache ty m w ty' :
  Keeps (fun s => cachedGenreMap ty s = Some m) (getGenreMaps w ty').
Proof.
  intros s H. unfold getGenreMaps.
  destruct (cachedGenreMap ty' s) as [g|] eqn:C; [exact H | ].
  assert (D : ty <> ty') by (intros ->; congruence).
  rewrite run_bind.
  destruct (fst (request w (GenreList ty') s)) as [[]|];
    try (cbn [ret snd]; rewrite cachedGenreMap_request; exact H).
  rewrite run_bind. cbn [ret snd]. rewrite cachedGenreMap_store_other by exact D.
  rewrite cachedGenreMap_request. exact H.
Qed.

Lemma cachedGenreMap_getGenAI ty w s :
  cachedGenreMap ty (snd (getGenAI w s)) = cachedGenreMap ty s.
Proof.
  unfold getGenAI. destruct (genAI s); [reflexivity | ].
  destruct (VITE_GEMINI_API_KEY w) as [key|]; [ | reflexivity].
  destruct (JsString.truthy key); destruct ty; reflexivity.
Qed.

Lemma genAI_getGenreMaps w ty s : genAI (snd (getGenreMaps w ty s)) = genAI s.
Proof.
  unfold getGenreMaps. destruct (cachedGenreMap ty s); [reflexivity | ].
  rewrite run_bind. destruct (fst (request w (GenreList ty) s)) as [[]|]; reflexivity.
Qed.

(** X28: what a call of [getRecommendations] finds cached, it leaves
    cached: a genre table that is in the cache before the call is the same
    table after it, and a client of the generative service that exists
    before the call is the same client after it. *)
Theorem getRecommendations_keeps_caches w userInput options s :
  let s' := snd (getRecommendations w userInput options s) in
  (forall ty genreMap,
     cachedGenreMap ty s = Some genreMap -> cachedGenreMap ty s' = Some genreMap) /\
  (forall client, genAI s = Some client -> genAI s' = Some client).
Proof.
  cbv zeta. split.
  - intros ty genreMap H.
    apply (Keeps_getRecommendations (fun s => cachedGenreMap ty s = Some genreMap));
      [ | | | exact H].
    + intros e s0 H0. rewrite cachedGenreMap_emit. exact H0.
    + intros w0 ty'. apply Keeps_genre_cache.
    + intros w0 s0 H0. rewrite cachedGenreMap_getGenAI. exact H0.
  - intros client H.
    apply (Keeps_getRecommendations (fun s => genAI s = Some client));
      [ | | | exact H].
    + intros e s0 H0. exact H0.
    + intros w0 ty s0 H0. rewrite genAI_getGenreMaps. exact H0.
    + intros w0 s0 H0. unfold getGenAI. rewrite H0. exact H0.
Qed.

(** ** Videos *)

Lemma firstn_one_filter {A} (P : A -> bool) (l : list A) :
  firstn 1 (filter P l) = match find P l with Some x => [x] | None => [] end.
Proof.
  induction l as [|x l IH]; [reflexivity | ].
  cbn [filter find]. destruct (P x); [reflexivity | exact IH].
Qed.

(** X29: of the videos that the catalog lists for a title,
    [getMediaVideos] returns the first one that is a trailer hosted on
    YouTube, and nothing when there is none. *)
Theorem getMediaVideos_first_trailer w mediaId ty s videos :
  respond w (List.length (log s)) (Videos ty mediaId) = Ok (VideoList videos) ->
  fst (getMediaVideos w mediaId ty s)
  = match find isYouTubeTrailer videos with
    | Some video => [video]
    | None => []
    end.
Proof.
  intros R. unfold getMediaVideos. rewrite run_bind, request_value, R.
  unfold ret. cbn [fst]. apply (firstn_one_filter isYouTubeTrailer).
Qed.

Lemma getMediaVideos_first_trailer_witness :
  map MediaVideo.key (fst (getMediaVideos providerWorld 348 tmdb_movie initial))
  = ["y2"].
Proof.
  rewrite (getMediaVideos_first_trailer providerWorld 348 tmdb_movie initial _ eq_refl).
  reflexivity.
Defined.
